(** * NoteDiscovery: note index, folder tree, history, filter and renderer

    A shallow embedding of the parts of [frontend/app.js] that make up the
    note index and content resolution engine, with the properties the
    specification states about them.

    Conventions of the embedding:
    - a JavaScript string is a [string] of code units; [toLowerCase] and
      [trim] are embedded as they act on ASCII text, character by character,
      and a statement that depends on how they treat letters carries the
      hypothesis [isAscii] on the strings concerned;
    - a JavaScript [Map] is a [gmap] (only [has], [get] and [set] are used on
      the lookup maps, so insertion order is not observable);
    - a plain object used as a dictionary of folder nodes is an association
      list in insertion order;
    - a method of the Alpine component that mutates [this] is a function from
      the fields it reads to the fields it writes. *)

From stdpp Require Import gmap strings list.
From Stdlib Require Import Ascii Lia.

Local Open Scope nat_scope.

(** ** JavaScript string primitives *)

Module JS.

(** The double quote character, as a one-character string. *)
Definition dq : string := String (ascii_of_nat 34) EmptyString.

(** [c.toLowerCase()] for one ASCII character. *)
Definition lowerChar (c : ascii) : ascii :=
  let n := nat_of_ascii c in
  if (65 <=? n) && (n <=? 90) then ascii_of_nat (n + 32) else c.

(** [s.toLowerCase()] on text of code units below 128, where the built-in
    lowers [A] to [Z] and leaves every other character alone. Outside this
    range the built-in follows the Unicode case mapping, which looks at the
    neighbours of a character and can change the length of the text. *)
Fixpoint toLowerCase (s : string) : string :=
  match s with
  | EmptyString => EmptyString
  | String c rest => String (lowerChar c) (toLowerCase rest)
  end.

(** The regular expression [/\.md$/i] tested at the start of [s]: the whole of
    [s] is a dot followed by [m] and [d] in either case. *)
Definition isMdSuffix (s : string) : bool :=
  String.eqb (toLowerCase s) ".md".

(** [s.replace(/\.md$/i, '')]: the leftmost position where the pattern
    matches is the one three characters before the end. *)
Fixpoint stripMd (s : string) : string :=
  match s with
  | EmptyString => EmptyString
  | String c rest => if isMdSuffix s then EmptyString else String c (stripMd rest)
  end.

(** [s.split(sep)] for a one-character separator; the result always has at
    least one segment. *)
Fixpoint split (sep : ascii) (s : string) : list string :=
  match s with
  | EmptyString => [EmptyString]
  | String c rest =>
      if Ascii.eqb c sep then EmptyString :: split sep rest
      else match split sep rest with
           | [] => [String c EmptyString]
           | seg :: segs => String c seg :: segs
           end
  end.

(** [parts.join(sep)]. *)
Fixpoint join (sep : string) (parts : list string) : string :=
  match parts with
  | [] => EmptyString
  | [p] => p
  | p :: rest => p +:+ sep +:+ join sep rest
  end.

(** [arr.pop()] read as a value: the last element ([undefined], here the
    empty string, is never reached on the result of [split]). *)
Definition popLast (parts : list string) : string := List.last parts EmptyString.

(** White space of [String.prototype.trim] within ASCII: TAB, LF, VT, FF, CR
    and space. *)
Definition isSpace (c : ascii) : bool :=
  let n := nat_of_ascii c in
  ((9 <=? n) && (n <=? 13)) || (n =? 32).

Fixpoint trimStart (s : string) : string :=
  match s with
  | EmptyString => EmptyString
  | String c rest => if isSpace c then trimStart rest else s
  end.

(** Drops trailing white space: a character is kept when something that is
    kept follows it, or when it is not white space itself. *)
Fixpoint trimEnd (s : string) : string :=
  match s with
  | EmptyString => EmptyString
  | String c rest =>
      match trimEnd rest with
      | EmptyString => if isSpace c then EmptyString else String c EmptyString
      | kept => String c kept
      end
  end.

(** [s.trim()]. *)
Definition trim (s : string) : string := trimEnd (trimStart s).

(** [s.replace(/c/g, by)] for a one-character pattern. *)
Fixpoint replaceChar (c : ascii) (by_ : string) (s : string) : string :=
  match s with
  | EmptyString => EmptyString
  | String a rest =>
      if Ascii.eqb a c then by_ +:+ replaceChar c by_ rest
      else String a (replaceChar c by_ rest)
  end.

(** [s.indexOf(c)], [None] standing for [-1]. *)
Fixpoint indexOf (c : ascii) (s : string) : option nat :=
  match s with
  | EmptyString => None
  | String a rest =>
      if Ascii.eqb a c then Some 0 else option_map S (indexOf c rest)
  end.

(** [s.substring(0, n)]. *)
Fixpoint substring0 (n : nat) (s : string) : string :=
  match n, s with
  | S k, String a rest => String a (substring0 k rest)
  | _, _ => EmptyString
  end.

(** Every character of [s] passes [p]. *)
Fixpoint allChars (p : ascii -> bool) (s : string) : bool :=
  match s with
  | EmptyString => true
  | String c rest => p c && allChars p rest
  end.

(** Every code unit of [s] is below 128. *)
Definition isAscii (s : string) : bool :=
  allChars (fun c => nat_of_ascii c <? 128) s.

(** [m.has(k)] on a [Map]. *)
Definition has {V} (k : string) (m : gmap string V) : bool :=
  match m !! k with Some _ => true | None => false end.

End JS.

(** ** Entries of the note and media collection *)

(** One element of [this.notes]. [type] is the string the backend sends
    (['note'] for notes, a media kind otherwise); [tags] is [None] when the
    field is missing. *)
Record Note := mkNote {
  path : string;
  name : string;
  folder : string;
  type : string;
  tags : option (list string)
}.

Definition isNote (n : Note) : bool := String.eqb (type n) "note".

(** ** NoteIndex: [buildNoteLookupMaps], [wikiLinkExists], [resolveMediaWikilink] *)

Module NoteIndex.
Import JS.

(** [this._noteLookup] and [this._mediaLookup]. *)
Record Lookup := mkLookup {
  byPath : gmap string bool;
  byPathLower : gmap string bool;
  byName : gmap string bool;
  byNameLower : gmap string bool;
  byEndPath : gmap string bool;
  mediaLookup : gmap string string
}.

(** The maps right after the six [clear()] calls. *)
Definition cleared : Lookup := mkLookup ∅ ∅ ∅ ∅ ∅ ∅.

(** The file name of a path: [path.split('/').pop()]. *)
Definition filenameOf (p : string) : string := popLast (split "/" p).

(** One iteration of the loop over [this.notes]. *)
Definition addEntry (lk : Lookup) (note : Note) : Lookup :=
  let path_ := path note in
  let pathLower := toLowerCase path_ in
  let name_ := name note in
  let nameLower := toLowerCase name_ in
  if negb (isNote note) then
    let filenameWithExt := toLowerCase (filenameOf path_) in
    if has filenameWithExt (mediaLookup lk) then lk
    else mkLookup (byPath lk) (byPathLower lk) (byName lk) (byNameLower lk)
                  (byEndPath lk) (<[filenameWithExt := path_]> (mediaLookup lk))
  else
    let nameWithoutMd := stripMd name_ in
    let nameWithoutMdLower := toLowerCase nameWithoutMd in
    mkLookup
      (<[stripMd path_ := true]> (<[path_ := true]> (byPath lk)))
      (<[stripMd pathLower := true]> (<[pathLower := true]> (byPathLower lk)))
      (<[nameWithoutMd := true]> (<[name_ := true]> (byName lk)))
      (<[nameWithoutMdLower := true]> (<[nameLower := true]> (byNameLower lk)))
      (<["/" +:+ nameLower := true]>
         (<["/" +:+ nameWithoutMdLower := true]> (byEndPath lk)))
      (mediaLookup lk).

(** [buildNoteLookupMaps()]: clear, then one pass over the collection. *)
Definition buildNoteLookupMaps (notes : list Note) : Lookup :=
  foldl addEntry cleared notes.

(** [wikiLinkExists(linkTarget)]. *)
Definition wikiLinkExists (lk : Lookup) (linkTarget : string) : bool :=
  let targetLower := toLowerCase linkTarget in
  has linkTarget (byPath lk) ||
  has (linkTarget +:+ ".md") (byPath lk) ||
  has targetLower (byPathLower lk) ||
  has (targetLower +:+ ".md") (byPathLower lk) ||
  has linkTarget (byName lk) ||
  has targetLower (byNameLower lk) ||
  has ("/" +:+ targetLower) (byEndPath lk) ||
  has ("/" +:+ targetLower +:+ ".md") (byEndPath lk).

(** [resolveMediaWikilink(mediaName)]: [get(nameLower) || null], so an absent
    key and an empty stored path both give [null] ([None]). *)
Definition resolveMediaWikilink (lk : Lookup) (mediaName : string) : option string :=
  let nameLower := toLowerCase mediaName in
  match mediaLookup lk !! nameLower with
  | Some p => if String.eqb p "" then None else Some p
  | None => None
  end.

(** Every key the loop body stores for a note. *)
Definition registered (n : Note) (lk : Lookup) : Prop :=
  has (path n) (byPath lk) = true /\
  has (stripMd (path n)) (byPath lk) = true /\
  has (toLowerCase (path n)) (byPathLower lk) = true /\
  has (stripMd (toLowerCase (path n))) (byPathLower lk) = true /\
  has (name n) (byName lk) = true /\
  has (stripMd (name n)) (byName lk) = true /\
  has (toLowerCase (name n)) (byNameLower lk) = true /\
  has (toLowerCase (stripMd (name n))) (byNameLower lk) = true /\
  has ("/" +:+ toLowerCase (stripMd (name n))) (byEndPath lk) = true /\
  has ("/" +:+ toLowerCase (name n)) (byEndPath lk) = true.

(** [q] is a case variant of [p]: the two differ at most in letter case. *)
Definition caseVariant (q p : string) : Prop := toLowerCase q = toLowerCase p.

(** The lowercase keys under which a note can be found: its path and its
    name, each with and without the suffix. *)
Definition lowerKeys (n : Note) : list string :=
  [ toLowerCase (path n); stripMd (toLowerCase (path n));
    toLowerCase (name n); stripMd (toLowerCase (name n)) ].

(** The target, or the target followed by [.md], is one of the lowercase keys
    of the note, case ignored. *)
Definition matchesNote (n : Note) (target : string) : Prop :=
  toLowerCase target ∈ lowerKeys n \/
  toLowerCase target +:+ ".md" ∈ lowerKeys n.

(** Every key of the five note maps was stored for a note of [l]. *)
Definition traced (l : list Note) (lk : Lookup) : Prop :=
  (forall k, has k (byPath lk) = true ->
     exists n, n ∈ l /\ isNote n = true /\ (k = path n \/ k = stripMd (path n))) /\
  (forall k, has k (byPathLower lk) = true ->
     exists n, n ∈ l /\ isNote n = true /\
       (k = toLowerCase (path n) \/ k = stripMd (toLowerCase (path n)))) /\
  (forall k, has k (byName lk) = true ->
     exists n, n ∈ l /\ isNote n = true /\ (k = name n \/ k = stripMd (name n))) /\
  (forall k, has k (byNameLower lk) = true ->
     exists n, n ∈ l /\ isNote n = true /\
       (k = toLowerCase (name n) \/ k = toLowerCase (stripMd (name n)))) /\
  (forall k, has k (byEndPath lk) = true ->
     exists n, n ∈ l /\ isNote n = true /\
       (k = "/" +:+ toLowerCase (stripMd (name n)) \/ k = "/" +:+ toLowerCase (name n))).

(** The paths and names of all entries are ASCII text. *)
Definition asciiOnly (l : list Note) : bool :=
  forallb (fun n => isAscii (path n) && isAscii (name n)) l.

(** Every value of the media map is the path of a media entry of [l], stored
    under the lowercase file name of that path. *)
Definition mediaTraced (l : list Note) (lk : Lookup) : Prop :=
  forall k p, mediaLookup lk !! k = Some p ->
    exists e, e ∈ l /\ isNote e = false /\ path e = p /\
              k = toLowerCase (filenameOf p).

End NoteIndex.

(** ** Following a link: the lookups of [handleInternalLink] *)

Module Links.
Import JS.

(** The three [this.notes.find] calls of [handleInternalLink] on the path
    part of the link: exact path, then name, then path with case ignored. *)
Definition findLinkedNote (notes : list Note) (notePath : string) : option Note :=
  match List.find (fun n => String.eqb (path n) notePath
                            || String.eqb (path n) (notePath +:+ ".md")) notes with
  | Some targetNote => Some targetNote
  | None =>
      match List.find (fun n =>
              String.eqb (name n) notePath
              || String.eqb (name n) (notePath +:+ ".md")
              || String.eqb (toLowerCase (name n)) (toLowerCase notePath)
              || String.eqb (toLowerCase (name n)) (toLowerCase (notePath +:+ ".md")))
            notes with
      | Some targetNote => Some targetNote
      | None =>
          List.find (fun n =>
              String.eqb (toLowerCase (path n)) (toLowerCase notePath)
              || String.eqb (toLowerCase (path n)) (toLowerCase (notePath +:+ ".md")))
            notes
      end
  end.

End Links.

(** ** FolderTree: [buildFolderTree] *)

Module FolderTree.
Import JS.

#[local] Set Warnings "-register-all".
(** A folder node. [noteCount] is [None] until [calculateNoteCounts] has set
    the field. [children] is the object keyed by child folder name. *)
Inductive FolderNode := mkFolder {
  fname : string;
  fpath : string;
  children : list (string * FolderNode);
  notes : list Note;
  noteCount : option nat
}.
#[local] Set Warnings "register-all".

(** A dictionary of folder nodes: [tree] itself and every [children]. The
    keys are kept in insertion order; [Object.values] would list keys that
    are array indices first, which changes the order of a walk and none of
    the sums taken over it. *)
Abbreviation Dict := (list (string * FolderNode)).

(** The property names every plain object inherits from [Object.prototype].
    Reading [obj[key]] for one of them gives a function or an object that is
    truthy and is not a folder node. *)
Definition inheritedKeys : list string :=
  [ "constructor"; "hasOwnProperty"; "isPrototypeOf"; "propertyIsEnumerable";
    "toLocaleString"; "toString"; "valueOf"; "__proto__";
    "__defineGetter__"; "__defineSetter__"; "__lookupGetter__"; "__lookupSetter__" ].

Definition inheritedKey (k : string) : bool :=
  existsb (String.eqb k) inheritedKeys.

(** [obj[key]] for an own property. *)
Fixpoint getOwn (key : string) (obj : Dict) : option FolderNode :=
  match obj with
  | [] => None
  | (k, v) :: rest => if String.eqb k key then Some v else getOwn key rest
  end.

(** [obj[key] = v]: replaces the value in place when the key is present and
    appends the key otherwise. *)
Fixpoint setOwn (key : string) (v : FolderNode) (obj : Dict) : Dict :=
  match obj with
  | [] => [(key, v)]
  | (k, w) :: rest =>
      if String.eqb k key then (k, v) :: rest else (k, w) :: setOwn key v rest
  end.

(** The object literal created for a folder seen for the first time. *)
Definition newFolder (name_ path_ : string) : FolderNode :=
  mkFolder name_ path_ [] [] None.

(** [obj[key]] after [if (!obj[key]) obj[key] = newFolder(...)]. *)
Definition getOrCreate (key path_ : string) (obj : Dict) : FolderNode :=
  match getOwn key obj with
  | Some node => node
  | None => newFolder key path_
  end.

Definition withChildren (f : FolderNode) (cs : Dict) : FolderNode :=
  mkFolder (fname f) (fpath f) cs (notes f) (noteCount f).

Definition withNotes (f : FolderNode) (ns : list Note) : FolderNode :=
  mkFolder (fname f) (fpath f) (children f) ns (noteCount f).

Definition withNoteCount (f : FolderNode) (n : nat) : FolderNode :=
  mkFolder (fname f) (fpath f) (children f) (notes f) (Some n).

(** The body of [this.allFolders.forEach] for one folder path, from the
    segment at index [length done] on; [done] holds the segments already
    walked, so that [parts.slice(0, index + 1).join('/')] is
    [join "/" (done ++ [part])]. [current] is the dictionary the walk has
    reached. [None] is the [TypeError] raised when the walk has stepped
    through an inherited property: [current] is then [undefined] and the next
    [current[part]] throws. *)
Fixpoint addFolderParts (done parts : list string) (current : Dict) : option Dict :=
  match parts with
  | [] => Some current
  | part :: rest =>
      if inheritedKey part then
        match rest with
        | [] => Some current
        | _ :: _ => None
        end
      else
        let node := getOrCreate part (join "/" (done ++ [part])) current in
        match addFolderParts (done ++ [part]) rest (children node) with
        | Some cs => Some (setOwn part (withChildren node cs) current)
        | None => None
        end
  end.

(** The whole first loop: [this.allFolders.forEach(...)]. *)
Fixpoint addFolders (allFolders : list string) (tree : Dict) : option Dict :=
  match allFolders with
  | [] => Some tree
  | folderPath :: rest =>
      match addFolderParts [] (split "/" folderPath) tree with
      | Some tree' => addFolders rest tree'
      | None => None
      end
  end.

(** The [for] loop that walks [note.folder.split('/')] and pushes the note on
    the last segment's node. An inherited property is an error at every
    index: [.notes.push] on it, or the next [current[parts[i]]], throws. *)
Fixpoint addNoteAt (done parts : list string) (note : Note) (current : Dict)
  : option Dict :=
  match parts with
  | [] => Some current
  | part :: rest =>
      if inheritedKey part then None
      else
        let node := getOrCreate part (join "/" (done ++ [part])) current in
        match rest with
        | [] => Some (setOwn part (withNotes node (notes node ++ [note])) current)
        | _ :: _ =>
            match addNoteAt (done ++ [part]) rest note (children node) with
            | Some cs => Some (setOwn part (withChildren node cs) current)
            | None => None
            end
        end
  end.

(** The body of [this.notes.forEach]. *)
Definition addNote (note : Note) (tree : Dict) : option Dict :=
  if String.eqb (folder note) "" then
    let root := match getOwn "__root__" tree with
                | Some node => node
                | None => newFolder "" ""
                end in
    Some (setOwn "__root__" (withNotes root (notes root ++ [note])) tree)
  else addNoteAt [] (split "/" (folder note)) note tree.

Fixpoint addNotes (ns : list Note) (tree : Dict) : option Dict :=
  match ns with
  | [] => Some tree
  | note :: rest =>
      match addNote note tree with
      | Some tree' => addNotes rest tree'
      | None => None
      end
  end.

Section Sorting.

(** [a.localeCompare(b)]: the host's collation, negative, zero or positive. *)
Variable localeCompare : string -> string -> Z.

(** The comparator handed to [sort]. *)
Definition byName (a b : Note) : Z :=
  localeCompare (toLowerCase (name a)) (toLowerCase (name b)).

(** [Array.prototype.sort] is stable; on a consistent comparator its result
    is the one of a stable insertion sort. *)
Fixpoint insertSorted (x : Note) (sorted : list Note) : list Note :=
  match sorted with
  | [] => [x]
  | y :: rest =>
      if (byName x y <=? 0)%Z then x :: y :: rest
      else y :: insertSorted x rest
  end.

(** [[...arr].sort(byName)]: elements are inserted right to left, each one
    in front of the first element it does not follow, so that elements that
    compare equal keep their order. *)
Definition sortByName (arr : list Note) : list Note :=
  foldr insertSorted [] arr.

(** [sortNotes(obj)]. *)
Fixpoint sortNotes (obj : FolderNode) : FolderNode :=
  let notes' := match notes obj with
                | [] => []
                | _ :: _ => sortByName (notes obj)
                end in
  mkFolder (fname obj) (fpath obj)
    (map (fun kc => (fst kc, sortNotes (snd kc))) (children obj))
    notes' (noteCount obj).

(** The two sorting steps on [tree]: the root bucket first, then
    [sortNotes] on every top-level value (the root bucket has a [path] too,
    so it is visited again). *)
Definition sortTree (tree : Dict) : Dict :=
  let tree1 := match getOwn "__root__" tree with
               | Some root => setOwn "__root__" (withNotes root (sortByName (notes root))) tree
               | None => tree
               end in
  map (fun kc => (fst kc, sortNotes (snd kc))) tree1.

(** The value of [folderNode.noteCount] read as a number. *)
Definition countOf (f : FolderNode) : nat :=
  match noteCount f with Some n => n | None => 0 end.

(** [calculateNoteCounts(folderNode)], returning the node with the field set
    on it and on all its descendants; the JavaScript return value is
    [countOf] of the result. *)
Fixpoint calculateNoteCounts (folderNode : FolderNode) : FolderNode :=
  let directNotes := length (notes folderNode) in
  match children folderNode with
  | [] => withNoteCount folderNode directNotes
  | _ :: _ =>
      let cs := map (fun kc => (fst kc, calculateNoteCounts (snd kc)))
                    (children folderNode) in
      let childNotesCount :=
        foldl (fun total kc => total + countOf (snd kc)) 0 cs in
      mkFolder (fname folderNode) (fpath folderNode) cs (notes folderNode)
               (Some (directNotes + childNotesCount))
  end.

(** [buildFolderTree()], from [this.allFolders] and [this.notes] to the value
    assigned to [this.folderTree]; [None] when a [TypeError] escapes. *)
Definition buildFolderTree (allFolders : list string) (entries : list Note)
  : option Dict :=
  match addFolders allFolders [] with
  | None => None
  | Some tree1 =>
      match addNotes entries tree1 with
      | None => None
      | Some tree2 =>
          Some (map (fun kc => (fst kc, calculateNoteCounts (snd kc)))
                    (sortTree tree2))
      end
  end.

End Sorting.

(** Every folder node of a tree: the node itself and the nodes below it. *)
Fixpoint nodesOf (f : FolderNode) : list FolderNode :=
  f :: flat_map (fun kc => nodesOf (snd kc)) (children f).

Definition treeNodes (tree : Dict) : list FolderNode :=
  flat_map (fun kc => nodesOf (snd kc)) tree.

(** The independent count: every entry in the folder or below it. *)
Fixpoint totalNotes (f : FolderNode) : nat :=
  length (notes f) + list_sum (map (fun kc => totalNotes (snd kc)) (children f)).

(** Comparison by character code, a collation to run the examples with. *)
Definition codeUnitCompare (a b : string) : Z :=
  match String.compare a b with
  | Lt => (-1)%Z
  | Eq => 0%Z
  | Gt => 1%Z
  end.

(** The invariant of the cached count at one node. *)
Definition countInvariant (f : FolderNode) : Prop :=
  noteCount f
  = Some (length (notes f) + list_sum (map (fun kc => countOf (snd kc)) (children f))).

(** No segment of the path is a property inherited from [Object.prototype]. *)
Definition plainPath (p : string) : Prop :=
  Forall (fun part => inheritedKey part = false) (split "/" p).

(** Induction on folder nodes with the hypothesis available for every
    child. *)
Fixpoint FolderNode_nested_ind (P : FolderNode -> Prop)
    (step : forall n p cs ns c,
        Forall (fun kc => P (snd kc)) cs -> P (mkFolder n p cs ns c))
    (f : FolderNode) : P f :=
  match f with
  | mkFolder n p cs ns c =>
      step n p cs ns c
        ((fix all (l : Dict) : Forall (fun kc => P (snd kc)) l :=
            match l with
            | [] => @List.Forall_nil _ _
            | kc :: rest =>
                @List.Forall_cons _ (fun kc => P (snd kc)) kc rest
                             (FolderNode_nested_ind P step (snd kc)) (all rest)
            end) cs)
  end.

(** What [getFolderNode] can return: [null], a folder node, or a value
    inherited from [Object.prototype], which is not a folder node. *)
Inductive Found :=
  | NotFound
  | FoundNode (node : FolderNode)
  | Foreign.

(** The [for] loop of [getFolderNode]. A value read through an inherited
    property has no [children], so the walk goes on in an empty object. *)
Fixpoint walk (parts : list string) (currentLevel : Dict) (node : Found) : Found :=
  match parts with
  | [] => node
  | part :: rest =>
      match getOwn part currentLevel with
      | Some n => walk rest (children n) (FoundNode n)
      | None => if inheritedKey part then walk rest [] Foreign else NotFound
      end
  end.

(** [s.length > 0], the test [filter(Boolean)] applies to a string. *)
Definition nonEmpty (s : string) : bool := 0 <? String.length s.

(** [getFolderNode(folderPath)] on [this.folderTree]. *)
Definition getFolderNode (tree : Dict) (folderPath : string) : Found :=
  if String.eqb folderPath "" then
    match getOwn "__root__" tree with
    | Some root => FoundNode root
    | None => FoundNode (mkFolder "" "" [] [] (Some 0))
    end
  else walk (List.filter nonEmpty (split "/" folderPath)) tree NotFound.

(** The node reached from the top of the tree by following own keys. *)
Fixpoint nodeAt (parts : list string) (d : Dict) : option FolderNode :=
  match parts with
  | [] => None
  | part :: rest =>
      match getOwn part d with
      | None => None
      | Some n =>
          match rest with
          | [] => Some n
          | _ :: _ => nodeAt rest (children n)
          end
      end
  end.

(** The entries held by the node at [parts], none when there is no node. *)
Definition notesAt (parts : list string) (d : Dict) : list Note :=
  match nodeAt parts d with
  | Some n => notes n
  | None => []
  end.

(** The keys under which [buildFolderTree] files an entry: the root bucket
    for an entry without folder, the segments of its folder otherwise. *)
Definition placeOf (note : Note) : list string :=
  if String.eqb (folder note) "" then ["__root__"] else split "/" (folder note).

(** The number of entries in a dictionary of folders, all levels included. *)
Definition treeTotal (d : Dict) : nat :=
  list_sum (map (fun kc => totalNotes (snd kc)) d).

(** Every key of the tree names a node labelled with that key and with the
    path that leads to it. *)
Definition labelled (done : list string) (d : Dict) : Prop :=
  forall parts n, nodeAt parts d = Some n ->
    fname n = List.last parts "" /\ fpath n = join "/" (done ++ parts).

(** How one step of the build changes the tree, path by path: a node that
    was there stays, keeps its labels and gains the entries [added] gives for
    its path; a node that appears satisfies [fresh] and holds those entries;
    where no node appears there is nothing to add. *)
Definition grows (fresh : list string -> FolderNode -> Prop)
    (added : list string -> list Note) (d d' : Dict) : Prop :=
  forall parts,
    match nodeAt parts d, nodeAt parts d' with
    | Some n, Some n' =>
        fname n' = fname n /\ fpath n' = fpath n /\
        notes n' = notes n ++ added parts
    | Some _, None => False
    | None, Some n' => fresh parts n' /\ notes n' = added parts
    | None, None => added parts = []
    end.

(** The labels of a node created at [parts] below the prefix [done]. *)
Definition freshAt (done : list string) (parts : list string) (n : FolderNode) : Prop :=
  fname n = List.last parts "" /\ fpath n = join "/" (done ++ parts).

(** The entry to add at a path when [note] is filed under [place]. *)
Definition addedAt (place : list string) (note : Note) (parts : list string)
  : list Note :=
  if decide (parts = place) then [note] else [].

End FolderTree.

(** ** History manager: [pushToHistory], [flushHistory], [commitToHistory],
    [undo], [redo] *)

Module History.

(** An element of [undoHistory] and [redoHistory]. *)
Record Entry := mkEntry {
  content : string;
  cursorPos : nat
}.

(** [CONFIG.MAX_UNDO_HISTORY], the initial value of [this.maxHistorySize]. *)
Definition MAX_UNDO_HISTORY : nat := 50.
Definition maxHistorySize : nat := MAX_UNDO_HISTORY.

(** The fields of the component the history code reads and writes. The two
    stacks are arrays: the top of a stack is the last element. *)
Record State := mkState {
  currentNote : string;
  noteContent : string;
  undoHistory : list Entry;
  redoHistory : list Entry;
  hasPendingHistoryChanges : bool;
  isUndoRedo : bool
}.

(** The editor element as the history code sees it: [None] when
    [document.getElementById('note-editor')] is [null], its
    [selectionStart] otherwise. *)
Definition Editor := option nat.

(** [arr[arr.length - 1]]. *)
Definition top (arr : list Entry) : option Entry := last arr.

(** [arr.shift()] read as the array left behind. *)
Definition shift (arr : list Entry) : list Entry := tail arr.

(** [arr.pop()] read as the array left behind. *)
Definition popped (arr : list Entry) : list Entry := removelast arr.

(** The part of [loadNote] that runs once the content has arrived. *)
Definition loadNote (notePath : string) (dataContent : string) (st : State) : State :=
  mkState notePath dataContent [mkEntry dataContent 0] [] false (isUndoRedo st).

(** [pushToHistory()]. *)
Definition pushToHistory (st : State) : State :=
  mkState (currentNote st) (noteContent st) (undoHistory st) (redoHistory st)
          true (isUndoRedo st).

(** A change of the text area: the binding stores the new text, and the
    input handler [autoSave] marks the history as pending unless an undo or
    redo is being applied. *)
Definition editContent (text : string) (st : State) : State :=
  let st1 := mkState (currentNote st) text (undoHistory st) (redoHistory st)
                     (hasPendingHistoryChanges st) (isUndoRedo st) in
  if isUndoRedo st1 then st1 else pushToHistory st1.

(** [editor ? editor.selectionStart : 0]. *)
Definition cursorOf (editor : Editor) : nat :=
  match editor with Some selectionStart => selectionStart | None => 0 end.

(** [commitToHistory()]. *)
Definition commitToHistory (editor : Editor) (st : State) : State :=
  let cursor := cursorOf editor in
  let unchanged :=
    (0 <? length (undoHistory st)) &&
    match top (undoHistory st) with
    | Some e => String.eqb (content e) (noteContent st)
    | None => false
    end in
  if unchanged then
    mkState (currentNote st) (noteContent st) (undoHistory st) (redoHistory st)
            false (isUndoRedo st)
  else
    let pushed := undoHistory st ++ [mkEntry (noteContent st) cursor] in
    let limited := if maxHistorySize <? length pushed then shift pushed else pushed in
    mkState (currentNote st) (noteContent st) limited [] false (isUndoRedo st).

(** [flushHistory()]; the autosave timer runs the same test before it
    commits. *)
Definition flushHistory (editor : Editor) (st : State) : State :=
  if hasPendingHistoryChanges st then commitToHistory editor st else st.

(** [undo()], up to the assignment of the previous content; the cursor is
    restored later, from a callback. *)
Definition undo (editor : Editor) (st : State) : State :=
  if String.eqb (currentNote st) "" then st
  else
    let st1 := flushHistory editor st in
    if length (undoHistory st1) <=? 1 then st1
    else
      match top (undoHistory st1) with
      | None => st1
      | Some currentState =>
          let undo' := popped (undoHistory st1) in
          let redo' := redoHistory st1 ++ [currentState] in
          match top undo' with
          | None => st1
          | Some previousState =>
              mkState (currentNote st1) (content previousState) undo' redo'
                      (hasPendingHistoryChanges st1) true
          end
      end.

(** [redo()], up to the assignment of the next content. *)
Definition redo (editor : Editor) (st : State) : State :=
  if String.eqb (currentNote st) "" then st
  else
    let st1 := flushHistory editor st in
    if length (redoHistory st1) =? 0 then st1
    else
      match top (redoHistory st1) with
      | None => st1
      | Some nextState =>
          mkState (currentNote st1) (content nextState)
                  (undoHistory st1 ++ [nextState]) (popped (redoHistory st1))
                  (hasPendingHistoryChanges st1) true
      end.

(** The [$nextTick] callback of [undo] and [redo], as far as the history is
    concerned: it lowers [isUndoRedo]. *)
Definition afterTick (st : State) : State :=
  mkState (currentNote st) (noteContent st) (undoHistory st) (redoHistory st)
          (hasPendingHistoryChanges st) false.

(** The cursor position the deferred callback of [undo] and [redo] restores:
    [Math.min(entry.cursorPos, this.noteContent.length)]. *)
Definition restoredCursor (e : Entry) (st : State) : nat :=
  Nat.min (cursorPos e) (String.length (noteContent st)).

(** What can happen to an open note between two loads. *)
Inductive Op :=
  | OpEdit (text : string)
  | OpRecordEdit
  | OpCommit (editor : Editor)
  | OpFlush (editor : Editor)
  | OpUndo (editor : Editor)
  | OpRedo (editor : Editor)
  | OpTick.

Definition step (st : State) (op : Op) : State :=
  match op with
  | OpEdit text => editContent text st
  | OpRecordEdit => pushToHistory st
  | OpCommit editor => commitToHistory editor st
  | OpFlush editor => flushHistory editor st
  | OpUndo editor => undo editor st
  | OpRedo editor => redo editor st
  | OpTick => afterTick st
  end.

Definition run (st : State) (ops : list Op) : State := foldl step st ops.

(** The component before any note is opened. *)
Definition initial : State := mkState "" "" [] [] false false.

(** The bounds the two stacks keep while a note is open. *)
Definition bounded (st : State) : Prop :=
  1 <= length (undoHistory st) /\
  length (undoHistory st) + length (redoHistory st) <= maxHistorySize.

End History.

(** ** Filter engine: [applyFilters], [noteMatchesTags], [debouncedSearchNotes] *)

Module Filter.
Import JS.

(** One element of [data.results] as the search endpoint returns it. *)
Record SearchHit := mkHit {
  hitPath : string;
  snippet : string
}.

(** [this.searchResults] holds notes after a tag filter and search hits after
    a text search. *)
Inductive Result :=
  | NoteResult (n : Note)
  | HitResult (h : SearchHit).

(** A search request that has been sent and not yet answered: the query it
    carries and the value of the local constant [hasTagFilter] its
    continuation closes over. *)
Record Request := mkRequest {
  reqQuery : string;
  reqHasTagFilter : bool
}.

Record State := mkState {
  notes : list Note;
  selectedTags : list string;
  searchQuery : string;
  searchResults : list Result;
  isSearching : bool;
  (** [searchDebounceTimeout] holds a timer that has not fired yet *)
  timerPending : bool;
  (** the [fetch] calls whose responses have not arrived, oldest first *)
  inFlight : list Request
}.

(** [arr.includes(x)] on an array of strings. *)
Definition includes (x : string) (arr : list string) : bool :=
  existsb (String.eqb x) arr.

(** [noteMatchesTags(note)]. *)
Definition noteMatchesTags (selected : list string) (note : Note) : bool :=
  if length selected =? 0 then true
  else
    match tags note with
    | None => false
    | Some noteTags =>
        if length noteTags =? 0 then false
        else forallb (fun tag => includes tag noteTags) selected
    end.

Definition hasTextSearch (st : State) : bool :=
  0 <? String.length (trim (searchQuery st)).

Definition hasTagFilter (st : State) : bool :=
  0 <? length (selectedTags st).

(** [this.notes.find(n => n.path === p)]. *)
Definition findByPath (p : string) (ns : list Note) : option Note :=
  List.find (fun n => String.eqb (path n) p) ns.

(** [applyFilters()] up to its first [await]: the two synchronous cases run
    to completion, the text search sends its request and suspends. *)
Definition applyFilters (st : State) : State :=
  if negb (hasTextSearch st) && negb (hasTagFilter st) then
    mkState (notes st) (selectedTags st) (searchQuery st) [] false
            (timerPending st) (inFlight st)
  else if hasTagFilter st && negb (hasTextSearch st) then
    mkState (notes st) (selectedTags st) (searchQuery st)
            (map NoteResult
                 (List.filter (fun note => isNote note && noteMatchesTags (selectedTags st) note)
                         (notes st)))
            false (timerPending st) (inFlight st)
  else
    mkState (notes st) (selectedTags st) (searchQuery st) (searchResults st) true
            (timerPending st)
            (inFlight st ++ [mkRequest (searchQuery st) (hasTagFilter st)]).

(** The rest of [applyFilters()], run when the response of [req] arrives:
    [Some hits] is a decoded answer, [None] a failed request. *)
Definition onSearchResponse (req : Request) (data : option (list SearchHit))
    (st : State) : State :=
  match data with
  | Some hits =>
      let results :=
        if reqHasTagFilter req then
          List.filter (fun result =>
                    match findByPath (hitPath result) (notes st) with
                    | Some note => noteMatchesTags (selectedTags st) note
                    | None => false
                    end) hits
        else hits in
      mkState (notes st) (selectedTags st) (searchQuery st)
              (map HitResult results) false (timerPending st) (inFlight st)
  | None =>
      mkState (notes st) (selectedTags st) (searchQuery st) [] false
              (timerPending st) (inFlight st)
  end.

(** [debouncedSearchNotes()], run after the search box has stored [query]. *)
Definition debouncedSearchNotes (query : string) (st : State) : State :=
  let st1 := mkState (notes st) (selectedTags st) query (searchResults st)
                     (isSearching st) false (inFlight st) in
  if negb (hasTextSearch st1) then
    applyFilters
      (mkState (notes st1) (selectedTags st1) (searchQuery st1) (searchResults st1)
               false false (inFlight st1))
  else
    mkState (notes st1) (selectedTags st1) (searchQuery st1) [] true true
            (inFlight st1).

(** The events of the single task queue that concern the filter. *)
Inductive Event :=
  | Typed (query : string)
  | TimerFired
  | Responded (index : nat) (data : option (list SearchHit)).

Definition step (st : State) (ev : Event) : State :=
  match ev with
  | Typed query => debouncedSearchNotes query st
  | TimerFired =>
      if timerPending st then
        applyFilters
          (mkState (notes st) (selectedTags st) (searchQuery st) (searchResults st)
                   (isSearching st) false (inFlight st))
      else st
  | Responded index data =>
      match inFlight st !! index with
      | Some req =>
          onSearchResponse req data
            (mkState (notes st) (selectedTags st) (searchQuery st) (searchResults st)
                     (isSearching st) (timerPending st) (delete index (inFlight st)))
      | None => st
      end
  end.

Definition run (st : State) (evs : list Event) : State := foldl step st evs.

Definition start (ns : list Note) (selected : list string) : State :=
  mkState ns selected "" [] false false [].

(** The tag set of an entry; an entry without the field has no tag. *)
Definition tagsOf (note : Note) : list string :=
  match tags note with Some noteTags => noteTags | None => [] end.

(** The tag set of [note] contains every selected tag. *)
Definition hasAllTags (selected : list string) (note : Note) : Prop :=
  forall tag, tag ∈ selected -> tag ∈ tagsOf note.

(** The hits a response contributes: all of them, or, when tags were
    selected as the request was sent, those whose path is the path of a note
    of the collection that carries every tag selected now. *)
Definition keptHit (req : Request) (st : State) (h : SearchHit) : Prop :=
  reqHasTagFilter req = true ->
  exists note, findByPath (hitPath h) (notes st) = Some note /\
               hasAllTags (selectedTags st) note.

(** [arr.splice(arr.indexOf(x), 1)] when [x] is in the array: the first
    occurrence goes. *)
Fixpoint removeFirst (x : string) (arr : list string) : list string :=
  match arr with
  | [] => []
  | y :: rest => if String.eqb y x then rest else y :: removeFirst x rest
  end.

Definition withTags (st : State) (selected : list string) : State :=
  mkState (notes st) selected (searchQuery st) (searchResults st)
          (isSearching st) (timerPending st) (inFlight st).

(** [toggleTag(tag)], up to the first [await] of [applyFilters]. *)
Definition toggleTag (tag : string) (st : State) : State :=
  let selected :=
    if includes tag (selectedTags st) then removeFirst tag (selectedTags st)
    else selectedTags st ++ [tag] in
  applyFilters (withTags st selected).

(** [clearTagFilters()], up to the first [await] of [applyFilters]. *)
Definition clearTagFilters (st : State) : State :=
  applyFilters (withTags st []).

(** What the user and the task queue can do to the filter. *)
Inductive Action :=
  | Queued (ev : Event)
  | TagToggled (tag : string)
  | TagsCleared.

Definition act (st : State) (a : Action) : State :=
  match a with
  | Queued ev => step st ev
  | TagToggled tag => toggleTag tag st
  | TagsCleared => clearTagFilters st
  end.

Definition perform (st : State) (actions : list Action) : State :=
  foldl act st actions.

(** The query holds more than white space. *)
Definition hasText (query : string) : bool :=
  0 <? String.length (trim query).

End Filter.

(** ** Content renderer: the note wikilink stage and the render cache of
    [renderedMarkdown] *)

Module Renderer.
Import JS.

(** The longest prefix of [s] whose characters satisfy [p], and the rest. *)
Fixpoint span (p : ascii -> bool) (s : string) : string * string :=
  match s with
  | EmptyString => (EmptyString, EmptyString)
  | String c rest =>
      if p c then let '(taken, remaining) := span p rest in (String c taken, remaining)
      else (EmptyString, s)
  end.

Definition startsWith (prefix s : string) : bool := String.prefix prefix s.

(** [[^\]|]]. *)
Definition targetChar (c : ascii) : bool :=
  negb (Ascii.eqb c "]") && negb (Ascii.eqb c "|").

(** [[^\]]]. *)
Definition displayChar (c : ascii) : bool := negb (Ascii.eqb c "]").

(** A match of [/\[\[([^\]|]+)(?:\|([^\]]+))?\]\]/] anchored at the start of
    [s]: the two capture groups and the length of the match. Both character
    classes exclude the character that has to follow them, so the greedy
    choice is the only one that can succeed. *)
Definition matchWikilink (s : string) : option (string * option string * nat) :=
  match s with
  | String "[" (String "[" body) =>
      let '(target, afterTarget) := span targetChar body in
      if String.length target =? 0 then None
      else
        match afterTarget with
        | String "|" afterBar =>
            let '(display, afterDisplay) := span displayChar afterBar in
            if (String.length display =? 0) || negb (startsWith "]]" afterDisplay)
            then None
            else Some (target, Some display,
                       2 + String.length target + 1 + String.length display + 2)
        | _ =>
            if startsWith "]]" afterTarget
            then Some (target, None, 2 + String.length target + 2)
            else None
        end
  | _ => None
  end.

(** [s.replace(/&/g, '&amp;').replace(/</g, '&lt;').replace(/>/g, '&gt;')]. *)
Definition escapeText (s : string) : string :=
  replaceChar ">" "&gt;" (replaceChar "<" "&lt;" (replaceChar "&" "&amp;" s)).

(** The global replacement of every double quote by [%22]. *)
Definition escapeHref (s : string) : string :=
  replaceChar (ascii_of_nat 34) "%22" s.

Section Stage.

Variable lk : NoteIndex.Lookup.

(** The replacement callback of step 2b, on the two capture groups. *)
Definition noteLink (target : string) (displayText : option string) : string :=
  let linkTarget := trim target in
  let linkText :=
    match displayText with
    | Some d => if String.eqb d "" then linkTarget else trim d
    | None => linkTarget
    end in
  let basePath :=
    match indexOf "#" linkTarget with
    | Some hashIndex => substring0 hashIndex linkTarget
    | None => linkTarget
    end in
  let noteExists := String.eqb basePath "" || NoteIndex.wikiLinkExists lk basePath in
  let safeHref := escapeHref linkTarget in
  let safeText := escapeText linkText in
  let brokenClass := if noteExists then "" else " class=" +:+ dq +:+ "wikilink-broken" +:+ dq in
  "<a href=" +:+ dq +:+ safeHref +:+ dq +:+ brokenClass +:+
  " data-wikilink=" +:+ dq +:+ "true" +:+ dq +:+ ">" +:+ safeText +:+ "</a>".

(** [contentToRender.replace(/\[\[...\]\]/g, callback)]: a left to right
    scan; [skip] counts the characters of a match that are still to be
    passed over. *)
Fixpoint replaceWikilinks (skip : nat) (s : string) : string :=
  match s with
  | EmptyString => EmptyString
  | String c rest =>
      match skip with
      | S k => replaceWikilinks k rest
      | O =>
          match matchWikilink s with
          | Some (target, displayText, len) =>
              noteLink target displayText +:+ replaceWikilinks (len - 1) rest
          | None => String c (replaceWikilinks 0 rest)
          end
      end
  end.

(** Step 2b of the pipeline. *)
Definition convertNoteWikilinks (s : string) : string := replaceWikilinks 0 s.

End Stage.

(** The text of a link: the display text when there is one, the trimmed
    target otherwise. *)
Definition linkTextOf (target : string) (displayText : option string) : string :=
  match displayText with
  | Some d => if String.eqb d "" then trim target else trim d
  | None => trim target
  end.

(** The markup of a link that is not styled as broken. *)
Definition resolvedLink (href text : string) : string :=
  "<a href=" +:+ dq +:+ href +:+ dq +:+
  " data-wikilink=" +:+ dq +:+ "true" +:+ dq +:+ ">" +:+ text +:+ "</a>".

(** The markup of a link styled as broken. *)
Definition brokenLink (href text : string) : string :=
  "<a href=" +:+ dq +:+ href +:+ dq +:+
  " class=" +:+ dq +:+ "wikilink-broken" +:+ dq +:+
  " data-wikilink=" +:+ dq +:+ "true" +:+ dq +:+ ">" +:+ text +:+ "</a>".

Section Pipeline.

(** The stages before step 2b: frontmatter stripping, protection of code
    regions and media embeds. They give the text handed to step 2b and the
    array [codeBlocks]. *)
Variable beforeLinks : NoteIndex.Lookup -> string -> string * list string.

(** The stages after step 2b: restoring [codeBlocks], [marked.parse] and the
    DOM post-processing. *)
Variable afterLinks : list string -> string -> string.

(** The body of the getter below its cache test. *)
Definition pipeline (lk : NoteIndex.Lookup) (text : string) : string :=
  let '(contentToRender, codeBlocks) := beforeLinks lk text in
  afterLinks codeBlocks (convertNoteWikilinks lk contentToRender).

(** The fields the getter reads and writes. [pipelineRuns] is not a field of
    the component: it counts how often the body below the cache test has
    run. *)
Record State := mkState {
  noteContent : string;
  lookup : NoteIndex.Lookup;
  _lastRenderedContent : string;
  _cachedRenderedHTML : string;
  pipelineRuns : nat
}.

Definition placeholder : string :=
  "<p style=" +:+ dq +:+ "color: var(--text-tertiary);" +:+ dq +:+
  ">Nothing to preview yet...</p>".

(** [get renderedMarkdown()]: the value returned and the component after the
    call. *)
Definition renderedMarkdown (st : State) : string * State :=
  if String.eqb (noteContent st) "" then (placeholder, st)
  else if String.eqb (noteContent st) (_lastRenderedContent st)
          && negb (String.eqb (_cachedRenderedHTML st) "")
  then (_cachedRenderedHTML st, st)
  else
    let html := pipeline (lookup st) (noteContent st) in
    (html, mkState (noteContent st) (lookup st) (noteContent st) html
                   (S (pipelineRuns st))).

(** The component when a note has just been loaded: the cache is cleared. *)
Definition loaded (lk : NoteIndex.Lookup) (text : string) : State :=
  mkState text lk "" "" 0.


(** The cache is empty or holds the rendering, under the current index, of
    the text it is keyed by. *)
Definition coherent (st : State) : Prop :=
  _cachedRenderedHTML st = "" \/
  _cachedRenderedHTML st = pipeline (lookup st) (_lastRenderedContent st).

End Pipeline.

(** The text holds two opening brackets in a row somewhere. *)
Fixpoint hasLinkOpen (s : string) : bool :=
  match s with
  | EmptyString => false
  | String c rest =>
      match c, rest with
      | "["%char, String "[" _ => true
      | _, _ => hasLinkOpen rest
      end
  end.







(** The component after [buildNoteLookupMaps] has replaced the index; the
    render cache is not touched by it. *)
Definition withLookup (lk : NoteIndex.Lookup) (st : State) : State :=
  mkState (noteContent st) lk (_lastRenderedContent st) (_cachedRenderedHTML st)
          (pipelineRuns st).

(** A stand-in for the stages before step 2b that leaves the text alone. *)
Definition passThrough (lk : NoteIndex.Lookup) (text : string) : string * list string :=
  (text, []).

(** A stand-in for the stages after step 2b. Like the markdown converter it
    gives the empty string on a text that is blank, and a paragraph
    otherwise. *)
Definition paragraphs (codeBlocks : list string) (text : string) : string :=
  if String.eqb (trim text) "" then "" else "<p>" +:+ text +:+ "</p>".

End Renderer.

(** ** [FilenameValidator] *)

Module FilenameValidator.
Import JS.

(** The [error] field of a rejected name. *)
Inductive Error :=
  | empty
  | forbidden_chars
  | reserved_name
  | invalid_dot
  | trailing_dot_space.

(** The object a validation returns: [{ valid: false, error }] or
    [{ valid: true, sanitized }]. The [forbiddenChars] field that goes with
    [forbidden_chars] is the constant [FORBIDDEN_CHARS_DISPLAY]. *)
Inductive Validation :=
  | Invalid (error : Error)
  | Valid (sanitized : string).

(** One character against [FORBIDDEN_CHARS]: backslash, slash, colon, star,
    question mark, double quote, angle brackets, bar and the control
    characters up to [\x1f]. *)
Definition forbiddenChar (c : ascii) : bool :=
  let n := nat_of_ascii c in
  (n <=? 31) ||
  existsb (Nat.eqb n) [92; 47; 58; 42; 63; 34; 60; 62; 124].

(** [FORBIDDEN_CHARS.test(s)]. *)
Fixpoint hasForbiddenChar (s : string) : bool :=
  match s with
  | EmptyString => false
  | String c rest => forbiddenChar c || hasForbiddenChar rest
  end.

(** The alternatives of the reserved-name pattern, in lowercase. *)
Definition reservedWords : list string :=
  [ "con"; "prn"; "aux"; "nul";
    "com1"; "com2"; "com3"; "com4"; "com5"; "com6"; "com7"; "com8"; "com9";
    "lpt1"; "lpt2"; "lpt3"; "lpt4"; "lpt5"; "lpt6"; "lpt7"; "lpt8"; "lpt9" ].

(** What follows the reserved word: a dot, or the end of the name. *)
Definition dotOrEnd (rest : string) : bool :=
  match rest with
  | EmptyString => true
  | String c _ => Ascii.eqb c "."
  end.

(** [s] without its first [n] characters. *)
Fixpoint dropChars (n : nat) (s : string) : string :=
  match n, s with
  | S k, String _ rest => dropChars k rest
  | _, _ => s
  end.

(** [reservedNames.test(s)]: the pattern is anchored at the start and
    ignores case. *)
Definition isReserved (s : string) : bool :=
  existsb (fun word => String.prefix word (toLowerCase s)
                       && dotOrEnd (dropChars (String.length word) s))
          reservedWords.

(** [s.endsWith(c)] for one character. *)
Fixpoint endsWithChar (c : ascii) (s : string) : bool :=
  match s with
  | EmptyString => false
  | String a EmptyString => Ascii.eqb a c
  | String _ rest => endsWithChar c rest
  end.

(** [validateFilename(name)] on a string. *)
Definition validateFilename (name_ : string) : Validation :=
  if String.eqb name_ "" then Invalid empty
  else
    let trimmed := trim name_ in
    if String.eqb trimmed "" then Invalid empty
    else if hasForbiddenChar trimmed then Invalid forbidden_chars
    else if isReserved trimmed then Invalid reserved_name
    else if String.prefix "." trimmed && (String.length trimmed =? 1)
    then Invalid invalid_dot
    else if endsWithChar "." trimmed || endsWithChar " " trimmed
    then Invalid trailing_dot_space
    else Valid trimmed.

(** The [for] loop of [validatePath]: the first rejection, if any. *)
Fixpoint firstRejection (segments : list string) : option Error :=
  match segments with
  | [] => None
  | segment :: rest =>
      match validateFilename segment with
      | Invalid e => Some e
      | Valid _ => firstRejection rest
      end
  end.

Definition nonEmpty (s : string) : bool := 0 <? String.length s.

(** [validatePath(path)] on a string. *)
Definition validatePath (path_ : string) : Validation :=
  if String.eqb path_ "" then Invalid empty
  else
    let trimmed := trim path_ in
    if String.eqb trimmed "" then Invalid empty
    else
      let segments := List.filter nonEmpty (split "/" trimmed) in
      if length segments =? 0 then Invalid empty
      else
        match firstRejection segments with
        | Some e => Invalid e
        | None => Valid (join "/" segments)
        end.

End FilenameValidator.

(** ** Media types: [getMediaType] *)

Module Media.
Import JS.

(** The keys of [mediaTypes]. *)
Inductive MediaType := image | audio | video | document.

(** The table [mediaTypes], in the order [Object.entries] lists it. *)
Definition mediaTypes : list (MediaType * list string) :=
  [ (image, ["jpg"; "jpeg"; "png"; "gif"; "webp"]);
    (audio, ["mp3"; "wav"; "ogg"; "m4a"]);
    (video, ["mp4"; "webm"; "mov"; "avi"]);
    (document, ["pdf"]) ].

(** The [for] loop over the table: the first type whose list includes the
    extension. *)
Fixpoint typeOfExtension (table : list (MediaType * list string)) (ext : string)
  : option MediaType :=
  match table with
  | [] => None
  | (type_, extensions) :: rest =>
      if existsb (String.eqb ext) extensions then Some type_
      else typeOfExtension rest ext
  end.

(** [getMediaType(filename)]; [None] is [null]. *)
Definition getMediaType (filename : string) : option MediaType :=
  if String.eqb filename "" then None
  else
    let ext := toLowerCase (popLast (split "." filename)) in
    typeOfExtension mediaTypes ext.

End Media.

(** ** Favorites: [isFavorite], [toggleFavorite] *)

Module Favorites.

(** [favorites] is the array that is stored, [favoritesSet] the [Set] used
    for lookups. *)
Record State := mkState {
  favorites : list string;
  favoritesSet : gset string;
  currentNote : string
}.

(** [isFavorite(notePath)]. *)
Definition isFavorite (notePath : string) (st : State) : bool :=
  bool_decide (notePath ∈ favoritesSet st).

(** [toggleFavorite(notePath)]; [None] is a call without argument. Writing
    the array to [localStorage] is left out. *)
Definition toggleFavorite (notePath : option string) (st : State) : State :=
  let path_ :=
    match notePath with
    | Some p => if String.eqb p "" then currentNote st else p
    | None => currentNote st
    end in
  if String.eqb path_ "" then st
  else
    let favorites' :=
      if bool_decide (path_ ∈ favoritesSet st)
      then List.filter (fun f => negb (String.eqb f path_)) (favorites st)
      else favorites st ++ [path_] in
    mkState favorites' (list_to_set favorites') (currentNote st).

(** The set holds what the array holds. *)
Definition coherent (st : State) : Prop :=
  favoritesSet st = list_to_set (favorites st).

End Favorites.

(** ** Expanded folders: [toggleFolder], [expandFolderForNote] *)

Module Expansion.
Import JS.

(** [toggleFolder(folderPath)] on [this.expandedFolders]. *)
Definition toggleFolder (folderPath : string) (expanded : gset string) : gset string :=
  if bool_decide (folderPath ∈ expanded) then expanded ∖ {[folderPath]}
  else expanded ∪ {[folderPath]}.

(** [isFolderExpanded(folderPath)]. *)
Definition isFolderExpanded (folderPath : string) (expanded : gset string) : bool :=
  bool_decide (folderPath ∈ expanded).

(** The [parts.forEach] of [expandFolderForNote], from the given index on. *)
Fixpoint expandParts (index : nat) (currentPath : string) (parts : list string)
    (expanded : gset string) : gset string :=
  match parts with
  | [] => expanded
  | part :: rest =>
      let currentPath' :=
        if index =? 0 then part else currentPath +:+ "/" +:+ part in
      expandParts (S index) currentPath' rest (expanded ∪ {[currentPath']})
  end.

(** [expandFolderForNote(notePath)]. *)
Definition expandFolderForNote (notePath : string) (expanded : gset string)
  : gset string :=
  let parts := split "/" notePath in
  if length parts <=? 1 then expanded
  else expandParts 0 "" (removelast parts) expanded.

(** The folder paths above and including [folderPath]: the joins of the
    non-empty prefixes of its segments. *)
Definition ancestors (folderPath : string) : list string :=
  let parts := split "/" folderPath in
  map (fun k => join "/" (take (S k) parts)) (seq 0 (length parts)).

End Expansion.

(** * Properties *)

(** ** Facts about the string primitives *)

Module JSFacts.
Import JS.

Lemma lowerChar_idem (c : ascii) : lowerChar (lowerChar c) = lowerChar c.
Proof.
  destruct c as [[] [] [] [] [] [] [] []]; reflexivity.
Qed.

Lemma toLowerCase_idem (s : string) : toLowerCase (toLowerCase s) = toLowerCase s.
Proof.
  induction s as [|c s IH]; simpl; [reflexivity|].
  by rewrite lowerChar_idem, IH.
Qed.

Lemma toLowerCase_app (a b : string) :
  toLowerCase (a +:+ b) = toLowerCase a +:+ toLowerCase b.
Proof.
  induction a as [|c a IH]; simpl; [reflexivity|]. by rewrite IH.
Qed.

Lemma toLowerCase_length (s : string) :
  String.length (toLowerCase s) = String.length s.
Proof.
  induction s as [|c s IH]; simpl; [reflexivity|]. by rewrite IH.
Qed.

Lemma app_length (a b : string) :
  String.length (a +:+ b) = String.length a + String.length b.
Proof.
  induction a as [|c a IH]; simpl; [reflexivity|]. by rewrite IH.
Qed.

Lemma isMdSuffix_length (s : string) : isMdSuffix s = true -> String.length s = 3.
Proof.
  unfold isMdSuffix. intros H. apply String.eqb_eq in H.
  rewrite <- toLowerCase_length, H. reflexivity.
Qed.

(** Stripping removes a suffix that matches the pattern, whatever precedes
    it. *)
Lemma stripMd_app (stem sfx : string) :
  isMdSuffix sfx = true -> stripMd (stem +:+ sfx) = stem.
Proof.
  intros Hsfx. induction stem as [|c stem IH].
  - simpl. destruct sfx as [|c sfx]; [reflexivity|].
    simpl. by rewrite Hsfx.
  - change (String c stem +:+ sfx) with (String c (stem +:+ sfx)).
    cbn [stripMd].
    destruct (isMdSuffix (String c (stem +:+ sfx))) eqn:E.
    + apply isMdSuffix_length in E. apply isMdSuffix_length in Hsfx.
      cbn [String.length] in E. rewrite app_length in E. lia.
    + by rewrite IH.
Qed.

Lemma stripMd_md (stem : string) : stripMd (stem +:+ ".md") = stem.
Proof. by apply stripMd_app. Qed.

Lemma has_insert_eq {V} (k : string) (v : V) (m : gmap string V) :
  has k (<[k := v]> m) = true.
Proof. unfold has. by rewrite lookup_insert_eq. Qed.

Lemma has_insert_mono {V} (k k' : string) (v : V) (m : gmap string V) :
  has k m = true -> has k (<[k' := v]> m) = true.
Proof.
  unfold has. destruct (decide (k' = k)) as [->|Hne].
  - by rewrite lookup_insert_eq.
  - by rewrite lookup_insert_ne.
Qed.

End JSFacts.

(** ** Facts about [split], [join] and [trim] *)

Module JSLists.
Import JS JSFacts.

Lemma append_assoc (a b c : string) : (a +:+ b) +:+ c = a +:+ (b +:+ c).
Proof.
  induction a as [|x a IH]; [reflexivity|].
  change ((String x a +:+ b) +:+ c) with (String x ((a +:+ b) +:+ c)).
  by rewrite IH.
Qed.

Lemma split_nonempty (c : ascii) (s : string) : split c s <> [].
Proof.
  destruct s as [|x s]; simpl; [done|].
  destruct (Ascii.eqb x c); [done|]. by destruct (split c s).
Qed.

(** Splitting at a separator splits the two sides. *)
Lemma split_app_sep (c : ascii) (a b : string) :
  split c (a +:+ String c b) = split c a ++ split c b.
Proof.
  induction a as [|x a IH]; simpl.
  - by rewrite Ascii.eqb_refl.
  - destruct (Ascii.eqb x c); [by rewrite IH|].
    rewrite IH. pose proof (split_nonempty c a) as Hne.
    by destruct (split c a).
Qed.

Lemma split_no_sep (c : ascii) (s : string) :
  allChars (fun x => negb (Ascii.eqb x c)) s = true ->
  split c s = [s].
Proof.
  induction s as [|x s IH]; simpl; [done|].
  intros H. apply andb_true_iff in H as [Hx Hs].
  apply negb_true_iff in Hx. rewrite Hx, (IH Hs). done.
Qed.

Lemma split_segments (c : ascii) (s : string) :
  Forall (fun seg => allChars (fun x => negb (Ascii.eqb x c)) seg = true)
         (split c s).
Proof.
  induction s as [|x s IH]; simpl; [by repeat constructor|].
  destruct (Ascii.eqb x c) eqn:E; [by constructor|].
  destruct (split c s) as [|seg segs];
    [constructor; [simpl; by rewrite E|constructor]|].
  apply Forall_cons in IH as [Hseg Hsegs]. constructor; [|done].
  simpl. by rewrite E, Hseg.
Qed.

(** Joining the segments of a string gives the string back. *)
Lemma join_split (c : ascii) (s : string) :
  join (String c EmptyString) (split c s) = s.
Proof.
  induction s as [|x s IH]; simpl; [done|].
  destruct (Ascii.eqb x c) eqn:E.
  - apply Ascii.eqb_eq in E. subst x.
    pose proof (split_nonempty c s) as Hne.
    destruct (split c s) as [|seg segs]; [done|].
    change (join (String c "") ("" :: seg :: segs))
      with (String c (join (String c "") (seg :: segs))).
    by rewrite IH.
  - destruct (split c s) as [|seg segs] eqn:Es.
    + by destruct (split_nonempty c s).
    + destruct segs as [|seg' segs].
      * simpl in *. by rewrite IH.
      * change (join (String c "") (String x seg :: seg' :: segs))
          with (String x (join (String c "") (seg :: seg' :: segs))).
        by rewrite IH.
Qed.

(** Splitting the join of separator-free segments gives the segments back. *)
Lemma split_join (c : ascii) (segs : list string) :
  segs <> [] ->
  Forall (fun seg => allChars (fun x => negb (Ascii.eqb x c)) seg = true)
         segs ->
  split c (join (String c EmptyString) segs) = segs.
Proof.
  intros Hne Hall. induction Hall as [|seg segs Hseg Hsegs IH]; [done|].
  destruct segs as [|seg' segs].
  - simpl. by apply split_no_sep.
  - change (join (String c "") (seg :: seg' :: segs))
      with (seg +:+ String c (join (String c "") (seg' :: segs))).
    rewrite split_app_sep, IH by done. by rewrite split_no_sep.
Qed.

Lemma trimEnd_idem (s : string) : trimEnd (trimEnd s) = trimEnd s.
Proof.
  induction s as [|c s IH]; [done|].
  cbn [trimEnd]. destruct (trimEnd s) as [|k kept] eqn:E.
  - destruct (isSpace c) eqn:Ec; [done|]. simpl. by rewrite Ec.
  - remember (String k kept) as u eqn:Hu. cbn [trimEnd]. rewrite IH.
    by subst u.
Qed.

Lemma trimStart_head (s : string) :
  match trimStart s with
  | EmptyString => True
  | String c _ => isSpace c = false
  end.
Proof.
  induction s as [|c s IH]; simpl; [done|].
  destruct (isSpace c) eqn:E; [done|]. simpl. done.
Qed.

Lemma trimStart_trimEnd (s : string) :
  match s with
  | EmptyString => True
  | String c _ => isSpace c = false
  end -> trimStart (trimEnd s) = trimEnd s.
Proof.
  destruct s as [|c s]; [done|]. intros Hc.
  cbn [trimEnd]. destruct (trimEnd s); rewrite ?Hc; simpl; by rewrite Hc.
Qed.

(** Trimming twice is trimming once. *)
Lemma trim_idem (s : string) : trim (trim s) = trim s.
Proof.
  unfold trim. rewrite trimStart_trimEnd by apply trimStart_head.
  apply trimEnd_idem.
Qed.

End JSLists.

(** ** NoteIndex *)

Module NoteIndexSpec.
Import JS JSFacts NoteIndex.

Create HintDb index.
#[local] Hint Resolve has_insert_eq has_insert_mono : index.

Lemma addEntry_registers (lk : Lookup) (n : Note) :
  isNote n = true -> registered n (addEntry lk n).
Proof.
  intros Hn. unfold registered, addEntry. rewrite Hn. simpl.
  repeat split; auto 6 with index.
Qed.

Lemma addEntry_keeps (lk : Lookup) (n m : Note) :
  registered n lk -> registered n (addEntry lk m).
Proof.
  unfold registered, addEntry.
  intros (H1 & H2 & H3 & H4 & H5 & H6 & H7 & H8 & H9 & H10).
  destruct (negb (isNote m)); [destruct (has _ (mediaLookup lk))|]; simpl;
    repeat split; auto 6 with index.
Qed.

Lemma foldl_keeps (l : list Note) (lk : Lookup) (n : Note) :
  registered n lk -> registered n (foldl addEntry lk l).
Proof.
  revert lk. induction l as [|m l IH]; intros lk H; simpl; [done|].
  apply IH. by apply addEntry_keeps.
Qed.

Lemma foldl_registers (l : list Note) (lk : Lookup) (n : Note) :
  n ∈ l -> isNote n = true -> registered n (foldl addEntry lk l).
Proof.
  revert lk. induction l as [|m l IH]; intros lk Hin Hn; [by inversion Hin|].
  simpl. apply elem_of_cons in Hin as [->|Hin].
  - apply foldl_keeps. by apply addEntry_registers.
  - by apply IH.
Qed.

Lemma build_registers (notes : list Note) (n : Note) :
  n ∈ notes -> isNote n = true -> registered n (buildNoteLookupMaps notes).
Proof. apply foldl_registers. Qed.

Lemma exists_byPathLower (lk : Lookup) (q : string) :
  has (toLowerCase q) (byPathLower lk) = true -> wikiLinkExists lk q = true.
Proof.
  intros H. unfold wikiLinkExists. rewrite H.
  by rewrite orb_true_r.
Qed.

Lemma exists_byNameLower (lk : Lookup) (q : string) :
  has (toLowerCase q) (byNameLower lk) = true -> wikiLinkExists lk q = true.
Proof.
  intros H. unfold wikiLinkExists. rewrite H.
  by rewrite !orb_true_r.
Qed.

(** On ASCII text, for a note of the collection whose path [P] ends in
    [.md], [wikiLinkExists] is true on [P], on [P] without the suffix and on
    every case variant of either, and on the lowercase stem of the note's
    name. *)
Lemma wikiLinkExists_note_variants (notes : list Note) (n : Note) (stem : string) :
  n ∈ notes ->
  isNote n = true ->
  isAscii (path n) = true ->
  isAscii (name n) = true ->
  path n = stem +:+ ".md" ->
  let lk := buildNoteLookupMaps notes in
  wikiLinkExists lk (path n) = true /\
  wikiLinkExists lk stem = true /\
  (forall q, isAscii q = true ->
             caseVariant q (path n) \/ caseVariant q stem ->
             wikiLinkExists lk q = true) /\
  wikiLinkExists lk (toLowerCase (stripMd (name n))) = true.
Proof.
  intros Hin Hn _ _ Hpath lk.
  destruct (build_registers notes n Hin Hn)
    as (_ & _ & HpL & HsL & _ & _ & _ & HnL & _ & _).
  fold lk in HpL, HsL, HnL.
  assert (Hstem : stripMd (toLowerCase (path n)) = toLowerCase stem).
  { rewrite Hpath, toLowerCase_app. apply stripMd_md. }
  rewrite Hstem in HsL.
  assert (Hall : forall q, caseVariant q (path n) \/ caseVariant q stem ->
                           wikiLinkExists lk q = true).
  { intros q [Hq|Hq]; apply exists_byPathLower; unfold caseVariant in Hq;
      by rewrite Hq. }
  split; [apply Hall; by left|]. split; [apply Hall; by right|].
  split; [intros q _; apply Hall|].
  apply exists_byNameLower. by rewrite toLowerCase_idem.
Qed.

(** The lemma at the note [folder/Note.md] and the link text
    [FOLDER/note]. *)
Lemma wikiLinkExists_note_variants_example :
  NoteIndex.wikiLinkExists
    (NoteIndex.buildNoteLookupMaps
       [mkNote "a.md" "a" "" "note" None;
        mkNote "folder/Note.md" "Note" "folder" "note" None])
    "FOLDER/note" = true.
Proof.
  pose proof (wikiLinkExists_note_variants
    [mkNote "a.md" "a" "" "note" None;
     mkNote "folder/Note.md" "Note" "folder" "note" None]
    (mkNote "folder/Note.md" "Note" "folder" "note" None) "folder/Note"
    ltac:(right; left) eq_refl eq_refl eq_refl eq_refl) as (_ & _ & H & _).
  apply H; [reflexivity|]. right. reflexivity.
Qed.

(** C1. The check fails on a slash followed by the lowercase stem. With the
    notes [a.md] and [folder/note.md] indexed, [byEndPath] holds the keys
    [/a] and [/note], stored for links written with a leading slash, yet
    [wikiLinkExists] is false on [/a], on [/note] and on [/folder/note]: it
    puts a slash of its own in front of the target before probing
    [byEndPath], so the keys probed start with two slashes. The same notes
    are found under their stems and paths. *)
Theorem wikiLinkExists_slash_link_fails :
  let a := mkNote "a.md" "a" "" "note" None in
  let n := mkNote "folder/note.md" "note" "folder" "note" None in
  let lk := buildNoteLookupMaps [a; n] in
  has "/a" (byEndPath lk) = true /\
  has "/note" (byEndPath lk) = true /\
  wikiLinkExists lk ("/" +:+ toLowerCase (stripMd (name a))) = false /\
  wikiLinkExists lk "/note" = false /\
  wikiLinkExists lk "/folder/note" = false /\
  wikiLinkExists lk "a" = true /\
  wikiLinkExists lk "folder/note" = true.
Proof.
  by vm_compute.
Qed.

(** *** Media lookup *)

Lemma media_addEntry_keeps (lk : Lookup) (m : Note) (k p : string) :
  mediaLookup lk !! k = Some p -> mediaLookup (addEntry lk m) !! k = Some p.
Proof.
  intros H. unfold addEntry. destruct (negb (isNote m)); [|done].
  unfold has.
  destruct (mediaLookup lk !! toLowerCase (filenameOf (path m))) eqn:E; [done|].
  simpl. rewrite lookup_insert_ne; [done|]. congruence.
Qed.

Lemma media_foldl_keeps (l : list Note) (lk : Lookup) (k p : string) :
  mediaLookup lk !! k = Some p -> mediaLookup (foldl addEntry lk l) !! k = Some p.
Proof.
  revert lk. induction l as [|m l IH]; intros lk H; simpl; [done|].
  apply IH. by apply media_addEntry_keeps.
Qed.

Lemma media_addEntry_none (lk : Lookup) (m : Note) (k : string) :
  mediaLookup lk !! k = None ->
  (isNote m = false -> toLowerCase (filenameOf (path m)) <> k) ->
  mediaLookup (addEntry lk m) !! k = None.
Proof.
  intros H Hm. unfold addEntry. destruct (isNote m); simpl; [done|].
  destruct (has _ (mediaLookup lk)); [done|]. simpl.
  rewrite lookup_insert_ne; [done|]. by apply Hm.
Qed.

Lemma media_foldl_none (l : list Note) (lk : Lookup) (k : string) :
  mediaLookup lk !! k = None ->
  (forall m, m ∈ l -> isNote m = false -> toLowerCase (filenameOf (path m)) <> k) ->
  mediaLookup (foldl addEntry lk l) !! k = None.
Proof.
  revert lk. induction l as [|m l IH]; intros lk H Hl; simpl; [done|].
  apply IH.
  - apply media_addEntry_none; [done|]. apply Hl. by left.
  - intros m' Hm'. apply Hl. by right.
Qed.

Lemma media_addEntry_first (lk : Lookup) (e : Note) :
  isNote e = false ->
  mediaLookup lk !! toLowerCase (filenameOf (path e)) = None ->
  mediaLookup (addEntry lk e) !! toLowerCase (filenameOf (path e)) = Some (path e).
Proof.
  intros He H. unfold addEntry, has. rewrite He, H. simpl.
  by rewrite lookup_insert_eq.
Qed.

(** C6. Take a media entry [e] that is the first of the collection with its
    file name, case ignored. Once the build has passed [e] the map holds the
    path of [e] under that name and keeps it whatever entries follow, and
    [resolveMediaWikilink] answers that path on every case variant of the
    file name. On a name no media entry carries, [resolveMediaWikilink]
    answers [null]. *)
Theorem resolveMedia_first_wins (before after : list Note) (e : Note) :
  isNote e = false ->
  path e <> "" ->
  (forall m, m ∈ before -> isNote m = false ->
             ~ caseVariant (filenameOf (path m)) (filenameOf (path e))) ->
  (forall processed rest, after = processed ++ rest ->
     mediaLookup (buildNoteLookupMaps (before ++ e :: processed))
       !! toLowerCase (filenameOf (path e)) = Some (path e)) /\
  (forall q, caseVariant q (filenameOf (path e)) ->
     resolveMediaWikilink (buildNoteLookupMaps (before ++ e :: after)) q
     = Some (path e)) /\
  (forall entries q,
     (forall m, m ∈ entries -> isNote m = false ->
                ~ caseVariant (filenameOf (path m)) q) ->
     resolveMediaWikilink (buildNoteLookupMaps entries) q = None).
Proof.
  intros He Hpath Hfirst.
  assert (Hkept : forall l,
    mediaLookup (buildNoteLookupMaps (before ++ e :: l))
      !! toLowerCase (filenameOf (path e)) = Some (path e)).
  { intros l. unfold buildNoteLookupMaps. rewrite foldl_app. simpl.
    apply media_foldl_keeps, media_addEntry_first; [done|].
    apply media_foldl_none; [done|].
    intros m Hm Hmn. by apply Hfirst. }
  split; [|split].
  - intros processed rest _. apply Hkept.
  - intros q Hq. unfold resolveMediaWikilink. rewrite Hq, Hkept.
    destruct (String.eqb (path e) "") eqn:E; [|done].
    by apply String.eqb_eq in E.
  - intros entries q Hnone. unfold resolveMediaWikilink, buildNoteLookupMaps.
    rewrite (media_foldl_none entries cleared (toLowerCase q)); [done|done|].
    intros m Hm Hmn. by apply Hnone.
Qed.

(** The theorem on the two images of the specification's example. *)
Lemma resolveMedia_first_wins_witness :
  NoteIndex.resolveMediaWikilink
    (NoteIndex.buildNoteLookupMaps
       [mkNote "/a/Img.png" "Img.png" "/a" "image" None;
        mkNote "/b/img.png" "img.png" "/b" "image" None])
    "IMG.PNG" = Some "/a/Img.png".
Proof.
  pose proof (resolveMedia_first_wins []
    [mkNote "/b/img.png" "img.png" "/b" "image" None]
    (mkNote "/a/Img.png" "Img.png" "/a" "image" None)
    eq_refl ltac:(discriminate)
    ltac:(intros m Hm; inversion Hm)) as (_ & H & _).
  apply H. reflexivity.
Defined.

(** *** What a hit of [wikiLinkExists] means *)

Lemma has_insert_inv {V} (k k' : string) (v : V) (m : gmap string V) :
  has k (<[k' := v]> m) = true -> k = k' \/ has k m = true.
Proof.
  unfold has. destruct (decide (k' = k)) as [->|Hne]; [by left|].
  rewrite lookup_insert_ne by done. by right.
Qed.

Lemma isMdSuffix_lower (s : string) : isMdSuffix (toLowerCase s) = isMdSuffix s.
Proof. unfold isMdSuffix. by rewrite toLowerCase_idem. Qed.

Lemma stripMd_lower (s : string) : toLowerCase (stripMd s) = stripMd (toLowerCase s).
Proof.
  induction s as [|c s IH]; [reflexivity|].
  cbn [stripMd]. change (toLowerCase (String c s)) with (String (lowerChar c) (toLowerCase s)).
  cbn [stripMd].
  change (String (lowerChar c) (toLowerCase s)) with (toLowerCase (String c s)).
  rewrite isMdSuffix_lower.
  destruct (isMdSuffix (String c s)); [reflexivity|].
  simpl. by rewrite IH.
Qed.

Lemma traced_mono (l l' : list Note) (lk : Lookup) :
  (forall n, n ∈ l -> n ∈ l') -> traced l lk -> traced l' lk.
Proof.
  intros Hsub (H1 & H2 & H3 & H4 & H5).
  repeat split; intros k Hk;
    [destruct (H1 k Hk) as (n & ? & ? & ?)
    |destruct (H2 k Hk) as (n & ? & ? & ?)
    |destruct (H3 k Hk) as (n & ? & ? & ?)
    |destruct (H4 k Hk) as (n & ? & ? & ?)
    |destruct (H5 k Hk) as (n & ? & ? & ?)];
    exists n; auto.
Qed.

Lemma addEntry_traced (l : list Note) (lk : Lookup) (m : Note) :
  traced l lk -> traced (l ++ [m]) (addEntry lk m).
Proof.
  intros Ht.
  assert (Hold : traced (l ++ [m]) lk).
  { apply (traced_mono l); [|done]. intros n Hn. apply elem_of_app. by left. }
  assert (Hm : m ∈ l ++ [m]) by (apply elem_of_app; right; by left).
  unfold addEntry. destruct (isNote m) eqn:Em; simpl.
  - destruct Hold as (H1 & H2 & H3 & H4 & H5).
    repeat split; simpl; intros k Hk;
      apply has_insert_inv in Hk as [->|Hk];
      try (exists m; by auto);
      apply has_insert_inv in Hk as [->|Hk];
      try (exists m; by auto); auto.
  - destruct (has _ (mediaLookup lk)); [done|].
    destruct Hold as (H1 & H2 & H3 & H4 & H5). by repeat split.
Qed.

Lemma foldl_traced (ms l : list Note) (lk : Lookup) :
  traced l lk -> traced (l ++ ms) (foldl addEntry lk ms).
Proof.
  revert l lk. induction ms as [|m ms IH]; intros l lk Ht; simpl.
  - by rewrite app_nil_r.
  - replace (l ++ m :: ms) with ((l ++ [m]) ++ ms) by by rewrite <- app_assoc.
    apply IH. by apply addEntry_traced.
Qed.

Lemma build_traced (notes : list Note) : traced notes (buildNoteLookupMaps notes).
Proof.
  apply (foldl_traced notes [] cleared).
  repeat split; intros k Hk; by vm_compute in Hk.
Qed.

Lemma lower_app_md (t : string) :
  toLowerCase (t +:+ ".md") = toLowerCase t +:+ ".md".
Proof. by rewrite toLowerCase_app. Qed.

Lemma append_slash_inj (a b : string) : "/" +:+ a = "/" +:+ b -> a = b.
Proof. intros H. by injection H. Qed.

Lemma wikiLinkExists_sound (notes : list Note) (target : string) :
  wikiLinkExists (buildNoteLookupMaps notes) target = true ->
  exists n, n ∈ notes /\ isNote n = true /\ matchesNote n target.
Proof.
  destruct (build_traced notes) as (H1 & H2 & H3 & H4 & H5).
  unfold wikiLinkExists. rewrite !orb_true_iff.
  unfold matchesNote, lowerKeys.
  intros [[[[[[[H|H]|H]|H]|H]|H]|H]|H].
  - destruct (H1 _ H) as (n & Hn & Hnote & [->| ->]); exists n;
      (split; [done|split; [done|left]]); [|rewrite stripMd_lower]; set_solver.
  - destruct (H1 _ H) as (n & Hn & Hnote & [E|E]); exists n;
      (split; [done|split; [done|right]]);
      rewrite <- lower_app_md, E; [|rewrite stripMd_lower];
      set_solver.
  - destruct (H2 _ H) as (n & Hn & Hnote & [E|E]); exists n;
      (split; [done|split; [done|left]]); rewrite E; set_solver.
  - destruct (H2 _ H) as (n & Hn & Hnote & [E|E]); exists n;
      (split; [done|split; [done|right]]); rewrite E; set_solver.
  - destruct (H3 _ H) as (n & Hn & Hnote & [->| ->]); exists n;
      (split; [done|split; [done|left]]); [|rewrite stripMd_lower]; set_solver.
  - destruct (H4 _ H) as (n & Hn & Hnote & [E|E]); exists n;
      (split; [done|split; [done|left]]); rewrite E; [|rewrite stripMd_lower];
      set_solver.
  - destruct (H5 _ H) as (n & Hn & Hnote & [E|E]); exists n;
      apply append_slash_inj in E;
      (split; [done|split; [done|left]]); rewrite E; [rewrite stripMd_lower|];
      set_solver.
  - destruct (H5 _ H) as (n & Hn & Hnote & [E|E]); exists n;
      apply append_slash_inj in E;
      (split; [done|split; [done|right]]); rewrite E; [rewrite stripMd_lower|];
      set_solver.
Qed.

Lemma wikiLinkExists_complete (notes : list Note) (n : Note) (target : string) :
  n ∈ notes -> isNote n = true -> matchesNote n target ->
  wikiLinkExists (buildNoteLookupMaps notes) target = true.
Proof.
  intros Hin Hn Hm.
  destruct (build_registers notes n Hin Hn)
    as (_ & _ & HpL & HsL & _ & _ & HnL & HnsL & HeS & HeN).
  unfold wikiLinkExists. rewrite !orb_true_iff.
  unfold matchesNote, lowerKeys in Hm.
  rewrite <- (stripMd_lower (name n)) in Hm.
  rewrite !elem_of_cons in Hm.
  destruct Hm as [[E|[E|[E|[E|E]]]]|[E|[E|[E|[E|E]]]]];
    try (by apply not_elem_of_nil in E).
  - do 5 left. right. by rewrite E.
  - do 5 left. right. by rewrite E.
  - do 2 left. right. by rewrite E.
  - do 2 left. right. by rewrite E.
  - do 4 left. right. by rewrite E.
  - do 4 left. right. by rewrite E.
  - right. by rewrite E.
  - right. by rewrite E.
Qed.

(** On ASCII text, [wikiLinkExists] answers true exactly when some note of
    the collection has the target, or the target followed by [.md], among its
    lowercase keys. *)
Theorem wikiLinkExists_iff (notes : list Note) (target : string) :
  asciiOnly notes = true ->
  isAscii target = true ->
  wikiLinkExists (buildNoteLookupMaps notes) target = true <->
  exists n, n ∈ notes /\ isNote n = true /\ matchesNote n target.
Proof.
  intros _ _. split; [apply wikiLinkExists_sound|].
  intros (n & Hin & Hn & Hm). by eapply wikiLinkExists_complete.
Qed.

(** The theorem on the note [Docs/Plan.md]: the target [plan] is found, and
    the target [docs] is not. *)
Lemma wikiLinkExists_iff_witness :
  let plan := mkNote "Docs/Plan.md" "Plan" "Docs" "note" None in
  NoteIndex.wikiLinkExists (NoteIndex.buildNoteLookupMaps [plan]) "plan" = true /\
  ~ (exists n, n ∈ [plan] /\ isNote n = true /\ NoteIndex.matchesNote n "docs").
Proof.
  intros plan. split.
  - apply (wikiLinkExists_iff [plan] "plan"); [reflexivity|reflexivity|].
    exists plan. split; [by left|]. split; [reflexivity|].
    left. unfold lowerKeys. vm_compute. set_solver.
  - intros H.
    apply (wikiLinkExists_iff [plan] "docs") in H; [|reflexivity|reflexivity].
    by vm_compute in H.
Defined.

(** On ASCII text, the answer of [wikiLinkExists] does not change with the
    letter case of the target. *)
Theorem wikiLinkExists_case_insensitive (notes : list Note) (t1 t2 : string) :
  asciiOnly notes = true ->
  isAscii t1 = true ->
  isAscii t2 = true ->
  caseVariant t1 t2 ->
  wikiLinkExists (buildNoteLookupMaps notes) t1
  = wikiLinkExists (buildNoteLookupMaps notes) t2.
Proof.
  intros _ _ _ Hcase.
  assert (Hsame : forall n, matchesNote n t1 <-> matchesNote n t2).
  { intros n. unfold matchesNote. unfold caseVariant in Hcase. by rewrite Hcase. }
  apply eq_true_iff_eq. split; intros H;
    apply wikiLinkExists_sound in H as (n & Hin & Hn & Hm);
    apply (wikiLinkExists_complete notes n); auto; by apply Hsame.
Qed.

Lemma wikiLinkExists_case_insensitive_witness :
  NoteIndex.wikiLinkExists
    (NoteIndex.buildNoteLookupMaps [mkNote "Docs/Plan.md" "Plan" "Docs" "note" None])
    "DOCS/PLAN"
  = NoteIndex.wikiLinkExists
    (NoteIndex.buildNoteLookupMaps [mkNote "Docs/Plan.md" "Plan" "Docs" "note" None])
    "docs/plan".
Proof.
  apply wikiLinkExists_case_insensitive; reflexivity.
Defined.

(** Only the notes of the collection count: two collections with the same
    notes, in whatever order and with whatever media entries, give the same
    answers. *)
Theorem wikiLinkExists_notes_only (l1 l2 : list Note) (target : string) :
  (forall n, isNote n = true -> (n ∈ l1 <-> n ∈ l2)) ->
  wikiLinkExists (buildNoteLookupMaps l1) target
  = wikiLinkExists (buildNoteLookupMaps l2) target.
Proof.
  intros Hsame. apply eq_true_iff_eq. split; intros H;
    apply wikiLinkExists_sound in H as (n & Hin & Hn & Hm);
    apply (wikiLinkExists_complete _ n); auto; by apply (Hsame n Hn).
Qed.

Lemma wikiLinkExists_notes_only_witness :
  let a := mkNote "a.md" "a" "" "note" None in
  let b := mkNote "b.md" "b" "" "note" None in
  let img := mkNote "pic.png" "pic.png" "" "image" None in
  NoteIndex.wikiLinkExists (NoteIndex.buildNoteLookupMaps [a; img; b]) "B"
  = NoteIndex.wikiLinkExists (NoteIndex.buildNoteLookupMaps [b; a]) "B".
Proof.
  intros a b img. apply wikiLinkExists_notes_only.
  intros n Hn. rewrite !elem_of_cons. split.
  - intros [->|[->|[->|H]]]; [tauto|discriminate|tauto|by apply not_elem_of_nil in H].
  - intros [->|[->|H]]; [tauto|tauto|by apply not_elem_of_nil in H].
Defined.

(** *** What an answer of [resolveMediaWikilink] means *)

Lemma addEntry_mediaTraced (l : list Note) (lk : Lookup) (m : Note) :
  mediaTraced l lk -> mediaTraced (l ++ [m]) (addEntry lk m).
Proof.
  intros Ht k p Hk.
  assert (Hold : mediaLookup lk !! k = Some p ->
                 exists e, e ∈ l ++ [m] /\ isNote e = false /\ path e = p /\
                           k = toLowerCase (filenameOf p)).
  { intros H. destruct (Ht k p H) as (e & He & ?). exists e.
    split; [apply elem_of_app; by left|done]. }
  unfold addEntry in Hk. destruct (isNote m) eqn:Em; simpl in Hk; [by apply Hold|].
  destruct (has _ (mediaLookup lk)); [by apply Hold|]. simpl in Hk.
  destruct (decide (toLowerCase (filenameOf (path m)) = k)) as [<-|Hne].
  - rewrite lookup_insert_eq in Hk. injection Hk as <-.
    exists m. split; [apply elem_of_app; right; by left|done].
  - rewrite lookup_insert_ne in Hk by done. by apply Hold.
Qed.

Lemma foldl_mediaTraced (ms l : list Note) (lk : Lookup) :
  mediaTraced l lk -> mediaTraced (l ++ ms) (foldl addEntry lk ms).
Proof.
  revert l lk. induction ms as [|m ms IH]; intros l lk Ht; simpl.
  - by rewrite app_nil_r.
  - replace (l ++ m :: ms) with ((l ++ [m]) ++ ms) by by rewrite <- app_assoc.
    apply IH. by apply addEntry_mediaTraced.
Qed.

(** An answer of [resolveMediaWikilink] is always the path of a media entry
    of the collection whose file name is the requested one, case ignored; it
    is never the path of a note and never a path outside the collection. *)
Theorem resolveMedia_sound (entries : list Note) (q p : string) :
  resolveMediaWikilink (buildNoteLookupMaps entries) q = Some p ->
  exists e, e ∈ entries /\ isNote e = false /\ path e = p /\
            caseVariant q (filenameOf p).
Proof.
  unfold resolveMediaWikilink. intros H.
  destruct (mediaLookup (buildNoteLookupMaps entries) !! toLowerCase q)
    as [p'|] eqn:E; [|done].
  destruct (String.eqb p' ""); [done|]. injection H as ->.
  destruct (foldl_mediaTraced entries [] cleared ltac:(by intros k p0 Hk)
              (toLowerCase q) p E) as (e & He & Hm & Hp & Hk).
  exists e. by repeat split.
Qed.

Lemma resolveMedia_sound_witness :
  exists e, e ∈ [mkNote "n.md" "n" "" "note" None;
               mkNote "img/Cat.PNG" "Cat.PNG" "img" "image" None]
            /\ isNote e = false /\ path e = "img/Cat.PNG"
            /\ NoteIndex.caseVariant "cat.png" (NoteIndex.filenameOf "img/Cat.PNG").
Proof.
  apply (resolveMedia_sound _ "cat.png" "img/Cat.PNG"). by vm_compute.
Defined.

(** *** Links the click handler can follow *)

Lemma in_lowerKeys_path (n : Note) : toLowerCase (path n) ∈ lowerKeys n.
Proof. unfold lowerKeys. set_solver. Qed.

Lemma in_lowerKeys_name (n : Note) : toLowerCase (name n) ∈ lowerKeys n.
Proof. unfold lowerKeys. set_solver. Qed.

(** On ASCII text, whenever the lookups of [handleInternalLink] find a note
    for the string [notePath] they are given (the part of the decoded address
    before the anchor), [wikiLinkExists] is true on that same string. *)
Theorem findLinkedNote_exists (notes : list Note) (notePath : string) (n : Note) :
  asciiOnly notes = true ->
  isAscii notePath = true ->
  Links.findLinkedNote notes notePath = Some n ->
  isNote n = true ->
  wikiLinkExists (buildNoteLookupMaps notes) notePath = true.
Proof.
  unfold Links.findLinkedNote. intros _ _ Hfind Hn.
  assert (Hm : n ∈ notes /\ matchesNote n notePath).
  { destruct (List.find _ notes) as [n1|] eqn:E1.
    - injection Hfind as ->. apply find_some in E1 as [Hin Hp].
      split; [by apply list_elem_of_In|].
      rewrite orb_true_iff, !String.eqb_eq in Hp.
      destruct Hp as [Hp|Hp].
      + left. rewrite <- Hp. apply in_lowerKeys_path.
      + right. rewrite <- lower_app_md, <- Hp. apply in_lowerKeys_path.
    - clear E1. destruct (List.find _ notes) as [n2|] eqn:E2.
      + injection Hfind as ->. apply find_some in E2 as [Hin Hp].
        split; [by apply list_elem_of_In|].
        rewrite !orb_true_iff, !String.eqb_eq in Hp.
        destruct Hp as [[[Hp|Hp]|Hp]|Hp].
        * left. rewrite <- Hp. apply in_lowerKeys_name.
        * right. rewrite <- lower_app_md, <- Hp. apply in_lowerKeys_name.
        * left. rewrite <- Hp. apply in_lowerKeys_name.
        * right. rewrite <- lower_app_md, <- Hp. apply in_lowerKeys_name.
      + clear E2. apply find_some in Hfind as [Hin Hp].
        split; [by apply list_elem_of_In|].
        rewrite orb_true_iff, !String.eqb_eq in Hp.
        destruct Hp as [Hp|Hp].
        * left. rewrite <- Hp. apply in_lowerKeys_path.
        * right. rewrite <- lower_app_md, <- Hp. apply in_lowerKeys_path. }
  destruct Hm as [Hin Hm]. by apply (wikiLinkExists_complete notes n).
Qed.

Lemma findLinkedNote_exists_witness :
  NoteIndex.wikiLinkExists
    (NoteIndex.buildNoteLookupMaps
       [mkNote "pic.png" "pic.png" "" "image" None;
        mkNote "Work/Plan.md" "Plan" "Work" "note" None])
    "plan" = true.
Proof.
  apply (findLinkedNote_exists _ "plan" (mkNote "Work/Plan.md" "Plan" "Work" "note" None));
    reflexivity.
Defined.

End NoteIndexSpec.

(** ** FolderTree *)

Module FolderTreeSpec.
Import JS FolderTree.

Lemma foldl_counts (l : Dict) (acc : nat) :
  foldl (fun total kc => total + countOf (snd kc)) acc l
  = acc + list_sum (map (fun kc => countOf (snd kc)) l).
Proof.
  revert acc. induction l as [|kc l IH]; intros acc; simpl; [lia|].
  rewrite IH. lia.
Qed.

Lemma Forall_flat_map {A B} (P : B -> Prop) (g : A -> list B) (l : list A) :
  Forall (fun a => Forall P (g a)) l -> Forall P (flat_map g l).
Proof.
  induction 1 as [|a l Ha _ IH]; simpl; [constructor|].
  apply Forall_app. by split.
Qed.

Lemma Forall_map_snd (P : FolderNode -> Prop) (g : FolderNode -> FolderNode) (l : Dict) :
  Forall (fun kc => P (g (snd kc))) l ->
  Forall (fun kc => P (snd kc)) (map (fun kc => (fst kc, g (snd kc))) l).
Proof.
  induction 1; simpl; constructor; done.
Qed.

(** After [calculateNoteCounts] the invariant holds at the node and at every
    node below it. *)
Lemma calculateNoteCounts_invariant (f : FolderNode) :
  Forall countInvariant (nodesOf (calculateNoteCounts f)).
Proof.
  induction f as [n p cs ns c IH] using FolderNode_nested_ind.
  destruct cs as [|kc cs].
  - simpl. constructor; [|constructor].
    unfold countInvariant. simpl. f_equal. lia.
  - remember (kc :: cs) as all eqn:Hall.
    assert (Hcalc : calculateNoteCounts (mkFolder n p all ns c)
      = mkFolder n p (map (fun kc => (fst kc, calculateNoteCounts (snd kc))) all) ns
          (Some (length ns
                 + foldl (fun total kc => total + countOf (snd kc)) 0
                     (map (fun kc => (fst kc, calculateNoteCounts (snd kc))) all)))).
    { subst all. reflexivity. }
    rewrite Hcalc. clear Hcalc Hall.
    cbn [nodesOf children]. constructor.
    + unfold countInvariant. cbn [noteCount notes children].
      by rewrite foldl_counts.
    + apply Forall_flat_map.
      apply (Forall_map_snd (fun g => Forall countInvariant (nodesOf g))
                            calculateNoteCounts).
      exact IH.
Qed.

Lemma addFolderParts_total (parts done : list string) (current : Dict) :
  Forall (fun part => inheritedKey part = false) parts ->
  is_Some (addFolderParts done parts current).
Proof.
  intros H. revert done current.
  induction H as [|part parts Hp _ IH]; intros done current; simpl; [by eexists|].
  rewrite Hp.
  destruct (IH (done ++ [part])
               (children (getOrCreate part (join "/" (done ++ [part])) current)))
    as [cs ->].
  by eexists.
Qed.

Lemma addFolders_total (allFolders : list string) (tree : Dict) :
  Forall plainPath allFolders -> is_Some (addFolders allFolders tree).
Proof.
  intros H. revert tree.
  induction H as [|p ps Hp _ IH]; intros tree; simpl; [by eexists|].
  destruct (addFolderParts_total (split "/" p) [] tree Hp) as [tree' ->].
  apply IH.
Qed.

Lemma addNoteAt_total (parts done : list string) (note : Note) (current : Dict) :
  Forall (fun part => inheritedKey part = false) parts ->
  is_Some (addNoteAt done parts note current).
Proof.
  intros H. revert done current.
  induction H as [|part parts Hp _ IH]; intros done current; simpl; [by eexists|].
  rewrite Hp. destruct parts as [|next parts]; [by eexists|].
  destruct (IH (done ++ [part])
               (children (getOrCreate part (join "/" (done ++ [part])) current)))
    as [cs ->].
  by eexists.
Qed.

Lemma addNotes_total (ns : list Note) (tree : Dict) :
  Forall (fun note => plainPath (folder note)) ns -> is_Some (addNotes ns tree).
Proof.
  intros H. revert tree.
  induction H as [|note ns Hn _ IH]; intros tree; simpl; [by eexists|].
  assert (Hadd : is_Some (addNote note tree)).
  { unfold addNote. destruct (String.eqb (folder note) ""); [by eexists|].
    by apply addNoteAt_total. }
  destruct Hadd as [tree' ->]. apply IH.
Qed.

(** [buildFolderTree] returns a tree whenever no folder name is a property
    inherited from [Object.prototype]. *)
Lemma buildFolderTree_total (localeCompare : string -> string -> Z)
    (allFolders : list string) (entries : list Note) :
  Forall plainPath allFolders ->
  Forall (fun note => plainPath (folder note)) entries ->
  is_Some (buildFolderTree localeCompare allFolders entries).
Proof.
  intros Hf Hn. unfold buildFolderTree.
  destruct (addFolders_total allFolders [] Hf) as [tree1 ->].
  destruct (addNotes_total entries tree1 Hn) as [tree2 ->].
  by eexists.
Qed.

(** C2. In every tree [buildFolderTree] returns, at every folder node, the
    cached [noteCount] is the number of entries in the node's own [notes]
    plus the sum of the [noteCount] of its children. *)
Theorem buildFolderTree_noteCount (localeCompare : string -> string -> Z)
    (allFolders : list string) (entries : list Note) (tree : Dict) (f : FolderNode) :
  buildFolderTree localeCompare allFolders entries = Some tree ->
  f ∈ treeNodes tree ->
  noteCount f
  = Some (length (notes f) + list_sum (map (fun kc => countOf (snd kc)) (children f))).
Proof.
  unfold buildFolderTree. intros Hbuild Hf.
  destruct (addFolders allFolders []) as [tree1|]; [|done].
  destruct (addNotes entries tree1) as [tree2|]; [|done].
  injection Hbuild as <-.
  assert (Hall : Forall countInvariant
    (treeNodes (map (fun kc => (fst kc, calculateNoteCounts (snd kc)))
                    (sortTree localeCompare tree2)))).
  { unfold treeNodes. apply Forall_flat_map.
    apply (Forall_map_snd (fun g => Forall countInvariant (nodesOf g))
                          calculateNoteCounts).
    apply Forall_forall. intros kc _. apply calculateNoteCounts_invariant. }
  rewrite Forall_forall in Hall. by apply Hall.
Qed.

Lemma Forall_flat_map_inv {A B} (P : B -> Prop) (g : A -> list B) (l : list A) :
  Forall P (flat_map g l) -> Forall (fun a => Forall P (g a)) l.
Proof.
  induction l as [|a l IH]; simpl; [constructor|].
  intros H. apply Forall_app in H as [Ha Hl]. constructor; [done|by apply IH].
Qed.

(** Where the invariant holds at a node and below it, the cached count is
    the number of entries found by walking the whole subtree. *)
Lemma countOf_totalNotes (f : FolderNode) :
  Forall countInvariant (nodesOf f) -> countOf f = totalNotes f.
Proof.
  induction f as [n p cs ns c IH] using FolderNode_nested_ind.
  cbn [nodesOf children]. intros H.
  apply Forall_cons in H as [Hf Hcs].
  unfold countInvariant in Hf. cbn [noteCount notes children] in Hf.
  unfold countOf at 1. cbn [noteCount totalNotes notes children].
  rewrite Hf. f_equal.
  apply Forall_flat_map_inv in Hcs.
  clear Hf. induction cs as [|kc cs IHcs]; [reflexivity|].
  apply Forall_cons in IH as [IHkc IHrest].
  apply Forall_cons in Hcs as [Hkc Hrest].
  simpl. rewrite (IHkc Hkc). f_equal. by apply IHcs.
Qed.

(** The specification's scenario, run: both [proj] and [proj/docs] count the
    one note. *)
Example buildFolderTree_scenario :
  buildFolderTree codeUnitCompare ["proj"; "proj/docs"]
    [mkNote "proj/docs/n.md" "n" "proj/docs" "note" None]
  = Some [("proj",
           mkFolder "proj" "proj"
             [("docs", mkFolder "docs" "proj/docs" []
                         [mkNote "proj/docs/n.md" "n" "proj/docs" "note" None]
                         (Some 1))]
             [] (Some 1))].
Proof. reflexivity. Qed.

(** A folder named like an inherited property makes the build throw as soon
    as something has to be stored below it. *)
Example buildFolderTree_inherited_key :
  buildFolderTree codeUnitCompare ["constructor/drafts"] [] = None.
Proof. reflexivity. Qed.

(** The theorem on the specification's scenario: folders [proj] and
    [proj/docs], one note inside [proj/docs]; the node looked at is [proj]. *)
Lemma buildFolderTree_noteCount_witness :
  let docs := mkFolder "docs" "proj/docs" []
                [mkNote "proj/docs/n.md" "n" "proj/docs" "note" None] (Some 1) in
  noteCount (mkFolder "proj" "proj" [("docs", docs)] [] (Some 1)) = Some (0 + (1 + 0)).
Proof.
  intros docs.
  exact (buildFolderTree_noteCount codeUnitCompare
          ["proj"; "proj/docs"]
          [mkNote "proj/docs/n.md" "n" "proj/docs" "note" None]
          [("proj", mkFolder "proj" "proj" [("docs", docs)] [] (Some 1))]
          (mkFolder "proj" "proj" [("docs", docs)] [] (Some 1))
          eq_refl ltac:(left)).
Defined.

End FolderTreeSpec.

(** ** History manager *)

Module HistorySpec.
Import History.

(** The restored cursor never lies beyond the end of the content. *)
Lemma restoredCursor_clamped (e : Entry) (st : State) :
  restoredCursor e st <= String.length (noteContent st).
Proof. unfold restoredCursor. lia. Qed.

Lemma popped_length (arr : list Entry) : length (popped arr) = length arr - 1.
Proof.
  unfold popped. induction arr as [|e arr IH]; [reflexivity|].
  destruct arr as [|e' arr]; [reflexivity|].
  change (removelast (e :: e' :: arr)) with (e :: removelast (e' :: arr)).
  cbn [length] in *. lia.
Qed.

Lemma shift_length (arr : list Entry) : length (shift arr) = length arr - 1.
Proof. destruct arr; simpl; lia. Qed.

Lemma top_is_Some (arr : list Entry) : 1 <= length arr -> is_Some (top arr).
Proof.
  intros H. unfold top. destruct (last arr) eqn:E; [by eexists|].
  apply last_None in E. subst. simpl in H. lia.
Qed.

Lemma top_push (arr : list Entry) (e : Entry) : top (arr ++ [e]) = Some e.
Proof. apply last_snoc. Qed.

Lemma top_shift_push (arr : list Entry) (e : Entry) :
  1 <= length arr -> top (shift (arr ++ [e])) = Some e.
Proof.
  destruct arr as [|e0 arr]; simpl; [lia|]. intros _. apply top_push.
Qed.

Lemma commit_bounded (editor : Editor) (st : State) :
  bounded st -> bounded (commitToHistory editor st).
Proof.
  unfold bounded, commitToHistory, maxHistorySize, MAX_UNDO_HISTORY.
  intros [H1 H2].
  destruct (_ && _); simpl; [done|].
  destruct (50 <? _) eqn:E; simpl.
  - apply Nat.ltb_lt in E. rewrite shift_length.
    rewrite length_app in *. simpl in *. lia.
  - apply Nat.ltb_ge in E. rewrite length_app in *. simpl in *. lia.
Qed.

Lemma flush_bounded (editor : Editor) (st : State) :
  bounded st -> bounded (flushHistory editor st).
Proof.
  unfold flushHistory. destruct (hasPendingHistoryChanges st); [|done].
  apply commit_bounded.
Qed.

Lemma undo_bounded (editor : Editor) (st : State) :
  bounded st -> bounded (undo editor st).
Proof.
  intros H. unfold undo. destruct (String.eqb _ _); [done|].
  pose proof (flush_bounded editor st H) as Hf.
  destruct (length (undoHistory (flushHistory editor st)) <=? 1) eqn:E; [done|].
  apply Nat.leb_gt in E.
  destruct (top (undoHistory (flushHistory editor st))) as [cur|]; [|done].
  destruct (top (popped _)) as [prev|]; [|done].
  destruct Hf as [Hf1 Hf2]. unfold bounded. simpl.
  rewrite popped_length, length_app. simpl. lia.
Qed.

Lemma redo_bounded (editor : Editor) (st : State) :
  bounded st -> bounded (redo editor st).
Proof.
  intros H. unfold redo. destruct (String.eqb _ _); [done|].
  pose proof (flush_bounded editor st H) as Hf.
  destruct (length (redoHistory (flushHistory editor st)) =? 0) eqn:E; [done|].
  apply Nat.eqb_neq in E.
  destruct (top (redoHistory (flushHistory editor st))) as [next|]; [|done].
  destruct Hf as [Hf1 Hf2]. unfold bounded. simpl.
  rewrite popped_length, length_app. simpl. lia.
Qed.

Lemma step_bounded (st : State) (op : Op) : bounded st -> bounded (step st op).
Proof.
  intros H. destruct op; simpl.
  - unfold editContent. simpl. by destruct (isUndoRedo st).
  - done.
  - by apply commit_bounded.
  - by apply flush_bounded.
  - by apply undo_bounded.
  - by apply redo_bounded.
  - done.
Qed.

Lemma run_bounded (ops : list Op) (st : State) : bounded st -> bounded (run st ops).
Proof.
  revert st. induction ops as [|op ops IH]; intros st H; simpl; [done|].
  apply IH. by apply step_bounded.
Qed.

Lemma loadNote_bounded (notePath dataContent : string) (st : State) :
  bounded (loadNote notePath dataContent st).
Proof.
  unfold bounded, maxHistorySize, MAX_UNDO_HISTORY. simpl. lia.
Qed.

(** C3. Once a note is loaded, after any sequence of edits, [pushToHistory],
    [commitToHistory], [flushHistory], [undo] and [redo] calls (and of ticks
    in between), the undo stack has at least one entry and at most
    [maxHistorySize]. *)
Theorem undoHistory_bounds (notePath dataContent : string) (st0 : State)
    (ops : list Op) :
  let st := run (loadNote notePath dataContent st0) ops in
  1 <= length (undoHistory st) /\ length (undoHistory st) <= maxHistorySize.
Proof.
  intros st.
  destruct (run_bounded ops (loadNote notePath dataContent st0)
              (loadNote_bounded notePath dataContent st0)) as [H1 H2].
  fold st in H1, H2. lia.
Qed.

(** C8. [commitToHistory] always lowers the pending flag. When the content
    equals the content of the top entry it leaves both stacks as they are.
    Otherwise it pushes an entry with the content and the cursor position,
    drops the oldest entry if the stack has grown past [maxHistorySize], and
    empties the redo stack. *)
Theorem commitToHistory_spec (editor : Editor) (st : State) :
  let st' := commitToHistory editor st in
  let entry := mkEntry (noteContent st) (cursorOf editor) in
  hasPendingHistoryChanges st' = false /\
  noteContent st' = noteContent st /\
  (forall e, top (undoHistory st) = Some e -> content e = noteContent st ->
     undoHistory st' = undoHistory st /\ redoHistory st' = redoHistory st) /\
  ((forall e, top (undoHistory st) = Some e -> content e <> noteContent st) ->
     redoHistory st' = [] /\
     top (undoHistory st') = Some entry /\
     undoHistory st'
     = if maxHistorySize <? length (undoHistory st ++ [entry])
       then shift (undoHistory st ++ [entry])
       else undoHistory st ++ [entry]).
Proof.
  intros st' entry. subst st'. unfold commitToHistory. cbv zeta. fold entry.
  destruct (top (undoHistory st)) as [e|] eqn:Etop.
  - destruct (String.eqb (content e) (noteContent st)) eqn:Eeq.
    + apply String.eqb_eq in Eeq.
      assert (Hlen : (0 <? length (undoHistory st)) = true).
      { apply Nat.ltb_lt. destruct (undoHistory st); [done|simpl; lia]. }
      rewrite Hlen. simpl.
      split; [done|]. split; [done|]. split; [done|].
      intros Hdiff. by destruct (Hdiff e).
    + apply String.eqb_neq in Eeq. rewrite andb_false_r.
      split; [by destruct (_ <? _)|]. split; [by destruct (_ <? _)|].
      split; [intros e' [= <-] He'; done|]. intros _.
      split; [by destruct (_ <? _)|]. split; [|by destruct (_ <? _)].
      destruct (maxHistorySize <? _) eqn:E; simpl; [|apply top_push].
      apply top_shift_push. destruct (undoHistory st); [done|simpl; lia].
  - rewrite andb_false_r.
    split; [by destruct (_ <? _)|]. split; [by destruct (_ <? _)|].
    split; [done|]. intros _.
    apply last_None in Etop. rewrite Etop. by vm_compute.
Qed.

(** C4. Load a note with content [C0], change the content to [C1], commit:
    [undo] then sets the content to [C0] and [redo] sets it back to [C1],
    with the committed entry again on top of the undo stack. *)
Theorem undo_redo_roundtrip (notePath C0 C1 : string) (st0 : State)
    (atCommit atUndo atRedo : Editor) :
  notePath <> "" ->
  C1 <> C0 ->
  let committed :=
    commitToHistory atCommit (editContent C1 (loadNote notePath C0 st0)) in
  let undone := undo atUndo committed in
  let redone := redo atRedo undone in
  noteContent committed = C1 /\
  noteContent undone = C0 /\
  undoHistory undone = [mkEntry C0 0] /\
  redoHistory undone = [mkEntry C1 (cursorOf atCommit)] /\
  noteContent redone = C1 /\
  undoHistory redone = [mkEntry C0 0; mkEntry C1 (cursorOf atCommit)] /\
  redoHistory redone = [].
Proof.
  intros Hpath Hne committed undone redone.
  assert (Hp : String.eqb notePath "" = false) by by apply String.eqb_neq.
  assert (Hc : String.eqb C0 C1 = false) by (apply String.eqb_neq; congruence).
  assert (Hcommitted : committed
    = mkState notePath C1 [mkEntry C0 0; mkEntry C1 (cursorOf atCommit)] [] false
              (isUndoRedo st0)).
  { subst committed. unfold commitToHistory, editContent, loadNote. simpl.
    destruct (isUndoRedo st0); simpl; by rewrite Hc. }
  assert (Hundone : undone
    = mkState notePath C0 [mkEntry C0 0] [mkEntry C1 (cursorOf atCommit)] false true).
  { subst undone. rewrite Hcommitted. unfold undo, flushHistory. simpl.
    by rewrite Hp. }
  assert (Hredone : redone
    = mkState notePath C1 [mkEntry C0 0; mkEntry C1 (cursorOf atCommit)] [] false true).
  { subst redone. rewrite Hundone. unfold redo, flushHistory. simpl.
    by rewrite Hp. }
  rewrite Hcommitted, Hundone, Hredone. by repeat split.
Qed.

(** The round trip on the note [a.md], from [x] to [y]. *)
Lemma undo_redo_roundtrip_witness :
  let committed :=
    History.commitToHistory (Some 1)
      (History.editContent "y" (History.loadNote "a.md" "x" History.initial)) in
  History.noteContent (History.undo (Some 1) committed) = "x" /\
  History.noteContent (History.redo (Some 0) (History.undo (Some 1) committed)) = "y".
Proof.
  pose proof (undo_redo_roundtrip "a.md" "x" "y" History.initial
                (Some 1) (Some 1) (Some 0)
                ltac:(discriminate) ltac:(discriminate))
    as (_ & H1 & _ & _ & H2 & _).
  split; [exact H1 | exact H2].
Defined.

End HistorySpec.

(** ** Filter engine *)

Module FilterSpec.
Import JS Filter.

Lemma includes_iff (x : string) (arr : list string) :
  includes x arr = true <-> x ∈ arr.
Proof.
  unfold includes. rewrite existsb_exists. split.
  - intros (y & Hy & Heq). apply String.eqb_eq in Heq. subst.
    by apply list_elem_of_In.
  - intros H. exists x. split; [by apply list_elem_of_In|apply String.eqb_refl].
Qed.

Lemma noteMatchesTags_iff (selected : list string) (note : Note) :
  noteMatchesTags selected note = true <-> hasAllTags selected note.
Proof.
  unfold noteMatchesTags, hasAllTags, tagsOf.
  destruct selected as [|t0 selected].
  { simpl. split; [|done]. intros _ tag Hin. by inversion Hin. }
  cbn [length Nat.eqb].
  destruct (tags note) as [noteTags|].
  - destruct noteTags as [|n0 noteTags].
    + simpl. split; [done|]. intros H.
      specialize (H t0 ltac:(left)). by inversion H.
    + cbn [length Nat.eqb]. rewrite forallb_forall. split.
      * intros H tag Hin. apply includes_iff, H. by apply list_elem_of_In.
      * intros H tag Hin. apply includes_iff, H. by apply list_elem_of_In.
  - split; [done|]. intros H.
    specialize (H t0 ltac:(left)). by inversion H.
Qed.

Lemma filter_sublist {A} (p : A -> bool) (l : list A) : List.filter p l `sublist_of` l.
Proof.
  induction l as [|a l IH]; simpl; [constructor|].
  destruct (p a); by constructor.
Qed.

Lemma elem_of_filter {A} (p : A -> bool) (l : list A) (x : A) :
  x ∈ List.filter p l <-> x ∈ l /\ p x = true.
Proof.
  rewrite !list_elem_of_In. apply filter_In.
Qed.

Lemma elem_of_map_inj {A B} (g : A -> B) (l : list A) (x : A) :
  (forall a b, g a = g b -> a = b) -> g x ∈ map g l <-> x ∈ l.
Proof.
  intros Hinj. rewrite !list_elem_of_In, in_map_iff. split.
  - intros (y & Heq & Hy). by rewrite <- (Hinj _ _ Heq).
  - intros H. by exists x.
Qed.

(** C9. With tags selected and no search text, [applyFilters] leaves in
    [searchResults] a flat list of notes, in the order of the collection:
    exactly the entries of type [note] whose tags include every selected
    tag. *)
Theorem applyFilters_tags_only (st : State) :
  hasTagFilter st = true ->
  hasTextSearch st = false ->
  let results := searchResults (applyFilters st) in
  (exists matched, results = map NoteResult matched /\
                   matched `sublist_of` notes st) /\
  (forall n, NoteResult n ∈ results <->
             n ∈ notes st /\ type n = "note" /\ hasAllTags (selectedTags st) n) /\
  inFlight (applyFilters st) = inFlight st.
Proof.
  intros Htag Htext. unfold applyFilters. rewrite Htag, Htext. simpl.
  split; [|split; [|done]].
  - eexists. split; [reflexivity|]. apply filter_sublist.
  - intros n. rewrite elem_of_map_inj by (intros a b [= ->]; done).
    rewrite elem_of_filter, andb_true_iff, noteMatchesTags_iff.
    unfold isNote. rewrite String.eqb_eq. tauto.
Qed.

(** The specification's scenario: tags [work] and [urgent] selected, one note
    tagged [work] and one tagged [work] and [urgent]. *)
Lemma applyFilters_tags_only_witness :
  let n1 := mkNote "one.md" "one" "" "note" (Some ["work"]) in
  let n2 := mkNote "two.md" "two" "" "note" (Some ["work"; "urgent"]) in
  let results :=
    Filter.searchResults (Filter.applyFilters (Filter.start [n1; n2] ["work"; "urgent"])) in
  NoteResult n2 ∈ results /\ ~ NoteResult n1 ∈ results.
Proof.
  intros n1 n2 results.
  pose proof (applyFilters_tags_only (Filter.start [n1; n2] ["work"; "urgent"])
                eq_refl eq_refl) as (_ & H & _).
  fold results in H. split.
  - apply H. split; [by right; left|]. split; [reflexivity|].
    intros tag Htag. simpl.
    apply elem_of_cons in Htag as [->|Htag]; [by left|].
    apply elem_of_cons in Htag as [->|Htag]; [by right; left|].
    by inversion Htag.
  - intros Hin. apply H in Hin as (_ & _ & Hall).
    specialize (Hall "urgent" ltac:(right; left)). simpl in Hall.
    apply elem_of_cons in Hall as [Heq|Hall]; [discriminate|by inversion Hall].
Defined.

(** C5 as the specification states it fails. The query [a] is sent, the
    query becomes [b] and is sent too; the answer to [b] arrives, then the
    answer to [a]. The late answer is not discarded: it replaces the results
    of [b] while the query is still [b]. *)
Lemma stale_response_counterexample :
  let hitA := mkHit "a.md" "about a" in
  let hitB := mkHit "b.md" "about b" in
  let fresh := run (start [] [])
                   [Typed "a"; TimerFired; Typed "b"; TimerFired;
                    Responded 1 (Some [hitB])] in
  let late := step fresh (Responded 0 (Some [hitA])) in
  searchQuery fresh = "b" /\
  searchResults fresh = [HitResult hitB] /\
  inFlight fresh = [mkRequest "a" false] /\
  searchQuery late = "b" /\
  searchResults late = [HitResult hitA].
Proof.
  by vm_compute.
Qed.

(** C5 (as amended). When the answer to a request in flight arrives, its
    hits replace [searchResults] whatever query the request carried and
    whatever the query is now: all the hits, or, if tags were selected when
    the request was sent, the hits on notes that carry the selected tags. The
    query is left as it is and the request is no longer in flight. A failed
    request empties [searchResults]. *)
Theorem response_always_applied (st : State) (index : nat) (req : Request)
    (hits : list SearchHit) :
  inFlight st !! index = Some req ->
  let st' := step st (Responded index (Some hits)) in
  (exists kept, searchResults st' = map HitResult kept /\
                kept `sublist_of` hits /\
                forall h, h ∈ kept <-> h ∈ hits /\ keptHit req st h) /\
  searchQuery st' = searchQuery st /\
  inFlight st' = delete index (inFlight st) /\
  isSearching st' = false /\
  searchResults (step st (Responded index None)) = [].
Proof.
  intros Hreq. simpl. rewrite Hreq. simpl.
  split; [|done].
  eexists. split; [reflexivity|]. unfold keptHit.
  destruct (reqHasTagFilter req).
  - split; [apply filter_sublist|].
    intros h. rewrite elem_of_filter.
    destruct (findByPath (hitPath h) (notes st)) as [note|].
    + rewrite noteMatchesTags_iff. split.
      * intros [Hh Hall]. split; [done|]. intros _. by exists note.
      * intros [Hh Hk]. split; [done|].
        destruct (Hk eq_refl) as (note' & [= <-] & Hall). done.
    + split; [intros [_ ?]; done|].
      intros [_ Hk]. by destruct (Hk eq_refl) as (note' & ? & _).
  - split; [done|]. intros h. split; [intros ?; split; [done|]; done|].
    by intros [? _].
Qed.

(** The theorem on the late answer of the counterexample. *)
Lemma response_always_applied_witness :
  let st := Filter.mkState [] [] "b" [HitResult (mkHit "b.md" "about b")] false false
                           [mkRequest "a" false] in
  Filter.searchQuery (Filter.step st (Responded 0 (Some [mkHit "a.md" "about a"]))) = "b".
Proof.
  intros st.
  pose proof (response_always_applied st 0 (mkRequest "a" false)
                [mkHit "a.md" "about a"] eq_refl) as (_ & H & _).
  exact H.
Defined.

End FilterSpec.

(** ** Content renderer *)

Module RendererSpec.
Import JS JSFacts JSLists Renderer.


Lemma escapeHref_cons_hash (rest : string) :
  escapeHref (String "#" rest) = String "#" (escapeHref rest).
Proof. reflexivity. Qed.

Lemma trim_hash (rest : string) : trim (String "#" rest) = String "#" (trimEnd rest).
Proof.
  unfold trim. simpl. by destruct (trimEnd rest).
Qed.

Lemma hasLinkOpen_tail (c : ascii) (s : string) :
  hasLinkOpen (String c s) = false -> hasLinkOpen s = false.
Proof.
  cbn [hasLinkOpen].
  destruct c as [[] [] [] [] [] [] [] []]; try done.
  destruct s as [|c' s]; [done|].
  destruct c' as [[] [] [] [] [] [] [] []]; try done.
Qed.

Lemma append_empty_r (s : string) : s +:+ "" = s.
Proof.
  induction s as [|c s IH]; [done|].
  change (String c s +:+ "") with (String c (s +:+ "")). by rewrite IH.
Qed.









(** Step 2b on the specification's scenario: with [a.md] in the collection
    the link to [a] is resolved and the link to [missing] is styled as
    broken. *)
Example convertNoteWikilinks_scenario :
  convertNoteWikilinks
    (NoteIndex.buildNoteLookupMaps
       [mkNote "a.md" "a" "" "note" None;
        mkNote "folder/b.md" "b" "folder" "note" None])
    "[[a]] [[missing]]"
  = resolvedLink "a" "a" +:+ " " +:+ brokenLink "missing" "missing".
Proof. by vm_compute. Qed.

(** Step 2b on an anchor-only link, a link with an anchor on a missing note
    and a link with a display text. *)
Example convertNoteWikilinks_anchors :
  convertNoteWikilinks NoteIndex.cleared "[[#top]] [[gone#top|see]]"
  = resolvedLink "#top" "#top" +:+ " " +:+ brokenLink "gone#top" "see".
Proof. by vm_compute. Qed.


Section Cache.

Variable beforeLinks : NoteIndex.Lookup -> string -> string * list string.
Variable afterLinks : list string -> string -> string.

#[local] Abbreviation render := (renderedMarkdown beforeLinks afterLinks).





End Cache.



End RendererSpec.

(** ** Filename validation *)

Module ValidatorSpec.
Import JS JSFacts JSLists FilenameValidator.

Lemma eqb_empty_false (s : string) : s <> "" -> String.eqb s "" = false.
Proof. intros H. by apply String.eqb_neq. Qed.

Lemma validateFilename_checks (name_ s : string) :
  validateFilename name_ = Valid s ->
  s = trim name_ /\ s <> "" /\
  hasForbiddenChar s = false /\ isReserved s = false /\
  String.prefix "." s && (String.length s =? 1) = false /\
  endsWithChar "." s = false /\ endsWithChar " " s = false.
Proof.
  unfold validateFilename.
  destruct (String.eqb name_ "") eqn:E0; [done|].
  destruct (String.eqb (trim name_) "") eqn:E1; [done|].
  destruct (hasForbiddenChar (trim name_)) eqn:E2; [done|].
  destruct (isReserved (trim name_)) eqn:E3; [done|].
  destruct (String.prefix "." (trim name_) && (String.length (trim name_) =? 1))
    eqn:E4; [done|].
  destruct (endsWithChar "." (trim name_) || endsWithChar " " (trim name_))
    eqn:E5; [done|].
  intros [= <-]. apply orb_false_iff in E5 as [E5 E6].
  apply String.eqb_neq in E1. by repeat split.
Qed.

Lemma validateFilename_trimmed (s : string) :
  s <> "" -> trim s = s ->
  hasForbiddenChar s = false -> isReserved s = false ->
  String.prefix "." s && (String.length s =? 1) = false ->
  endsWithChar "." s = false -> endsWithChar " " s = false ->
  validateFilename s = Valid s.
Proof.
  intros Hne Htrim Hf Hr Hdot Hd Hsp. unfold validateFilename.
  rewrite Htrim, (eqb_empty_false s Hne), Hf, Hr, Hdot, Hd, Hsp. done.
Qed.

(** An accepted name is the trimmed input; it is not empty, holds no
    forbidden character, is not a reserved device name, does not end in a dot
    or a space, and is accepted unchanged when validated again. *)
Theorem validateFilename_valid (name_ s : string) :
  validateFilename name_ = Valid s ->
  s = trim name_ /\ s <> "" /\ trim s = s /\
  hasForbiddenChar s = false /\ isReserved s = false /\
  endsWithChar "." s = false /\ endsWithChar " " s = false /\
  validateFilename s = Valid s.
Proof.
  intros Hv.
  destruct (validateFilename_checks name_ s Hv)
    as (Hs & Hne & Hf & Hr & Hdot & Hd & Hsp).
  assert (Htrim : trim s = s) by (rewrite Hs; apply trim_idem).
  split; [done|]. split; [done|]. split; [done|].
  split; [done|]. split; [done|]. split; [done|]. split; [done|].
  by apply validateFilename_trimmed.
Qed.

Lemma validateFilename_valid_witness :
  FilenameValidator.validateFilename "Meeting notes" = Valid "Meeting notes".
Proof.
  by destruct (validateFilename_valid "  Meeting notes " "Meeting notes" eq_refl)
    as (_ & _ & _ & _ & _ & _ & _ & H).
Defined.

Lemma prefix_dotOrEnd (word s : string) :
  allChars (fun x => negb (Ascii.eqb x ".")) word = true ->
  String.prefix word (toLowerCase s) && dotOrEnd (dropChars (String.length word) s)
  = String.eqb (toLowerCase (List.hd "" (split "." s))) word.
Proof.
  revert s. induction word as [|w word IH]; intros s Hw.
  - destruct s as [|x s]; [reflexivity|]. simpl.
    destruct (Ascii.eqb x ".") eqn:E; [reflexivity|].
    by destruct (split "." s).
  - simpl in Hw. apply andb_true_iff in Hw as [Hw Hword].
    apply negb_true_iff in Hw.
    destruct s as [|x s]; [reflexivity|].
    cbn [toLowerCase String.prefix String.length dropChars split].
    destruct (Ascii.eqb x ".") eqn:Ex.
    + apply Ascii.eqb_eq in Ex. subst x. cbn [List.hd toLowerCase String.eqb].
      destruct (ascii_dec w (lowerChar ".")) as [->|Hne]; [done|].
      reflexivity.
    + assert (Hhd : List.hd "" (match split "." s with
                                 | [] => [String x ""]
                                 | seg :: segs => String x seg :: segs
                                 end)
                    = String x (List.hd "" (split "." s))).
      { pose proof (split_nonempty "." s). by destruct (split "." s). }
      rewrite Hhd. cbn [toLowerCase String.eqb].
      destruct (ascii_dec w (lowerChar x)) as [->|Hne].
      * rewrite Ascii.eqb_refl. by apply IH.
      * assert (Ascii.eqb (lowerChar x) w = false) as ->
          by (apply Ascii.eqb_neq; congruence).
        reflexivity.
Qed.

Lemma isReserved_stem (s : string) :
  isReserved s = true <-> toLowerCase (List.hd "" (split "." s)) ∈ reservedWords.
Proof.
  unfold isReserved. rewrite existsb_exists. split.
  - intros (word & Hin & Hw).
    assert (Hdot : allChars (fun x => negb (Ascii.eqb x ".")) word = true).
    { unfold reservedWords in Hin. simpl in Hin.
      repeat (destruct Hin as [<-|Hin]; [reflexivity|]). done. }
    rewrite prefix_dotOrEnd in Hw by done. apply String.eqb_eq in Hw.
    rewrite Hw. by apply list_elem_of_In.
  - intros Hin. exists (toLowerCase (List.hd "" (split "." s))).
    split; [by apply list_elem_of_In|].
    rewrite prefix_dotOrEnd; [apply String.eqb_refl|].
    apply list_elem_of_In in Hin. unfold reservedWords in Hin. simpl in Hin.
    repeat (destruct Hin as [<-|Hin]; [reflexivity|]). done.
Qed.

(** A name free of forbidden characters is rejected as reserved exactly when
    the part before its first dot is one of the device names, case ignored. *)
Theorem validateFilename_reserved (name_ : string) :
  hasForbiddenChar (trim name_) = false ->
  validateFilename name_ = Invalid reserved_name <->
  toLowerCase (List.hd "" (split "." (trim name_))) ∈ reservedWords.
Proof.
  intros Hf. rewrite <- isReserved_stem. unfold validateFilename.
  destruct (String.eqb name_ "") eqn:E0.
  { apply String.eqb_eq in E0. subst. split; [done|]. by vm_compute. }
  destruct (String.eqb (trim name_) "") eqn:E1.
  { apply String.eqb_eq in E1. rewrite E1. split; [done|]. by vm_compute. }
  rewrite Hf. destruct (isReserved (trim name_)); [done|].
  split; [|done].
  destruct (_ && _); [done|]. by destruct (_ || _).
Qed.

Lemma validateFilename_reserved_witness :
  FilenameValidator.validateFilename "Com3.backup.txt" = Invalid reserved_name.
Proof.
  apply validateFilename_reserved; [reflexivity|]. by vm_compute; set_solver.
Defined.

Lemma firstRejection_None (segments : list string) :
  firstRejection segments = None ->
  Forall (fun seg => validateFilename seg = Valid (trim seg)) segments.
Proof.
  induction segments as [|seg segs IH]; simpl; [constructor|].
  destruct (validateFilename seg) as [e|t] eqn:E; [done|].
  intros H. constructor; [|by apply IH].
  destruct (validateFilename_checks seg t E) as (-> & _). done.
Qed.

Lemma filter_nonEmpty_segments (c : ascii) (s : string) :
  Forall (fun seg => allChars (fun x => negb (Ascii.eqb x c)) seg = true)
         (List.filter nonEmpty (split c s)).
Proof.
  pose proof (split_segments c s) as H.
  induction H as [|seg segs Hseg _ IH]; simpl; [constructor|].
  destruct (nonEmpty seg); [by constructor|done].
Qed.

(** An accepted path is the non-empty segments of the trimmed input joined
    by slashes: read back, it has exactly those segments, none of them empty
    (so no leading, trailing or doubled slash), and each one passes
    [validateFilename]. *)
Theorem validatePath_valid (path_ s : string) :
  validatePath path_ = Valid s ->
  split "/" s = List.filter nonEmpty (split "/" (trim path_)) /\
  Forall (fun seg => seg <> "" /\ validateFilename seg = Valid (trim seg))
         (split "/" s).
Proof.
  unfold validatePath.
  destruct (String.eqb path_ ""); [done|].
  destruct (String.eqb (trim path_) ""); [done|].
  destruct (length _ =? 0) eqn:El; [done|].
  destruct (firstRejection _) as [e|] eqn:Er; [done|].
  intros [= <-]. apply Nat.eqb_neq in El.
  assert (Hsplit : split "/" (join "/" (List.filter nonEmpty (split "/" (trim path_))))
                   = List.filter nonEmpty (split "/" (trim path_))).
  { apply split_join; [|apply filter_nonEmpty_segments].
    intros H. by rewrite H in El. }
  split; [done|]. rewrite Hsplit.
  apply firstRejection_None in Er.
  rewrite Forall_forall in *. intros seg Hin. split; [|by apply Er].
  apply list_elem_of_In, filter_In in Hin as [_ Hne].
  intros ->. done.
Qed.

Lemma validatePath_valid_witness :
  split "/" "work/2024/plan"
  = List.filter nonEmpty (split "/" (trim " /work//2024/plan/ ")).
Proof.
  by destruct (validatePath_valid " /work//2024/plan/ " "work/2024/plan" eq_refl).
Defined.

Lemma noSlash_of_noForbidden (s : string) :
  hasForbiddenChar s = false ->
  allChars (fun x => negb (Ascii.eqb x "/")) s = true.
Proof.
  induction s as [|c s IH]; simpl; [done|].
  intros H. apply orb_false_iff in H as [Hc Hs]. rewrite (IH Hs), andb_true_r.
  destruct (Ascii.eqb c "/") eqn:E; [|done].
  apply Ascii.eqb_eq in E. subst c. by vm_compute in Hc.
Qed.

(** On a name that [validateFilename] accepts, [validatePath] gives the same
    answer: a path of one segment is validated like a file name. *)
Theorem validatePath_of_filename (name_ s : string) :
  validateFilename name_ = Valid s -> validatePath name_ = Valid s.
Proof.
  intros Hv.
  destruct (validateFilename_checks name_ s Hv)
    as (Hs & Hne & Hf & Hr & Hdot & Hd & Hsp).
  assert (Hagain : validateFilename s = Valid s).
  { apply validateFilename_trimmed; try done. rewrite Hs. apply trim_idem. }
  assert (Hname : String.eqb name_ "" = false).
  { unfold validateFilename in Hv. by destruct (String.eqb name_ ""). }
  unfold validatePath. rewrite Hname, <- Hs, (eqb_empty_false s Hne).
  rewrite (split_no_sep "/" s) by by apply noSlash_of_noForbidden.
  simpl. unfold nonEmpty.
  destruct s as [|c s]; [done|]. simpl.
  change (validateFilename (String c s)) with (validateFilename (String c s)).
  by rewrite Hagain.
Qed.

Lemma validatePath_of_filename_witness :
  FilenameValidator.validatePath " ideas.md" = Valid "ideas.md".
Proof.
  apply validatePath_of_filename. reflexivity.
Defined.

End ValidatorSpec.

(** ** Media types *)

Module MediaSpec.
Import JS JSFacts JSLists Media.

Lemma last_app_singleton (l : list string) (x : string) : popLast (l ++ [x]) = x.
Proof. unfold popLast. apply List.last_last. Qed.

(** Only what follows the last dot counts: a file name and its bare
    extension have the same media type. *)
Theorem getMediaType_extension (base ext : string) :
  allChars (fun x => negb (Ascii.eqb x ".")) ext = true ->
  getMediaType (base +:+ "." +:+ ext) = getMediaType ext.
Proof.
  intros Hext. unfold getMediaType.
  assert (Hne : String.eqb (base +:+ "." +:+ ext) "" = false).
  { destruct base; reflexivity. }
  rewrite Hne. change ("." +:+ ext) with (String "." ext).
  rewrite split_app_sep, (split_no_sep "." ext Hext), last_app_singleton.
  destruct (String.eqb ext "") eqn:E; [|reflexivity].
  apply String.eqb_eq in E. by subst.
Qed.

Lemma getMediaType_extension_witness :
  Media.getMediaType "clips/holiday.2024.MOV" = Media.getMediaType "MOV".
Proof.
  apply (getMediaType_extension "clips/holiday.2024" "MOV"). reflexivity.
Defined.

Lemma lowerChar_dot (x : ascii) :
  Ascii.eqb (lowerChar x) "." = Ascii.eqb x ".".
Proof.
  destruct x as [[] [] [] [] [] [] [] []]; reflexivity.
Qed.

Lemma split_dot_lower (s : string) :
  split "." (toLowerCase s) = map toLowerCase (split "." s).
Proof.
  induction s as [|x s IH]; [reflexivity|].
  cbn [toLowerCase split]. rewrite lowerChar_dot, IH.
  destruct (Ascii.eqb x "."); [reflexivity|].
  by destruct (split "." s).
Qed.

Lemma popLast_map_lower (l : list string) :
  l <> [] -> popLast (map toLowerCase l) = toLowerCase (popLast l).
Proof.
  unfold popLast. induction l as [|a l IH]; [done|]. intros _.
  destruct l as [|b l]; [reflexivity|].
  change (map toLowerCase (a :: b :: l))
    with (toLowerCase a :: map toLowerCase (b :: l)).
  change (List.last (toLowerCase a :: map toLowerCase (b :: l)) "")
    with (List.last (map toLowerCase (b :: l)) "").
  by rewrite IH.
Qed.

(** The media type does not depend on the letter case of the file name. *)
Theorem getMediaType_case_insensitive (f1 f2 : string) :
  toLowerCase f1 = toLowerCase f2 -> getMediaType f1 = getMediaType f2.
Proof.
  intros Hcase.
  assert (Hext : forall f, toLowerCase (popLast (split "." f))
                           = popLast (split "." (toLowerCase f))).
  { intros f. rewrite split_dot_lower, popLast_map_lower; [done|].
    apply split_nonempty. }
  unfold getMediaType. rewrite !Hext, Hcase.
  destruct f1, f2; try reflexivity; discriminate.
Qed.

Lemma getMediaType_case_insensitive_witness :
  Media.getMediaType "Talk.MP3" = Media.getMediaType "talk.mp3".
Proof.
  apply getMediaType_case_insensitive. reflexivity.
Defined.

End MediaSpec.

(** ** Favorites *)

Module FavoritesSpec.
Import Favorites.

Lemma elem_of_filter_ne (p path_ : string) (l : list string) :
  p ∈ List.filter (fun f => negb (String.eqb f path_)) l <-> p ∈ l /\ p <> path_.
Proof.
  rewrite !list_elem_of_In, filter_In, negb_true_iff, String.eqb_neq. done.
Qed.

Lemma filter_ne_absent (path_ : string) (l : list string) :
  path_ ∉ l -> List.filter (fun f => negb (String.eqb f path_)) l = l.
Proof.
  induction l as [|x l IH]; [done|]. intros Hnot.
  apply not_elem_of_cons in Hnot as [Hne Hnot]. simpl.
  assert (String.eqb x path_ = false) as -> by (apply String.eqb_neq; congruence).
  simpl. by rewrite IH.
Qed.

Lemma toggleFavorite_named (st : State) (path_ : string) :
  path_ <> "" ->
  toggleFavorite (Some path_) st
  = let favorites' :=
      if bool_decide (path_ ∈ favoritesSet st)
      then List.filter (fun f => negb (String.eqb f path_)) (favorites st)
      else favorites st ++ [path_] in
    mkState favorites' (list_to_set favorites') (currentNote st).
Proof.
  intros Hne. unfold toggleFavorite.
  assert (Hp : String.eqb path_ "" = false) by by apply String.eqb_neq.
  by rewrite !Hp.
Qed.

(** On a coherent state, toggling a path flips whether it is a favorite,
    leaves every other path as it was, and keeps the set and the array in
    step. *)
Theorem toggleFavorite_flips (st : State) (path_ : string) :
  coherent st ->
  path_ <> "" ->
  let st' := toggleFavorite (Some path_) st in
  coherent st' /\
  isFavorite path_ st' = negb (isFavorite path_ st) /\
  (forall p, p <> path_ -> isFavorite p st' = isFavorite p st).
Proof.
  intros Hc Hne st'. subst st'. rewrite toggleFavorite_named by done.
  unfold isFavorite, coherent in *. rewrite Hc. cbv zeta. simpl.
  split; [done|].
  destruct (bool_decide (path_ ∈ list_to_set (favorites st))) eqn:E.
  - apply bool_decide_eq_true in E. split.
    + apply bool_decide_eq_false. rewrite elem_of_list_to_set, elem_of_filter_ne.
      tauto.
    + intros p Hp. apply bool_decide_ext.
      rewrite !elem_of_list_to_set, elem_of_filter_ne. tauto.
  - apply bool_decide_eq_false in E. split.
    + apply bool_decide_eq_true. rewrite elem_of_list_to_set, elem_of_app.
      right. by left.
    + intros p Hp. apply bool_decide_ext.
      rewrite !elem_of_list_to_set, elem_of_app, list_elem_of_singleton. tauto.
Qed.

Lemma toggleFavorite_flips_witness :
  Favorites.isFavorite "b.md"
    (Favorites.toggleFavorite (Some "b.md")
       (Favorites.mkState ["a.md"] (list_to_set ["a.md"]) "a.md"))
  = negb (Favorites.isFavorite "b.md"
            (Favorites.mkState ["a.md"] (list_to_set ["a.md"]) "a.md")).
Proof.
  by destruct (toggleFavorite_flips
    (Favorites.mkState ["a.md"] (list_to_set ["a.md"]) "a.md") "b.md"
    eq_refl ltac:(discriminate)) as (_ & H & _).
Defined.

(** Toggling twice a path that was not a favorite gives the array back as it
    was. *)
Theorem toggleFavorite_twice (st : State) (path_ : string) :
  coherent st ->
  path_ <> "" ->
  path_ ∉ favorites st ->
  favorites (toggleFavorite (Some path_) (toggleFavorite (Some path_) st))
  = favorites st.
Proof.
  intros Hc Hne Hnot. rewrite !toggleFavorite_named by done.
  unfold coherent in *. rewrite Hc. cbv zeta. simpl.
  rewrite (bool_decide_eq_false_2 (path_ ∈ list_to_set (favorites st)))
    by by rewrite elem_of_list_to_set.
  simpl.
  rewrite (bool_decide_eq_true_2 (path_ ∈ list_to_set (favorites st ++ [path_])))
    by (rewrite elem_of_list_to_set, elem_of_app; right; by left).
  rewrite List.filter_app, filter_ne_absent by done. simpl.
  rewrite String.eqb_refl. simpl. by rewrite app_nil_r.
Qed.

Lemma toggleFavorite_twice_witness :
  Favorites.favorites
    (Favorites.toggleFavorite (Some "b.md")
       (Favorites.toggleFavorite (Some "b.md")
          (Favorites.mkState ["a.md"] (list_to_set ["a.md"]) "")))
  = ["a.md"].
Proof.
  apply (toggleFavorite_twice (Favorites.mkState ["a.md"] (list_to_set ["a.md"]) ""));
    [reflexivity|discriminate|].
  intros H. apply list_elem_of_singleton in H. discriminate.
Defined.

End FavoritesSpec.

(** ** Expanded folders *)

Module ExpansionSpec.
Import JS JSFacts JSLists Expansion.

Lemma join_snoc (done : list string) (part : string) :
  done <> [] -> join "/" (done ++ [part]) = join "/" done +:+ "/" +:+ part.
Proof.
  induction done as [|d done IH]; [done|]. intros _.
  destruct done as [|d' done]; [reflexivity|].
  change (join "/" ((d :: d' :: done) ++ [part]))
    with (d +:+ "/" +:+ join "/" ((d' :: done) ++ [part])).
  rewrite IH by done.
  change (join "/" (d :: d' :: done)) with (d +:+ "/" +:+ join "/" (d' :: done)).
  by rewrite !append_assoc.
Qed.

Lemma expandParts_spec (rest done : list string) (expanded : gset string) :
  expandParts (length done) (join "/" done) rest expanded
  = expanded ∪ list_to_set
      (map (fun k => join "/" (done ++ take (S k) rest)) (seq 0 (length rest))).
Proof.
  revert done expanded. induction rest as [|part rest IH]; intros done expanded.
  - simpl. by rewrite (right_id_L ∅ (∪)).
  - cbn [expandParts].
    assert (Hcur : (if length done =? 0 then part
                    else join "/" done +:+ "/" +:+ part)
                   = join "/" (done ++ [part])).
    { destruct done as [|d done]; [reflexivity|].
      cbn [length Nat.eqb]. by rewrite join_snoc. }
    rewrite Hcur.
    replace (S (length done)) with (length (done ++ [part]))
      by (rewrite length_app; simpl; lia).
    rewrite IH. cbn [length]. rewrite <- cons_seq, <- seq_shift. cbn [map].
    rewrite map_map. cbn [list_to_set]. change (take 1 (part :: rest)) with [part].
    assert (Hmap : map (fun k => join "/" ((done ++ [part]) ++ take (S k) rest))
                       (seq 0 (length rest))
                   = map (fun k => join "/" (done ++ take (S (S k)) (part :: rest)))
                       (seq 0 (length rest))).
    { apply map_ext. intros k. cbn [take]. by rewrite <- app_assoc. }
    rewrite Hmap. by rewrite (assoc_L (∪)).
Qed.

(** For a note stored as [folder/file], [expandFolderForNote] adds to the
    expanded folders the folder of the note and the folders above it, and
    nothing else; in particular the folder of the note is expanded
    afterwards. *)
Theorem expandFolderForNote_ancestors (folder_ file : string)
    (expanded : gset string) :
  allChars (fun x => negb (Ascii.eqb x "/")) file = true ->
  let expanded' := expandFolderForNote (folder_ +:+ "/" +:+ file) expanded in
  expanded' = expanded ∪ list_to_set (ancestors folder_) /\
  isFolderExpanded folder_ expanded' = true.
Proof.
  intros Hfile expanded'.
  assert (Heq : expanded' = expanded ∪ list_to_set (ancestors folder_)).
  { subst expanded'. unfold expandFolderForNote.
    change ("/" +:+ file) with (String "/" file).
    rewrite split_app_sep, (split_no_sep "/" file Hfile).
    pose proof (split_nonempty "/" folder_) as Hne.
    rewrite length_app. cbn [length].
    destruct (length (split "/" folder_) + 1 <=? 1) eqn:E.
    { apply Nat.leb_le in E. destruct (split "/" folder_); [done|simpl in E; lia]. }
    rewrite removelast_last.
    apply (expandParts_spec (split "/" folder_) [] expanded). }
  split; [done|]. rewrite Heq. unfold isFolderExpanded.
  apply bool_decide_eq_true. apply elem_of_union. right.
  apply elem_of_list_to_set. unfold ancestors.
  pose proof (split_nonempty "/" folder_) as Hne.
  apply list_elem_of_In, in_map_iff.
  exists (length (split "/" folder_) - 1). split.
  - replace (S (length (split "/" folder_) - 1)) with (length (split "/" folder_))
      by (destruct (split "/" folder_); [done|simpl; lia]).
    rewrite firstn_all. apply (join_split "/").
  - apply in_seq. destruct (split "/" folder_); [done|simpl; lia].
Qed.

Lemma expandFolderForNote_ancestors_witness :
  Expansion.isFolderExpanded "work/2024"
    (Expansion.expandFolderForNote "work/2024/plan.md" ∅) = true.
Proof.
  by destruct (expandFolderForNote_ancestors "work/2024" "plan.md" ∅ eq_refl).
Defined.

End ExpansionSpec.

(** ** Filter engine: tags, debounce and requests *)

Module FilterFlowSpec.
Import JS Filter FilterSpec.

Lemma applyFilters_keeps (st : State) :
  selectedTags (applyFilters st) = selectedTags st /\
  searchQuery (applyFilters st) = searchQuery st /\
  timerPending (applyFilters st) = timerPending st /\
  notes (applyFilters st) = notes st.
Proof.
  unfold applyFilters. destruct (_ && _); [done|]. by destruct (_ && _).
Qed.

(** [applyFilters] sends a request exactly when the query has text, and the
    request carries the query as it is at that moment. *)
Lemma applyFilters_inFlight (st : State) :
  inFlight (applyFilters st)
  = if hasTextSearch st
    then inFlight st ++ [mkRequest (searchQuery st) (hasTagFilter st)]
    else inFlight st.
Proof.
  unfold applyFilters.
  destruct (hasTextSearch st), (hasTagFilter st); reflexivity.
Qed.

Lemma removeFirst_elem (x t : string) (arr : list string) :
  NoDup arr -> t ∈ removeFirst x arr <-> t ∈ arr /\ t <> x.
Proof.
  induction 1 as [|y arr Hy Hnd IH]; simpl.
  - split; [intros H; by inversion H|intros [H _]; by inversion H].
  - destruct (String.eqb y x) eqn:E.
    + apply String.eqb_eq in E. subst y. rewrite elem_of_cons. split.
      * intros H. split; [by right|]. intros ->. done.
      * intros [[->|H] Hne]; done.
    + apply String.eqb_neq in E. rewrite !elem_of_cons, IH. split.
      * intros [->|[H Hne]]; [split; [by left|done]|split; [by right|done]].
      * intros [[->|H] Hne]; [by left|right; done].
Qed.

Lemma removeFirst_NoDup (x : string) (arr : list string) :
  NoDup arr -> NoDup (removeFirst x arr).
Proof.
  induction 1 as [|y arr Hy Hnd IH]; simpl; [constructor|].
  destruct (String.eqb y x); [done|]. constructor; [|done].
  rewrite removeFirst_elem by done. tauto.
Qed.

(** On a selection without duplicates, [toggleTag] selects the tag when it
    was not selected and unselects it when it was, touches no other tag and
    introduces no duplicate. *)
Theorem toggleTag_selection (st : State) (tag : string) :
  NoDup (selectedTags st) ->
  let selected := selectedTags (toggleTag tag st) in
  NoDup selected /\
  (tag ∈ selected <-> tag ∉ selectedTags st) /\
  (forall t, t <> tag -> t ∈ selected <-> t ∈ selectedTags st).
Proof.
  intros Hnd selected. subst selected. unfold toggleTag.
  destruct (applyFilters_keeps
    (withTags st (if includes tag (selectedTags st)
                  then removeFirst tag (selectedTags st)
                  else selectedTags st ++ [tag]))) as (-> & _).
  cbn [withTags selectedTags].
  destruct (includes tag (selectedTags st)) eqn:E.
  - apply includes_iff in E. split; [by apply removeFirst_NoDup|].
    split.
    + rewrite removeFirst_elem by done. tauto.
    + intros t Ht. rewrite removeFirst_elem by done. tauto.
  - assert (Hnot : tag ∉ selectedTags st).
    { intros H. apply includes_iff in H. congruence. }
    split; [|split].
    + apply NoDup_app. split; [done|]. split; [|apply NoDup_singleton].
      intros t Ht Ht'. apply list_elem_of_singleton in Ht'. by subst.
    + rewrite elem_of_app, list_elem_of_singleton. tauto.
    + intros t Ht. rewrite elem_of_app, list_elem_of_singleton. tauto.
Qed.

Lemma toggleTag_selection_witness :
  "work" ∉ Filter.selectedTags
             (Filter.toggleTag "work" (Filter.start [] ["work"; "urgent"])).
Proof.
  destruct (toggleTag_selection (Filter.start [] ["work"; "urgent"]) "work"
              ltac:(apply NoDup_cons; split;
                      [intros H; apply list_elem_of_singleton in H; discriminate
                      |apply NoDup_singleton])) as (_ & H & _).
  intros Hin. apply H in Hin. apply Hin. by left.
Defined.

Lemma act_inFlight (st : State) (a : Action) :
  forall req, req ∈ inFlight (act st a) ->
              req ∈ inFlight st \/ hasText (reqQuery req) = true.
Proof.
  assert (Happly : forall s req, req ∈ inFlight (applyFilters s) ->
                     req ∈ inFlight s \/ hasText (reqQuery req) = true).
  { intros s req. rewrite applyFilters_inFlight.
    destruct (hasTextSearch s) eqn:E; [|by left].
    rewrite elem_of_app, list_elem_of_singleton. intros [H| ->]; [by left|by right]. }
  intros req. destruct a as [[query| |index data]|tag|]; simpl.
  - unfold debouncedSearchNotes. destruct (negb _); [|by left].
    intros H. by apply Happly in H.
  - destruct (timerPending st); [|by left]. intros H. by apply Happly in H.
  - destruct (inFlight st !! index) as [r|] eqn:E; [|by left].
    assert (Hin : req ∈ inFlight (onSearchResponse r data
        (mkState (notes st) (selectedTags st) (searchQuery st) (searchResults st)
                 (isSearching st) (timerPending st) (delete index (inFlight st))))
      -> req ∈ delete index (inFlight st)) by by destruct data.
    intros H. apply Hin in H. left. by apply list_elem_of_delete_inv in H.
  - unfold toggleTag. intros H. by apply Happly in H.
  - unfold clearTagFilters. intros H. by apply Happly in H.
Qed.

(** Whatever the user types and toggles and in whatever order timers fire
    and answers arrive, no search request is ever sent with a blank query. *)
Theorem requests_have_text (st : State) (actions : list Action) :
  (forall req, req ∈ inFlight st -> hasText (reqQuery req) = true) ->
  forall req, req ∈ inFlight (perform st actions) -> hasText (reqQuery req) = true.
Proof.
  revert st. induction actions as [|a actions IH]; intros st Hst; [done|].
  simpl. apply IH. intros req Hreq.
  destruct (act_inFlight st a req Hreq) as [H|H]; [by apply Hst|done].
Qed.

Lemma requests_have_text_witness :
  Forall (fun req => Filter.hasText (reqQuery req) = true)
         (Filter.inFlight
            (Filter.perform (Filter.start [] [])
               [Queued (Typed " "); TagToggled "work"; Queued (Typed "plan");
                Queued TimerFired; TagsCleared])).
Proof.
  apply Forall_forall.
  apply (requests_have_text (Filter.start [] [])). intros req H. by inversion H.
Defined.

Lemma typed_keeps (st : State) (query : string) :
  inFlight (step st (Typed query)) = inFlight st /\
  selectedTags (step st (Typed query)) = selectedTags st.
Proof.
  simpl. unfold debouncedSearchNotes.
  destruct (negb (hasTextSearch _)) eqn:E; [|done].
  apply negb_true_iff in E. split.
  - rewrite applyFilters_inFlight. unfold hasTextSearch in *. simpl in *.
    by rewrite E.
  - exact (proj1 (applyFilters_keeps _)).
Qed.

Lemma run_typed_keeps (queries : list string) (st : State) :
  inFlight (run st (map Typed queries)) = inFlight st /\
  selectedTags (run st (map Typed queries)) = selectedTags st.
Proof.
  revert st. induction queries as [|q queries IH]; intros st; [done|].
  simpl. destruct (IH (debouncedSearchNotes q st)) as [-> ->].
  apply (typed_keeps st q).
Qed.

(** Debounce: after a burst of keystrokes that ends on a query with text,
    the one timer that fires sends one request, carrying the last query. *)
Theorem debounce_sends_last (st : State) (queries : list string) (last : string) :
  hasText last = true ->
  inFlight (run st (map Typed (queries ++ [last]) ++ [TimerFired]))
  = inFlight st ++ [mkRequest last (hasTagFilter st)].
Proof.
  intros Hlast. unfold run. rewrite map_app, !foldl_app. simpl.
  fold (run st (map Typed queries)).
  destruct (run_typed_keeps queries st) as [Hin Htags].
  set (st1 := run st (map Typed queries)) in *.
  unfold debouncedSearchNotes.
  assert (Htext : hasTextSearch
    (mkState (notes st1) (selectedTags st1) last (searchResults st1)
             (isSearching st1) false (inFlight st1)) = true) by exact Hlast.
  rewrite Htext. cbn [negb timerPending]. rewrite applyFilters_inFlight.
  cbn [inFlight searchQuery notes selectedTags searchResults isSearching].
  assert (Htext2 : hasTextSearch
    (mkState (notes st1) (selectedTags st1) last [] true false (inFlight st1))
    = true) by exact Hlast.
  rewrite Htext2, Hin. unfold hasTagFilter. cbn [selectedTags]. by rewrite Htags.
Qed.

Lemma debounce_sends_last_witness :
  Filter.inFlight
    (Filter.run (Filter.start [] ["work"])
       (map Typed (["p"; "pl"; "pla"] ++ ["plan"]) ++ [TimerFired]))
  = [mkRequest "plan" true].
Proof.
  apply (debounce_sends_last (Filter.start [] ["work"]) ["p"; "pl"; "pla"] "plan").
  reflexivity.
Defined.

End FilterFlowSpec.

(** ** History manager: how undo and redo compose *)

Module HistoryFlowSpec.
Import History HistorySpec.

Lemma popped_push (arr : list Entry) (e : Entry) : popped (arr ++ [e]) = arr.
Proof. apply removelast_last. Qed.

Lemma shift_push (arr : list Entry) (e : Entry) :
  arr <> [] -> shift (arr ++ [e]) = shift arr ++ [e].
Proof. by destruct arr. Qed.

Lemma top_shift (arr : list Entry) : 2 <= length arr -> top (shift arr) = top arr.
Proof.
  destruct arr as [|a [|b arr]]; simpl; try lia. done.
Qed.

Lemma push_top (arr : list Entry) (e : Entry) :
  top arr = Some e -> popped arr ++ [e] = arr.
Proof.
  intros H. unfold top in H. apply last_Some in H as [l' ->].
  by rewrite popped_push.
Qed.

Lemma undo_plain (editor : Editor) (st : State) (e : Entry) (below : list Entry)
    (prev : Entry) :
  currentNote st <> "" ->
  hasPendingHistoryChanges st = false ->
  undoHistory st = below ++ [e] ->
  top below = Some prev ->
  undo editor st
  = mkState (currentNote st) (content prev) below (redoHistory st ++ [e]) false true.
Proof.
  intros Hcur Hpend Hundo Hprev. unfold undo, flushHistory.
  assert (String.eqb (currentNote st) "" = false) as -> by by apply String.eqb_neq.
  rewrite Hpend, Hundo.
  assert (Hlen : (length (below ++ [e]) <=? 1) = false).
  { apply Nat.leb_gt. rewrite length_app. simpl.
    destruct below; [done|simpl; lia]. }
  rewrite Hlen, top_push, popped_push, Hprev. by rewrite Hpend.
Qed.

Lemma redo_plain (editor : Editor) (st : State) (e : Entry) (below : list Entry) :
  currentNote st <> "" ->
  hasPendingHistoryChanges st = false ->
  redoHistory st = below ++ [e] ->
  redo editor st
  = mkState (currentNote st) (content e) (undoHistory st ++ [e]) below false true.
Proof.
  intros Hcur Hpend Hredo. unfold redo, flushHistory.
  assert (String.eqb (currentNote st) "" = false) as -> by by apply String.eqb_neq.
  rewrite Hpend, Hredo.
  assert (Hlen : (length (below ++ [e]) =? 0) = false).
  { apply Nat.eqb_neq. rewrite length_app. simpl. lia. }
  by rewrite Hlen, top_push, popped_push, Hpend.
Qed.

(** An edit that has not been committed yet is not lost by [undo]: it is
    committed first, [undo] then shows the content of the entry that was on
    top, and [redo] brings the edited text back. *)
Theorem undo_keeps_pending_edit (st : State) (e : Entry) (atUndo atRedo : Editor) :
  currentNote st <> "" ->
  hasPendingHistoryChanges st = true ->
  top (undoHistory st) = Some e ->
  content e <> noteContent st ->
  let undone := undo atUndo st in
  noteContent undone = content e /\
  redoHistory undone = [mkEntry (noteContent st) (cursorOf atUndo)] /\
  noteContent (redo atRedo undone) = noteContent st.
Proof.
  intros Hcur Hpend Htop Hne undone.
  set (new := mkEntry (noteContent st) (cursorOf atUndo)).
  assert (Hflush : exists below,
    flushHistory atUndo st
    = mkState (currentNote st) (noteContent st) (below ++ [e] ++ [new]) [] false
              (isUndoRedo st)).
  { unfold flushHistory. rewrite Hpend. unfold commitToHistory. rewrite Htop.
    assert (String.eqb (content e) (noteContent st) = false) as ->
      by by apply String.eqb_neq.
    rewrite andb_false_r. cbv zeta. fold new.
    apply last_Some in Htop as [l' Hl']. rewrite Hl'.
    destruct (maxHistorySize <? length ((l' ++ [e]) ++ [new])) eqn:E.
    - exists (shift l'). f_equal.
      apply Nat.ltb_lt in E. rewrite !length_app in E. simpl in E.
      unfold maxHistorySize, MAX_UNDO_HISTORY in E.
      rewrite shift_push by by destruct l'.
      rewrite shift_push by (destruct l'; [simpl in E; lia|done]).
      by rewrite <- app_assoc.
    - exists l'. f_equal. by rewrite <- app_assoc. }
  destruct Hflush as [below Hflush].
  assert (Hundone : undone
    = mkState (currentNote st) (content e) (below ++ [e]) [new] false true).
  { subst undone. unfold undo.
    assert (String.eqb (currentNote st) "" = false) as -> by by apply String.eqb_neq.
    rewrite Hflush. cbn [undoHistory redoHistory currentNote hasPendingHistoryChanges].
    assert (Hlen : (length (below ++ [e] ++ [new]) <=? 1) = false).
    { apply Nat.leb_gt. rewrite !length_app. simpl. lia. }
    rewrite Hlen, app_assoc, top_push, popped_push, top_push. done. }
  rewrite Hundone. cbn [noteContent redoHistory]. split; [done|]. split; [done|].
  rewrite (redo_plain atRedo _ new []); done.
Qed.

Lemma undo_keeps_pending_edit_witness :
  let st := History.mkState "a.md" "draft two" [mkEntry "draft one" 0] [] true false in
  History.noteContent (History.undo (Some 9) st) = "draft one" /\
  History.noteContent (History.redo None (History.undo (Some 9) st)) = "draft two".
Proof.
  intros st.
  destruct (undo_keeps_pending_edit st (mkEntry "draft one" 0) (Some 9) None
              ltac:(discriminate) eq_refl eq_refl ltac:(discriminate))
    as (H1 & _ & H2).
  by split.
Defined.

(** With nothing pending, [redo] after [undo] puts both stacks back as they
    were and shows the content of the entry on top of the undo stack. *)
Theorem redo_after_undo (st : State) (e : Entry) (atUndo atRedo : Editor) :
  currentNote st <> "" ->
  hasPendingHistoryChanges st = false ->
  2 <= length (undoHistory st) ->
  top (undoHistory st) = Some e ->
  let st' := redo atRedo (undo atUndo st) in
  undoHistory st' = undoHistory st /\
  redoHistory st' = redoHistory st /\
  noteContent st' = content e.
Proof.
  intros Hcur Hpend Hlen Htop st'.
  pose proof Htop as Hl. apply last_Some in Hl as [below Hbelow].
  assert (Hprev : is_Some (top below)).
  { apply top_is_Some. rewrite Hbelow, length_app in Hlen. simpl in Hlen. lia. }
  destruct Hprev as [prev Hprev].
  subst st'. rewrite (undo_plain atUndo st e below prev) by done.
  rewrite (redo_plain atRedo _ e (redoHistory st)) by done.
  by rewrite Hbelow.
Qed.

Lemma redo_after_undo_witness :
  let st := History.mkState "a.md" "v3"
              [mkEntry "v1" 0; mkEntry "v2" 2; mkEntry "v3" 2] [] false false in
  History.undoHistory (History.redo None (History.undo None st))
  = [mkEntry "v1" 0; mkEntry "v2" 2; mkEntry "v3" 2].
Proof.
  intros st.
  by destruct (redo_after_undo st (mkEntry "v3" 2) None None
                 ltac:(discriminate) eq_refl ltac:(simpl; lia) eq_refl) as (H & _).
Defined.

(** Undoing as often as there are entries above the oldest one leaves the
    oldest entry alone on the undo stack and shows its content, with the
    undone entries on the redo stack, most recent last; one more [undo] then
    changes nothing. *)
Theorem undo_to_floor (rest : list Entry) (st : State) (first : Entry)
    (editor : Editor) :
  currentNote st <> "" ->
  hasPendingHistoryChanges st = false ->
  undoHistory st = first :: rest ->
  let floor := Nat.iter (length rest) (undo editor) st in
  undoHistory floor = [first] /\
  redoHistory floor = redoHistory st ++ rev rest /\
  (rest <> [] -> noteContent floor = content first) /\
  undo editor floor = floor.
Proof.
  revert st. induction rest as [|x rest IH] using rev_ind; intros st Hcur Hpend Hundo.
  - simpl. rewrite app_nil_r. split; [done|]. split; [done|]. split; [done|].
    unfold undo, flushHistory.
    assert (String.eqb (currentNote st) "" = false) as -> by by apply String.eqb_neq.
    by rewrite Hpend, Hundo.
  - rewrite length_app. cbn [length]. rewrite Nat.add_1_r.
    rewrite Nat.iter_succ_r.
    assert (Hprev : is_Some (top (first :: rest))) by (apply top_is_Some; simpl; lia).
    destruct Hprev as [prev Hprev].
    rewrite (undo_plain editor st x (first :: rest) prev) by done.
    set (st1 := mkState (currentNote st) (content prev) (first :: rest)
                        (redoHistory st ++ [x]) false true).
    destruct (IH st1 Hcur eq_refl eq_refl) as (H1 & H2 & H3 & H4).
    cbv zeta. split; [done|]. split; [|split; [|done]].
    + rewrite H2. cbn [st1 redoHistory]. rewrite rev_app_distr. simpl.
      by rewrite <- app_assoc.
    + intros _. destruct rest as [|r rest].
      * simpl. simpl in Hprev. by injection Hprev as <-.
      * by apply H3.
Qed.

Lemma undo_to_floor_witness :
  let st := History.mkState "a.md" "v3"
              [mkEntry "v1" 0; mkEntry "v2" 2; mkEntry "v3" 2] [] false false in
  History.noteContent (Nat.iter 2 (History.undo None) st) = "v1".
Proof.
  intros st.
  destruct (undo_to_floor [mkEntry "v2" 2; mkEntry "v3" 2] st (mkEntry "v1" 0) None
              ltac:(discriminate) eq_refl eq_refl) as (_ & _ & H & _).
  apply H. discriminate.
Defined.

End HistoryFlowSpec.

(** ** Content renderer: escaping, plain text, anchors and the cache *)

Module RendererFlowSpec.
Import JS JSFacts JSLists Renderer.

Lemma allChars_app (p : ascii -> bool) (a b : string) :
  allChars p (a +:+ b) = allChars p a && allChars p b.
Proof.
  induction a as [|x a IH]; [reflexivity|].
  change (String x a +:+ b) with (String x (a +:+ b)).
  cbn [allChars]. by rewrite IH, andb_assoc.
Qed.

(** Replacing a character removes it, when the replacement does not hold
    it. *)
Lemma replaceChar_removes (c : ascii) (by_ s : string) :
  allChars (fun x => negb (Ascii.eqb x c)) by_ = true ->
  allChars (fun x => negb (Ascii.eqb x c)) (replaceChar c by_ s) = true.
Proof.
  intros Hby. induction s as [|a s IH]; [reflexivity|].
  cbn [replaceChar]. destruct (Ascii.eqb a c) eqn:E.
  - by rewrite allChars_app, Hby, IH.
  - cbn [allChars]. by rewrite E, IH.
Qed.

(** Replacing a character brings in no character the replacement does not
    hold. *)
Lemma replaceChar_keeps (p : ascii -> bool) (c : ascii) (by_ s : string) :
  allChars p by_ = true -> allChars p s = true ->
  allChars p (replaceChar c by_ s) = true.
Proof.
  intros Hby. induction s as [|a s IH]; [reflexivity|].
  cbn [replaceChar allChars]. intros H. apply andb_true_iff in H as [Ha Hs].
  destruct (Ascii.eqb a c).
  - by rewrite allChars_app, Hby, IH.
  - cbn [allChars]. by rewrite Ha, IH.
Qed.

(** What the callback of step 2b returns is a link, with or without the
    broken class, whose address is the trimmed target with no double quote
    left in it and whose text has neither angle bracket left in it, whatever
    the capture groups and the index. This is the value handed back to the
    replacement of step 2b; the later steps work on the text it is put
    into. *)
Theorem link_markup_escaped (lk : NoteIndex.Lookup) (target : string)
    (displayText : option string) :
  let href := escapeHref (trim target) in
  let text := escapeText (linkTextOf target displayText) in
  (noteLink lk target displayText = resolvedLink href text \/
   noteLink lk target displayText = brokenLink href text) /\
  allChars (fun x => negb (Ascii.eqb x (ascii_of_nat 34))) href = true /\
  allChars (fun x => negb (Ascii.eqb x "<")) text = true /\
  allChars (fun x => negb (Ascii.eqb x ">")) text = true.
Proof.
  intros href text. split; [|split; [|split]].
  - unfold href, text, noteLink. fold (linkTextOf target displayText).
    destruct (_ || _); [by left|by right].
  - unfold href, escapeHref. by apply replaceChar_removes.
  - unfold text, escapeText.
    apply replaceChar_keeps; [reflexivity|]. by apply replaceChar_removes.
  - unfold text, escapeText. by apply replaceChar_removes.
Qed.

Lemma matchWikilink_needs_open (s : string) :
  hasLinkOpen s = false -> matchWikilink s = None.
Proof.
  destruct s as [|c s]; [done|]. unfold matchWikilink.
  destruct c as [[] [] [] [] [] [] [] []]; try done.
  destruct s as [|c' s]; [done|].
  destruct c' as [[] [] [] [] [] [] [] []]; try done.
Qed.

(** A text without two opening brackets in a row goes through step 2b
    unchanged, under every index. *)
Theorem plain_text_unchanged (lk : NoteIndex.Lookup) (s : string) :
  hasLinkOpen s = false -> convertNoteWikilinks lk s = s.
Proof.
  unfold convertNoteWikilinks. induction s as [|c s IH]; [done|]. intros H.
  cbn [replaceWikilinks]. rewrite (matchWikilink_needs_open _ H).
  by rewrite (IH (RendererSpec.hasLinkOpen_tail c s H)).
Qed.

Lemma plain_text_unchanged_witness :
  Renderer.convertNoteWikilinks NoteIndex.cleared "a [link](b.md) and x[0] = [1]"
  = "a [link](b.md) and x[0] = [1]".
Proof.
  apply plain_text_unchanged. reflexivity.
Defined.

Lemma indexOf_hash_free (c : ascii) (s : string) :
  allChars (fun x => negb (Ascii.eqb x c)) s = true -> indexOf c s = None.
Proof.
  induction s as [|a s IH]; [done|]. cbn [allChars indexOf].
  intros H. apply andb_true_iff in H as [Ha Hs]. apply negb_true_iff in Ha.
  by rewrite Ha, (IH Hs).
Qed.

Lemma indexOf_app_sep (c : ascii) (a b : string) :
  allChars (fun x => negb (Ascii.eqb x c)) a = true ->
  indexOf c (a +:+ String c b) = Some (String.length a).
Proof.
  induction a as [|x a IH]; cbn [allChars]; intros H.
  - simpl. by rewrite Ascii.eqb_refl.
  - apply andb_true_iff in H as [Hx Ha]. apply negb_true_iff in Hx.
    change (String x a +:+ String c b) with (String x (a +:+ String c b)).
    cbn [indexOf]. by rewrite Hx, (IH Ha).
Qed.

Lemma substring0_app (a b : string) : substring0 (String.length a) (a +:+ b) = a.
Proof.
  induction a as [|x a IH]; simpl; [by destruct b|]. by rewrite IH.
Qed.

(** The anchor takes no part in the existence check: a link to
    [base#anchor] is styled as broken exactly when [wikiLinkExists] is false
    on [base], and its address keeps the anchor. *)
Theorem anchor_excluded (lk : NoteIndex.Lookup) (target base anchor : string)
    (displayText : option string) :
  allChars (fun x => negb (Ascii.eqb x "#")) base = true ->
  base <> "" ->
  trim target = base +:+ "#" +:+ anchor ->
  noteLink lk target displayText
  = (if NoteIndex.wikiLinkExists lk base then resolvedLink else brokenLink)
      (escapeHref (base +:+ "#" +:+ anchor))
      (escapeText (linkTextOf target displayText)).
Proof.
  intros Hbase Hne Htrim. unfold noteLink. fold (linkTextOf target displayText).
  rewrite Htrim. change ("#" +:+ anchor) with (String "#" anchor).
  rewrite (indexOf_app_sep "#" base anchor Hbase), substring0_app.
  assert (String.eqb base "" = false) as -> by by apply String.eqb_neq.
  cbn [orb]. by destruct (NoteIndex.wikiLinkExists lk base).
Qed.

Lemma anchor_excluded_witness :
  Renderer.noteLink
    (NoteIndex.buildNoteLookupMaps [mkNote "guide.md" "guide" "" "note" None])
    " Guide#Setup " None
  = Renderer.resolvedLink "Guide#Setup" "Guide#Setup".
Proof.
  exact (anchor_excluded
    (NoteIndex.buildNoteLookupMaps [mkNote "guide.md" "guide" "" "note" None])
    " Guide#Setup " "Guide" "Setup" None eq_refl ltac:(discriminate) eq_refl).
Defined.

Section StaleCache.

Variable beforeLinks : NoteIndex.Lookup -> string -> string * list string.
Variable afterLinks : list string -> string -> string.

(** The render cache is keyed by the text alone. Once a text has been
    rendered to something other than the empty string, replacing the index
    changes nothing: the getter keeps returning the markup made under the old
    index, without running the pipeline, until the text changes. *)
Theorem cache_ignores_index (st : State) (lk' : NoteIndex.Lookup) :
  noteContent st <> "" ->
  fst (renderedMarkdown beforeLinks afterLinks st) <> "" ->
  let first := renderedMarkdown beforeLinks afterLinks st in
  let again := renderedMarkdown beforeLinks afterLinks (withLookup lk' (snd first)) in
  fst again = fst first /\
  pipelineRuns (snd again) = pipelineRuns (snd first).
Proof.
  intros Htext Hhtml first again. subst first again.
  unfold renderedMarkdown in *.
  assert (Htext' : String.eqb (noteContent st) "" = false) by by apply String.eqb_neq.
  rewrite Htext' in *.
  destruct (String.eqb (noteContent st) (_lastRenderedContent st)
            && negb (String.eqb (_cachedRenderedHTML st) "")) eqn:Ehit.
  - cbn [fst snd withLookup noteContent _lastRenderedContent _cachedRenderedHTML] in *.
    by rewrite Htext', Ehit.
  - cbn [fst snd withLookup noteContent _lastRenderedContent _cachedRenderedHTML
         pipelineRuns] in *.
    rewrite Htext', String.eqb_refl.
    apply String.eqb_neq in Hhtml. by rewrite Hhtml.
Qed.

End StaleCache.

(** A link to [b] rendered while [b.md] does not exist stays styled as broken
    after the index has been rebuilt with [b.md] in it. *)
Lemma cache_ignores_index_witness :
  let before := NoteIndex.buildNoteLookupMaps [] in
  let after := NoteIndex.buildNoteLookupMaps [mkNote "b.md" "b" "" "note" None] in
  let first := Renderer.renderedMarkdown passThrough paragraphs (loaded before "[[b]]") in
  fst (Renderer.renderedMarkdown passThrough paragraphs (withLookup after (snd first)))
  = "<p>" +:+ brokenLink "b" "b" +:+ "</p>".
Proof.
  intros before after first.
  destruct (cache_ignores_index passThrough paragraphs (loaded before "[[b]]") after
              ltac:(discriminate) ltac:(by vm_compute)) as [H _].
  cbv zeta in H. fold first in H. rewrite H. by vm_compute.
Defined.

End RendererFlowSpec.

(** ** Folder tree: where folders and entries end up *)

Module FolderLookupSpec.
Import JS JSFacts JSLists FolderTree FolderTreeSpec.

Lemma getOwn_setOwn_eq (k : string) (v : FolderNode) (d : Dict) :
  getOwn k (setOwn k v d) = Some v.
Proof.
  induction d as [|[k' w] d IH]; simpl.
  - by rewrite String.eqb_refl.
  - destruct (String.eqb k' k) eqn:E; simpl; rewrite E; [done|apply IH].
Qed.

Lemma getOwn_setOwn_ne (k k' : string) (v : FolderNode) (d : Dict) :
  k <> k' -> getOwn k' (setOwn k v d) = getOwn k' d.
Proof.
  intros Hne. induction d as [|[k0 w] d IH]; simpl.
  - assert (String.eqb k k' = false) as -> by by apply String.eqb_neq. done.
  - destruct (String.eqb k0 k) eqn:E; simpl.
    + apply String.eqb_eq in E. subst k0.
      assert (String.eqb k k' = false) as -> by by apply String.eqb_neq. done.
    + destruct (String.eqb k0 k'); [done|apply IH].
Qed.

(** The node found at a path after one key of the top level has been set. *)
Lemma nodeAt_setOwn (k : string) (v : FolderNode) (d : Dict) (p : string)
    (rest : list string) :
  nodeAt (p :: rest) (setOwn k v d)
  = if String.eqb k p then
      match rest with
      | [] => Some v
      | _ :: _ => nodeAt rest (children v)
      end
    else nodeAt (p :: rest) d.
Proof.
  cbn [nodeAt]. destruct (String.eqb k p) eqn:E.
  - apply String.eqb_eq in E. subst p. by rewrite getOwn_setOwn_eq.
  - apply String.eqb_neq in E. by rewrite getOwn_setOwn_ne.
Qed.

Lemma nodeAt_empty (parts : list string) : nodeAt parts [] = None.
Proof. by destruct parts. Qed.

Lemma nodeAt_nil (d : Dict) : nodeAt [] d = None.
Proof. reflexivity. Qed.

Lemma nodeAt_cons (p : string) (rest : list string) (d : Dict) (n : FolderNode) :
  getOwn p d = Some n ->
  nodeAt (p :: rest) d = match rest with
                         | [] => Some n
                         | _ :: _ => nodeAt rest (children n)
                         end.
Proof. intros H. cbn [nodeAt]. by rewrite H. Qed.

Lemma nodeAt_cons_None (p : string) (rest : list string) (d : Dict) :
  getOwn p d = None -> nodeAt (p :: rest) d = None.
Proof. intros H. cbn [nodeAt]. by rewrite H. Qed.

(** [getOrCreate] and the tree it reads from agree below the key. *)
Lemma nodeAt_getOrCreate (k path_ : string) (d : Dict) (q : string)
    (rest : list string) :
  nodeAt (q :: rest) (children (getOrCreate k path_ d))
  = nodeAt (k :: q :: rest) d.
Proof.
  unfold getOrCreate. cbn [nodeAt]. destruct (getOwn k d) as [n|]; [done|].
  simpl. done.
Qed.

Lemma last_cons_cons (p q : string) (rest : list string) :
  List.last (p :: q :: rest) "" = List.last (q :: rest) "".
Proof. reflexivity. Qed.

Lemma grows_descend (walked : list string) (q : string) (cur cs : Dict)
    (added' added : list string -> list Note) :
  let node := getOrCreate q (join "/" (walked ++ [q])) cur in
  grows (freshAt (walked ++ [q])) added' (children node) cs ->
  added [] = [] ->
  added [q] = [] ->
  (forall p rest, p <> q -> added (p :: rest) = []) ->
  (forall r rest, added (q :: r :: rest) = added' (r :: rest)) ->
  grows (freshAt walked) added cur (setOwn q (withChildren node cs) cur).
Proof.
  intros node Hcs Hnil Hq Hother Hbelow parts.
  destruct parts as [|p rest]; [by rewrite !nodeAt_nil|].
  rewrite nodeAt_setOwn. destruct (String.eqb q p) eqn:E.
  - apply String.eqb_eq in E. subst p. destruct rest as [|r rest].
    + cbn [nodeAt]. subst node. unfold getOrCreate.
      destruct (getOwn q cur) as [n|]; simpl.
      * rewrite Hq, app_nil_r. done.
      * rewrite Hq. done.
    + cbn [children withChildren].
      specialize (Hcs (r :: rest)). subst node.
      rewrite nodeAt_getOrCreate in Hcs. rewrite Hbelow.
      destruct (nodeAt (q :: r :: rest) cur) as [n|],
               (nodeAt (r :: rest) cs) as [n'|]; try done.
      destruct Hcs as [[H1 H2] H3]. split; [|done]. split.
      * by rewrite last_cons_cons.
      * by rewrite H2, <- app_assoc.
  - apply String.eqb_neq in E. rewrite Hother by congruence.
    destruct (nodeAt (p :: rest) cur); [by rewrite app_nil_r|done].
Qed.

Lemma grows_refl (fresh : list string -> FolderNode -> Prop) (d : Dict) :
  grows fresh (fun _ => []) d d.
Proof.
  intros parts. destruct (nodeAt parts d); [by rewrite app_nil_r|done].
Qed.

(** The folder loop adds nodes with the right labels and no entry. *)
Lemma addFolderParts_grows (qs walked : list string) (cur cur' : Dict) :
  addFolderParts walked qs cur = Some cur' ->
  grows (freshAt walked) (fun _ => []) cur cur'.
Proof.
  revert walked cur cur'. induction qs as [|q qs IH]; intros walked cur cur'.
  - intros [= <-]. apply grows_refl.
  - cbn [addFolderParts]. destruct (inheritedKey q).
    { destruct qs; [|done]. intros [= <-]. apply grows_refl. }
    destruct (addFolderParts (walked ++ [q]) qs _) as [cs|] eqn:Ecs; [|done].
    intros [= <-]. apply IH in Ecs.
    by apply (grows_descend walked q cur cs (fun _ => [])).
Qed.

Lemma addedAt_below (q r : string) (rest qs : list string) (note : Note) :
  addedAt (q :: qs) note (q :: r :: rest) = addedAt qs note (r :: rest).
Proof.
  unfold addedAt. destruct (decide (r :: rest = qs)) as [<-|Hne].
  - by rewrite decide_True.
  - rewrite decide_False; [done|]. by intros [= ?].
Qed.

(** The loop that files an entry adds the entry at its place and nowhere
    else. *)
Lemma addNoteAt_grows (qs walked : list string) (note : Note) (cur cur' : Dict) :
  qs <> [] ->
  addNoteAt walked qs note cur = Some cur' ->
  grows (freshAt walked) (addedAt qs note) cur cur'.
Proof.
  revert walked cur cur'. induction qs as [|q qs IH]; intros walked cur cur' Hne; [done|].
  cbn [addNoteAt]. destruct (inheritedKey q); [done|].
  destruct qs as [|q2 qs].
  - intros [= <-]. intros parts.
    destruct parts as [|p rest]; [by rewrite !nodeAt_nil|].
    rewrite nodeAt_setOwn. unfold addedAt.
    destruct (String.eqb q p) eqn:E.
    + apply String.eqb_eq in E. subst p. destruct rest as [|r rest].
      * rewrite decide_True by done. cbn [nodeAt]. unfold getOrCreate.
        destruct (getOwn q cur) as [n|]; simpl; done.
      * rewrite decide_False by done. cbn [children withNotes].
        rewrite nodeAt_getOrCreate.
        destruct (nodeAt (q :: r :: rest) cur); [by rewrite app_nil_r|done].
    + apply String.eqb_neq in E.
      rewrite decide_False by (intros [= ? ?]; congruence).
      destruct (nodeAt (p :: rest) cur); [by rewrite app_nil_r|done].
  - destruct (addNoteAt (walked ++ [q]) (q2 :: qs) note _) as [cs|] eqn:Ecs; [|done].
    intros [= <-]. apply IH in Ecs; [|done].
    apply (grows_descend walked q cur cs (addedAt (q2 :: qs) note)); try done.
    + unfold addedAt. by rewrite decide_False.
    + intros p rest Hp. unfold addedAt. rewrite decide_False; [done|].
      intros [= ? ?]. congruence.
    + intros r rest. apply addedAt_below.
Qed.

Lemma placeOf_nonempty (note : Note) : placeOf note <> [].
Proof.
  unfold placeOf. destruct (String.eqb (folder note) ""); [done|].
  apply split_nonempty.
Qed.

(** One entry filed: it is added at its place, nodes that were there keep
    their labels, and nothing else changes. *)
Lemma addNote_grows (note : Note) (tree tree' : Dict) :
  addNote note tree = Some tree' ->
  grows (fun _ _ => True) (addedAt (placeOf note) note) tree tree'.
Proof.
  unfold addNote, placeOf. destruct (String.eqb (folder note) "") eqn:E.
  - intros [= <-]. intros parts.
    destruct parts as [|p rest]; [by rewrite !nodeAt_nil|].
    rewrite nodeAt_setOwn. unfold addedAt.
    destruct (String.eqb "__root__" p) eqn:Ep.
    + apply String.eqb_eq in Ep. subst p. destruct rest as [|r rest].
      * rewrite decide_True by done. cbn [nodeAt].
        destruct (getOwn "__root__" tree) as [n|]; simpl; done.
      * rewrite decide_False by done. cbn [children withNotes].
        destruct (getOwn "__root__" tree) as [n|] eqn:Eroot.
        -- rewrite (nodeAt_cons "__root__" (r :: rest) tree n Eroot).
           destruct (nodeAt (r :: rest) (children n)); [by rewrite app_nil_r|done].
        -- by rewrite (nodeAt_cons_None "__root__" (r :: rest) tree Eroot).
    + apply String.eqb_neq in Ep.
      rewrite decide_False by (intros [= ? ?]; congruence).
      destruct (nodeAt (p :: rest) tree); [by rewrite app_nil_r|done].
  - intros H. apply addNoteAt_grows in H; [|apply split_nonempty].
    intros parts. specialize (H parts).
    destruct (nodeAt parts tree), (nodeAt parts tree'); try done.
    by destruct H.
Qed.

Lemma grows_notesAt (fresh : list string -> FolderNode -> Prop)
    (added : list string -> list Note) (d d' : Dict) (parts : list string) :
  grows fresh added d d' -> notesAt parts d' = notesAt parts d ++ added parts.
Proof.
  intros H. specialize (H parts). unfold notesAt.
  destruct (nodeAt parts d), (nodeAt parts d'); try done.
  - by destruct H as (_ & _ & ?).
  - by destruct H.
Qed.

Lemma grows_keeps (fresh : list string -> FolderNode -> Prop)
    (added : list string -> list Note) (d d' : Dict) (parts : list string)
    (n : FolderNode) :
  grows fresh added d d' -> nodeAt parts d = Some n ->
  exists n', nodeAt parts d' = Some n' /\ fname n' = fname n /\ fpath n' = fpath n.
Proof.
  intros H Hn. specialize (H parts). rewrite Hn in H.
  destruct (nodeAt parts d') as [n'|]; [|done].
  exists n'. by destruct H as (? & ? & _).
Qed.

Lemma addFolderParts_creates (qs walked : list string) (cur cur' : Dict) :
  Forall (fun part => inheritedKey part = false) qs ->
  qs <> [] ->
  addFolderParts walked qs cur = Some cur' ->
  is_Some (nodeAt qs cur').
Proof.
  intros Hplain. revert walked cur cur'.
  induction Hplain as [|q qs Hq _ IH]; intros walked cur cur' Hne; [done|].
  cbn [addFolderParts]. rewrite Hq.
  destruct (addFolderParts (walked ++ [q]) qs _) as [cs|] eqn:Ecs; [|done].
  intros [= <-]. rewrite nodeAt_setOwn, String.eqb_refl.
  destruct qs as [|q2 qs]; [by eexists|].
  cbn [children withChildren]. by eapply IH.
Qed.

(** After the folder loop every node carries its key and its path, no node
    holds an entry, and every listed folder whose segments are all plain has
    its node. *)
Lemma addFolders_result (fs : list string) (tree tree' : Dict) :
  addFolders fs tree = Some tree' ->
  labelled [] tree ->
  (forall parts, notesAt parts tree = []) ->
  labelled [] tree' /\
  (forall parts, notesAt parts tree' = []) /\
  (forall parts, is_Some (nodeAt parts tree) -> is_Some (nodeAt parts tree')) /\
  (forall f, f ∈ fs -> plainPath f -> is_Some (nodeAt (split "/" f) tree')).
Proof.
  revert tree tree'. induction fs as [|f fs IH]; intros tree tree' Hadd Hl Hn.
  - injection Hadd as <-. split; [done|]. split; [done|]. split; [done|].
    intros f Hf. by inversion Hf.
  - cbn [addFolders] in Hadd.
    destruct (addFolderParts [] (split "/" f) tree) as [tree1|] eqn:E1; [|done].
    pose proof (addFolderParts_grows _ _ _ _ E1) as Hg.
    assert (Hl1 : labelled [] tree1).
    { intros parts n' Hn'. specialize (Hg parts). rewrite Hn' in Hg.
      destruct (nodeAt parts tree) as [n|] eqn:En.
      - destruct Hg as (-> & -> & _). by apply Hl.
      - by destruct Hg as [[? ?] _]. }
    assert (Hn1 : forall parts, notesAt parts tree1 = []).
    { intros parts. rewrite (grows_notesAt _ _ _ _ parts Hg), Hn. done. }
    destruct (IH tree1 tree' Hadd Hl1 Hn1) as (Hl' & Hn' & Hkeep & Hall).
    split; [done|]. split; [done|]. split.
    + intros parts [n Hparts]. apply Hkeep.
      destruct (grows_keeps _ _ _ _ parts n Hg Hparts) as (n1 & ? & _). by eexists.
    + intros f' Hf' Hplain. apply elem_of_cons in Hf' as [->|Hf']; [|by apply Hall].
      apply Hkeep. apply (addFolderParts_creates _ [] tree); [done| |done].
      apply split_nonempty.
Qed.

(** After the entries loop the node at a path holds, after what it held, the
    entries filed under that path, in the order of the collection; nodes that
    were there are still there, with the same labels. *)
Lemma addNotes_result (es : list Note) (tree tree' : Dict) (parts : list string) :
  addNotes es tree = Some tree' ->
  notesAt parts tree'
  = notesAt parts tree ++ List.filter (fun e => bool_decide (placeOf e = parts)) es /\
  (forall n, nodeAt parts tree = Some n ->
     exists n', nodeAt parts tree' = Some n' /\ fname n' = fname n /\
                fpath n' = fpath n).
Proof.
  revert tree tree'. induction es as [|e es IH]; intros tree tree' Hadd.
  - injection Hadd as <-. simpl. rewrite app_nil_r. split; [done|].
    intros n Hn. by exists n.
  - cbn [addNotes] in Hadd.
    destruct (addNote e tree) as [tree1|] eqn:E1; [|done].
    pose proof (addNote_grows _ _ _ E1) as Hg.
    destruct (IH tree1 tree' Hadd) as [Hnotes Hkeep]. split.
    + rewrite Hnotes, (grows_notesAt _ _ _ _ parts Hg), <- app_assoc. f_equal.
      cbn [List.filter]. unfold addedAt.
      destruct (decide (parts = placeOf e)) as [->|Hne].
      * by rewrite bool_decide_eq_true_2.
      * by rewrite bool_decide_eq_false_2.
    + intros n Hn.
      destruct (grows_keeps _ _ _ _ parts n Hg Hn) as (n1 & Hn1 & Hf1 & Hp1).
      destruct (Hkeep n1 Hn1) as (n' & Hn' & Hf' & Hp').
      exists n'. split; [done|]. split; congruence.
Qed.

Lemma getOwn_map (g : FolderNode -> FolderNode) (k : string) (d : Dict) :
  getOwn k (map (fun kc => (fst kc, g (snd kc))) d) = option_map g (getOwn k d).
Proof.
  induction d as [|[k' v] d IH]; [done|]. simpl.
  destruct (String.eqb k' k); [done|apply IH].
Qed.

(** A pass that rewrites every node and goes down through [children] finds
    at each path the rewritten node. *)
Lemma nodeAt_map (g : FolderNode -> FolderNode) :
  (forall n, children (g n) = map (fun kc => (fst kc, g (snd kc))) (children n)) ->
  forall parts d,
    nodeAt parts (map (fun kc => (fst kc, g (snd kc))) d)
    = option_map g (nodeAt parts d).
Proof.
  intros Hg parts. induction parts as [|p rest IH]; intros d; [done|].
  cbn [nodeAt]. rewrite getOwn_map.
  destruct (getOwn p d) as [n|]; [|done]. cbn [option_map].
  destruct rest as [|r rest]; [done|]. rewrite Hg. apply IH.
Qed.

Section Sorted.

Variable localeCompare : string -> string -> Z.

Lemma insertSorted_perm (x : Note) (l : list Note) :
  insertSorted localeCompare x l ≡ₚ x :: l.
Proof.
  induction l as [|y l IH]; [done|]. simpl.
  destruct (_ <=? _)%Z; [done|]. rewrite IH. apply Permutation_swap.
Qed.

Lemma sortByName_perm (l : list Note) : sortByName localeCompare l ≡ₚ l.
Proof.
  unfold sortByName. induction l as [|x l IH]; [done|]. simpl.
  rewrite insertSorted_perm. by rewrite IH.
Qed.

Lemma sortNotes_fields (n : FolderNode) :
  fname (sortNotes localeCompare n) = fname n /\
  fpath (sortNotes localeCompare n) = fpath n /\
  notes (sortNotes localeCompare n) ≡ₚ notes n /\
  children (sortNotes localeCompare n)
  = map (fun kc => (fst kc, sortNotes localeCompare (snd kc))) (children n).
Proof.
  destruct n as [nm pth cs ns c]. cbn [sortNotes fname fpath notes children].
  split; [done|]. split; [done|]. split; [|done].
  destruct ns; [done|]. apply sortByName_perm.
Qed.

Lemma calc_fields (n : FolderNode) :
  fname (calculateNoteCounts n) = fname n /\
  fpath (calculateNoteCounts n) = fpath n /\
  notes (calculateNoteCounts n) = notes n /\
  children (calculateNoteCounts n)
  = map (fun kc => (fst kc, calculateNoteCounts (snd kc))) (children n).
Proof.
  destruct n as [nm pth cs ns c]. by destruct cs.
Qed.

(** Sorting and counting keep every node where it is, with its labels and,
    up to order, its entries. *)
Lemma finish_nodeAt (tree : Dict) (parts : list string) :
  match nodeAt parts tree with
  | Some n =>
      exists nf,
        nodeAt parts (map (fun kc => (fst kc, calculateNoteCounts (snd kc)))
                          (sortTree localeCompare tree)) = Some nf /\
        fname nf = fname n /\ fpath nf = fpath n /\ notes nf ≡ₚ notes n
  | None =>
      nodeAt parts (map (fun kc => (fst kc, calculateNoteCounts (snd kc)))
                        (sortTree localeCompare tree)) = None
  end.
Proof.
  rewrite (nodeAt_map calculateNoteCounts) by (intros n; apply calc_fields).
  unfold sortTree.
  rewrite (nodeAt_map (sortNotes localeCompare)) by (intros n; apply sortNotes_fields).
  set (tree1 := match getOwn "__root__" tree with
                | Some root => setOwn "__root__"
                    (withNotes root (sortByName localeCompare (notes root))) tree
                | None => tree
                end).
  assert (Hpre : match nodeAt parts tree with
                 | Some n => exists n1, nodeAt parts tree1 = Some n1 /\
                     fname n1 = fname n /\ fpath n1 = fpath n /\
                     notes n1 ≡ₚ notes n
                 | None => nodeAt parts tree1 = None
                 end).
  { subst tree1. destruct (getOwn "__root__" tree) as [root|] eqn:Eroot.
    - destruct parts as [|p rest]; [done|]. rewrite nodeAt_setOwn.
      destruct (String.eqb "__root__" p) eqn:Ep.
      + apply String.eqb_eq in Ep. subst p.
        rewrite (nodeAt_cons _ rest tree root Eroot).
        destruct rest as [|r rest].
        * eexists. split; [done|]. cbn [withNotes fname fpath notes].
          split; [done|]. split; [done|]. apply sortByName_perm.
        * cbn [children withNotes].
          destruct (nodeAt (r :: rest) (children root)) as [n|]; [|done].
          by exists n.
      + destruct (nodeAt (p :: rest) tree) as [n|]; [|done]. by exists n.
    - destruct (nodeAt parts tree) as [n|]; [|done]. by exists n. }
  destruct (nodeAt parts tree) as [n|].
  - destruct Hpre as (n1 & -> & Hf & Hp & Hn). cbn [option_map].
    eexists. split; [done|].
    destruct (calc_fields (sortNotes localeCompare n1)) as (-> & -> & -> & _).
    destruct (sortNotes_fields n1) as (-> & -> & Hs & _).
    split; [done|]. split; [done|]. by rewrite Hs.
  - by rewrite Hpre.
Qed.

End Sorted.

Lemma walk_foreign (parts : list string) : walk parts [] Foreign <> NotFound ->
  walk parts [] Foreign = Foreign.
Proof.
  induction parts as [|p rest IH]; [done|]. cbn [walk getOwn].
  destruct (inheritedKey p); [apply IH|done].
Qed.

(** When [getFolderNode] answers a node, it is the node reached through own
    keys. *)
Lemma walk_found (parts : list string) (d : Dict) (acc : Found) (n : FolderNode) :
  parts <> [] -> walk parts d acc = FoundNode n -> nodeAt parts d = Some n.
Proof.
  revert d acc. induction parts as [|p rest IH]; intros d acc Hne; [done|].
  cbn [walk nodeAt]. destruct (getOwn p d) as [m|].
  - destruct rest as [|r rest]; [by intros [= ->]|]. by apply IH.
  - destruct (inheritedKey p); [|done]. intros H.
    rewrite walk_foreign in H; [done|]. by rewrite H.
Qed.

Lemma walk_nodeAt (parts : list string) (d : Dict) (acc : Found) (n : FolderNode) :
  nodeAt parts d = Some n -> walk parts d acc = FoundNode n.
Proof.
  revert d acc. induction parts as [|p rest IH]; intros d acc; [done|].
  cbn [walk nodeAt]. destruct (getOwn p d) as [m|]; [|done].
  destruct rest as [|r rest]; [by intros [= ->]|]. apply IH.
Qed.

Lemma filter_nonEmpty_all (l : list string) :
  Forall (fun seg => nonEmpty seg = true) l -> List.filter nonEmpty l = l.
Proof.
  induction 1 as [|x l Hx _ IH]; [done|]. simpl. by rewrite Hx, IH.
Qed.

(** Every folder of the explicit list whose segments are non-empty and
    plain is found by [getFolderNode]; the node carries the folder path as
    its [path] and the last segment as its [name]. *)
Theorem getFolderNode_explicit_folder (localeCompare : string -> string -> Z)
    (allFolders : list string) (entries : list Note) (tree : Dict) (f : string) :
  buildFolderTree localeCompare allFolders entries = Some tree ->
  f ∈ allFolders ->
  plainPath f ->
  Forall (fun seg => nonEmpty seg = true) (split "/" f) ->
  exists node,
    getFolderNode tree f = FoundNode node /\
    fpath node = f /\
    fname node = List.last (split "/" f) "".
Proof.
  unfold buildFolderTree. intros Hbuild Hf Hplain Hsegs.
  destruct (addFolders allFolders []) as [tree1|] eqn:E1; [|done].
  destruct (addNotes entries tree1) as [tree2|] eqn:E2; [|done].
  injection Hbuild as <-.
  destruct (addFolders_result allFolders [] tree1 E1) as (Hl & _ & _ & Hall).
  { intros parts n Hn. by rewrite nodeAt_empty in Hn. }
  { intros parts. unfold notesAt. by rewrite nodeAt_empty. }
  destruct (Hall f Hf Hplain) as [n1 Hn1].
  destruct (Hl _ _ Hn1) as [Hname Hpath].
  destruct (addNotes_result entries tree1 tree2 (split "/" f) E2) as [_ Hkeep].
  destruct (Hkeep n1 Hn1) as (n2 & Hn2 & Hname2 & Hpath2).
  pose proof (finish_nodeAt localeCompare tree2 (split "/" f)) as Hfin.
  rewrite Hn2 in Hfin. destruct Hfin as (nf & Hnf & Hnamef & Hpathf & _).
  exists nf. split; [|split].
  - unfold getFolderNode.
    assert (String.eqb f "" = false) as ->.
    { apply String.eqb_neq. intros ->. by inversion Hsegs. }
    rewrite filter_nonEmpty_all by done. by apply walk_nodeAt.
  - rewrite Hpathf, Hpath2, Hpath. apply (join_split "/").
  - by rewrite Hnamef, Hname2, Hname.
Qed.

Lemma getFolderNode_explicit_folder_witness :
  exists node,
    FolderTree.getFolderNode
      [("proj", mkFolder "proj" "proj"
                  [("docs", mkFolder "docs" "proj/docs" [] [] (Some 0))] [] (Some 0))]
      "proj/docs" = FoundNode node /\
    fpath node = "proj/docs" /\ fname node = "docs".
Proof.
  apply (getFolderNode_explicit_folder codeUnitCompare ["proj/docs"] []); try done.
  - by left.
  - by repeat constructor.
  - by repeat constructor.
Defined.

Lemma split_inj (c : ascii) (a b : string) : split c a = split c b -> a = b.
Proof.
  intros H. by rewrite <- (join_split c a), <- (join_split c b), H.
Qed.

(** The node [getFolderNode] answers for a folder holds exactly the entries
    of the collection whose [folder] is that folder, each as often as the
    collection lists it. (The key [__root__] is set apart: it is the bucket
    of the entries without folder.) *)
Theorem getFolderNode_contents (localeCompare : string -> string -> Z)
    (allFolders : list string) (entries : list Note) (tree : Dict) (f : string)
    (node : FolderNode) :
  buildFolderTree localeCompare allFolders entries = Some tree ->
  getFolderNode tree f = FoundNode node ->
  f <> "__root__" ->
  Forall (fun seg => nonEmpty seg = true) (split "/" f) ->
  notes node ≡ₚ List.filter (fun e => String.eqb (folder e) f) entries.
Proof.
  unfold buildFolderTree. intros Hbuild Hget Hroot Hsegs.
  destruct (addFolders allFolders []) as [tree1|] eqn:E1; [|done].
  destruct (addNotes entries tree1) as [tree2|] eqn:E2; [|done].
  injection Hbuild as <-.
  assert (Hf : String.eqb f "" = false).
  { apply String.eqb_neq. intros ->. by inversion Hsegs. }
  unfold getFolderNode in Hget. rewrite Hf, filter_nonEmpty_all in Hget by done.
  apply walk_found in Hget; [|apply split_nonempty].
  pose proof (finish_nodeAt localeCompare tree2 (split "/" f)) as Hfin.
  destruct (nodeAt (split "/" f) tree2) as [n2|] eqn:En2;
    [|by rewrite Hfin in Hget].
  destruct Hfin as (nf & Hnf & _ & _ & Hperm).
  rewrite Hnf in Hget. injection Hget as ->.
  rewrite Hperm.
  destruct (addFolders_result allFolders [] tree1 E1) as (_ & Hempty & _).
  { intros parts n Hn. by rewrite nodeAt_empty in Hn. }
  { intros parts. unfold notesAt. by rewrite nodeAt_empty. }
  destruct (addNotes_result entries tree1 tree2 (split "/" f) E2) as [Hnotes _].
  unfold notesAt in Hnotes at 1. rewrite En2, Hempty in Hnotes.
  rewrite Hnotes. cbn [app].
  assert (Hsame : forall e, bool_decide (placeOf e = split "/" f)
                            = String.eqb (folder e) f).
  { intros e. unfold placeOf. destruct (String.eqb (folder e) "") eqn:Ee.
    - apply String.eqb_eq in Ee. rewrite Ee.
      assert (String.eqb "" f = false) as ->
        by (apply String.eqb_neq; intros <-; by rewrite String.eqb_refl in Hf).
      apply bool_decide_eq_false_2. intros H.
      apply Hroot. apply (split_inj "/"). by rewrite <- H.
    - destruct (String.eqb (folder e) f) eqn:Eef.
      + apply String.eqb_eq in Eef. subst f. by apply bool_decide_eq_true_2.
      + apply String.eqb_neq in Eef. apply bool_decide_eq_false_2.
        intros H. by apply split_inj in H. }
  erewrite List.filter_ext; [done|]. intros e. apply Hsame.
Qed.

Lemma getFolderNode_contents_witness :
  let a := mkNote "proj/b.md" "b" "proj" "note" None in
  let b := mkNote "top.md" "top" "" "note" None in
  let c := mkNote "proj/a.md" "a" "proj" "note" None in
  [c; a] ≡ₚ List.filter (fun e => String.eqb (folder e) "proj") [a; b; c].
Proof.
  intros a b c.
  apply (getFolderNode_contents codeUnitCompare [] [a; b; c]
           [("proj", mkFolder "proj" "proj" [] [c; a] (Some 2));
            ("__root__", mkFolder "" "" [] [b] (Some 1))]
           "proj" (mkFolder "proj" "proj" [] [c; a] (Some 2))); try done.
  by repeat constructor.
Defined.

End FolderLookupSpec.

(** ** Folder tree: what the counts add up to *)

Module FolderCountSpec.
Import JS JSFacts JSLists FolderTree FolderTreeSpec FolderLookupSpec.

Lemma totalNotes_eq (f : FolderNode) :
  totalNotes f = length (notes f) + treeTotal (children f).
Proof. by destruct f. Qed.

Lemma nodesOf_eq (f : FolderNode) :
  nodesOf f = f :: flat_map (fun kc => nodesOf (snd kc)) (children f).
Proof. by destruct f. Qed.

Lemma counts_total (d : Dict) :
  Forall (fun kc => countOf (snd kc) = totalNotes (snd kc)) d ->
  list_sum (map (fun kc => countOf (snd kc)) d) = treeTotal d.
Proof.
  unfold treeTotal. induction 1 as [|kc l Hkc _ IHl]; [done|].
  cbn [map]. rewrite Hkc.
  change (totalNotes (snd kc)
            + list_sum (map (fun kc0 : string * FolderNode => countOf (snd kc0)) l)
          = totalNotes (snd kc)
            + list_sum (map (fun kc0 : string * FolderNode => totalNotes (snd kc0)) l)).
  by rewrite IHl.
Qed.

(** After [calculateNoteCounts] the cached count of every node is the number
    of entries found by walking the node's whole subtree. *)
Lemma calc_nodes_total (f : FolderNode) :
  Forall (fun g => noteCount g = Some (totalNotes g))
         (nodesOf (calculateNoteCounts f)).
Proof.
  induction f as [n p cs ns c IH] using FolderNode_nested_ind.
  rewrite nodesOf_eq. destruct (calc_fields (mkFolder n p cs ns c)) as (_ & _ & Hn & Hc).
  rewrite Hc. cbn [children] in *.
  assert (Hkids : Forall (fun kc => countOf (snd kc) = totalNotes (snd kc))
            (map (fun kc => (fst kc, calculateNoteCounts (snd kc))) cs)).
  { apply (Forall_map_snd (fun g => countOf g = totalNotes g) calculateNoteCounts).
    eapply Forall_impl; [exact IH|]. intros kc Hkc. cbn beta in Hkc.
    rewrite nodesOf_eq in Hkc. apply Forall_cons in Hkc as [Hhead _].
    unfold countOf. by rewrite Hhead. }
  assert (Hsum : list_sum (map (fun kc => countOf (snd kc))
                    (map (fun kc => (fst kc, calculateNoteCounts (snd kc))) cs))
                 = treeTotal (map (fun kc => (fst kc, calculateNoteCounts (snd kc))) cs)).
  { by apply counts_total. }
  constructor.
  - rewrite totalNotes_eq, Hc, Hn. cbn [notes].
    destruct cs as [|kc cs];
      [simpl; f_equal; unfold treeTotal; simpl; lia|].
    remember (kc :: cs) as all.
    assert (Hcount : noteCount (calculateNoteCounts (mkFolder n p all ns c))
      = Some (length ns + foldl (fun total kc => total + countOf (snd kc)) 0
                (map (fun kc => (fst kc, calculateNoteCounts (snd kc))) all)))
      by (subst all; reflexivity).
    by rewrite Hcount, foldl_counts, Hsum.
  - apply Forall_flat_map.
    apply (Forall_map_snd
             (fun g => Forall (fun g0 => noteCount g0 = Some (totalNotes g0)) (nodesOf g))
             calculateNoteCounts).
    exact IH.
Qed.

(** In every tree [buildFolderTree] returns, the cached count of a folder is
    the number of entries in the folder and in all folders below it. *)
Theorem noteCount_is_total (localeCompare : string -> string -> Z)
    (allFolders : list string) (entries : list Note) (tree : Dict) (f : FolderNode) :
  buildFolderTree localeCompare allFolders entries = Some tree ->
  f ∈ treeNodes tree ->
  noteCount f = Some (totalNotes f).
Proof.
  unfold buildFolderTree. intros Hbuild Hf.
  destruct (addFolders allFolders []) as [tree1|]; [|done].
  destruct (addNotes entries tree1) as [tree2|]; [|done].
  injection Hbuild as <-.
  assert (Hall : Forall (fun g => noteCount g = Some (totalNotes g))
    (treeNodes (map (fun kc => (fst kc, calculateNoteCounts (snd kc)))
                    (sortTree localeCompare tree2)))).
  { unfold treeNodes. apply Forall_flat_map.
    apply (Forall_map_snd
             (fun g => Forall (fun g0 => noteCount g0 = Some (totalNotes g0)) (nodesOf g))
             calculateNoteCounts).
    apply Forall_forall. intros kc _. apply calc_nodes_total. }
  rewrite Forall_forall in Hall. by apply Hall.
Qed.

Lemma noteCount_is_total_witness :
  let n := mkNote "proj/docs/n.md" "n" "proj/docs" "note" None in
  let docs := mkFolder "docs" "proj/docs" [] [n] (Some 1) in
  noteCount (mkFolder "proj" "proj" [("docs", docs)] [] (Some 1))
  = Some (totalNotes (mkFolder "proj" "proj" [("docs", docs)] [] (Some 1))).
Proof.
  intros n docs.
  apply (noteCount_is_total codeUnitCompare ["proj"; "proj/docs"] [n]
           [("proj", mkFolder "proj" "proj" [("docs", docs)] [] (Some 1))]);
    [reflexivity|by left].
Defined.

Lemma setOwn_total (k : string) (v : FolderNode) (d : Dict) :
  treeTotal (setOwn k v d)
  + match getOwn k d with Some n => totalNotes n | None => 0 end
  = treeTotal d + totalNotes v.
Proof.
  unfold treeTotal. induction d as [|[k' w] d IH]; simpl; [lia|].
  destruct (String.eqb k' k); simpl; lia.
Qed.

Lemma getOrCreate_total (k path_ : string) (d : Dict) :
  match getOwn k d with Some n => totalNotes n | None => 0 end
  = totalNotes (getOrCreate k path_ d).
Proof. unfold getOrCreate. by destruct (getOwn k d). Qed.

Lemma addFolderParts_treeTotal (qs walked : list string) (cur cur' : Dict) :
  addFolderParts walked qs cur = Some cur' -> treeTotal cur' = treeTotal cur.
Proof.
  revert walked cur cur'. induction qs as [|q qs IH]; intros walked cur cur'.
  - by intros [= <-].
  - cbn [addFolderParts]. destruct (inheritedKey q).
    { destruct qs; [|done]. by intros [= <-]. }
    destruct (addFolderParts (walked ++ [q]) qs _) as [cs|] eqn:Ecs; [|done].
    intros [= <-]. apply IH in Ecs.
    pose proof (setOwn_total q
      (withChildren (getOrCreate q (join "/" (walked ++ [q])) cur) cs) cur) as H.
    rewrite (getOrCreate_total q (join "/" (walked ++ [q]))) in H.
    rewrite (totalNotes_eq (withChildren _ _)) in H. cbn [withChildren notes children] in H.
    rewrite (totalNotes_eq (getOrCreate _ _ _)) in H. lia.
Qed.

Lemma addFolders_treeTotal (fs : list string) (tree tree' : Dict) :
  addFolders fs tree = Some tree' -> treeTotal tree' = treeTotal tree.
Proof.
  revert tree. induction fs as [|f fs IH]; intros tree; [by intros [= <-]|].
  cbn [addFolders].
  destruct (addFolderParts [] (split "/" f) tree) as [tree1|] eqn:E1; [|done].
  intros H. rewrite (IH _ H). by apply addFolderParts_treeTotal in E1.
Qed.

Lemma addNoteAt_treeTotal (qs walked : list string) (note : Note) (cur cur' : Dict) :
  qs <> [] ->
  addNoteAt walked qs note cur = Some cur' -> treeTotal cur' = S (treeTotal cur).
Proof.
  revert walked cur cur'. induction qs as [|q qs IH]; intros walked cur cur' Hne; [done|].
  cbn [addNoteAt]. destruct (inheritedKey q); [done|].
  destruct qs as [|q2 qs].
  - intros [= <-].
    pose proof (setOwn_total q
      (withNotes (getOrCreate q (join "/" (walked ++ [q])) cur)
         (notes (getOrCreate q (join "/" (walked ++ [q])) cur) ++ [note])) cur) as H.
    rewrite (getOrCreate_total q (join "/" (walked ++ [q]))) in H.
    rewrite (totalNotes_eq (withNotes _ _)) in H. cbn [withNotes notes children] in H.
    rewrite (totalNotes_eq (getOrCreate _ _ _)), length_app in H. simpl in H. lia.
  - destruct (addNoteAt (walked ++ [q]) (q2 :: qs) note _) as [cs|] eqn:Ecs; [|done].
    intros [= <-]. apply IH in Ecs; [|done].
    pose proof (setOwn_total q
      (withChildren (getOrCreate q (join "/" (walked ++ [q])) cur) cs) cur) as H.
    rewrite (getOrCreate_total q (join "/" (walked ++ [q]))) in H.
    rewrite (totalNotes_eq (withChildren _ _)) in H. cbn [withChildren notes children] in H.
    rewrite (totalNotes_eq (getOrCreate _ _ _)) in H. lia.
Qed.

Lemma addNote_total (note : Note) (tree tree' : Dict) :
  addNote note tree = Some tree' -> treeTotal tree' = S (treeTotal tree).
Proof.
  unfold addNote. destruct (String.eqb (folder note) "").
  - intros [= <-].
    pose proof (setOwn_total "__root__"
      (withNotes (match getOwn "__root__" tree with
                  | Some node => node
                  | None => newFolder "" ""
                  end)
         (notes (match getOwn "__root__" tree with
                 | Some node => node
                 | None => newFolder "" ""
                 end) ++ [note])) tree) as H.
    rewrite (totalNotes_eq (withNotes _ _)) in H. cbn [withNotes notes children] in H.
    rewrite length_app in H. cbn [length] in H.
    destruct (getOwn "__root__" tree) as [root|].
    + rewrite (totalNotes_eq root) in H. lia.
    + change (totalNotes (newFolder "" "")) with 0 in H.
      change (length (notes (newFolder "" ""))) with 0 in H.
      change (treeTotal (children (newFolder "" ""))) with 0 in H. lia.
  - apply addNoteAt_treeTotal, split_nonempty.
Qed.

Lemma addNotes_treeTotal (es : list Note) (tree tree' : Dict) :
  addNotes es tree = Some tree' -> treeTotal tree' = length es + treeTotal tree.
Proof.
  revert tree. induction es as [|e es IH]; intros tree; [by intros [= <-]|].
  cbn [addNotes]. destruct (addNote e tree) as [tree1|] eqn:E1; [|done].
  intros H. rewrite (IH _ H). apply addNote_total in E1. simpl. lia.
Qed.

Lemma treeTotal_map (g : FolderNode -> FolderNode) (d : Dict) :
  Forall (fun kc => totalNotes (g (snd kc)) = totalNotes (snd kc)) d ->
  treeTotal (map (fun kc => (fst kc, g (snd kc))) d) = treeTotal d.
Proof.
  unfold treeTotal. induction 1 as [|kc d Hkc _ IH]; [done|].
  simpl. by rewrite Hkc, IH.
Qed.

Lemma sortNotes_total (localeCompare : string -> string -> Z) (f : FolderNode) :
  totalNotes (sortNotes localeCompare f) = totalNotes f.
Proof.
  induction f as [n p cs ns c IH] using FolderNode_nested_ind.
  rewrite !totalNotes_eq.
  destruct (sortNotes_fields localeCompare (mkFolder n p cs ns c)) as (_ & _ & Hn & Hc).
  rewrite Hc, (Permutation_length Hn). cbn [children notes].
  by rewrite treeTotal_map.
Qed.

Lemma calc_total (f : FolderNode) : totalNotes (calculateNoteCounts f) = totalNotes f.
Proof.
  induction f as [n p cs ns c IH] using FolderNode_nested_ind.
  rewrite !totalNotes_eq.
  destruct (calc_fields (mkFolder n p cs ns c)) as (_ & _ & Hn & Hc).
  rewrite Hc, Hn. cbn [children notes]. by rewrite treeTotal_map.
Qed.

Lemma sortTree_total (localeCompare : string -> string -> Z) (tree : Dict) :
  treeTotal (sortTree localeCompare tree) = treeTotal tree.
Proof.
  unfold sortTree. rewrite treeTotal_map
    by (apply Forall_forall; intros kc _; apply sortNotes_total).
  destruct (getOwn "__root__" tree) as [root|] eqn:E; [|done].
  pose proof (setOwn_total "__root__"
    (withNotes root (sortByName localeCompare (notes root))) tree) as H.
  rewrite E, (totalNotes_eq (withNotes _ _)), (totalNotes_eq root) in H.
  cbn [withNotes notes children] in H.
  rewrite (Permutation_length (sortByName_perm localeCompare (notes root))) in H.
  lia.
Qed.

(** The counts of the top-level folders and of the root bucket add up to the
    number of entries of the collection: every entry is counted once. *)
Theorem top_counts_add_up (localeCompare : string -> string -> Z)
    (allFolders : list string) (entries : list Note) (tree : Dict) :
  buildFolderTree localeCompare allFolders entries = Some tree ->
  list_sum (map (fun kc => countOf (snd kc)) tree) = length entries.
Proof.
  unfold buildFolderTree. intros Hbuild.
  destruct (addFolders allFolders []) as [tree1|] eqn:E1; [|done].
  destruct (addNotes entries tree1) as [tree2|] eqn:E2; [|done].
  injection Hbuild as <-.
  apply addFolders_treeTotal in E1. apply addNotes_treeTotal in E2.
  rewrite E1 in E2. unfold treeTotal at 2 in E2. simpl in E2.
  rewrite Nat.add_0_r in E2. rewrite <- E2, <- (sortTree_total localeCompare tree2).
  generalize (sortTree localeCompare tree2). intros d.
  unfold treeTotal. induction d as [|kc d IH]; [done|]. simpl.
  rewrite IH. f_equal.
  pose proof (calc_nodes_total (snd kc)) as H. rewrite nodesOf_eq in H.
  apply Forall_cons in H as [H _]. unfold countOf. rewrite H. apply calc_total.
Qed.

Lemma top_counts_add_up_witness :
  list_sum (map (fun kc => countOf (snd kc))
    [("proj", mkFolder "proj" "proj" [] [mkNote "proj/a.md" "a" "proj" "note" None] (Some 1));
     ("__root__", mkFolder "" "" [] [mkNote "top.md" "top" "" "note" None] (Some 1))])
  = 2.
Proof.
  exact (top_counts_add_up codeUnitCompare ["proj"]
           [mkNote "proj/a.md" "a" "proj" "note" None;
            mkNote "top.md" "top" "" "note" None] _ eq_refl).
Defined.

End FolderCountSpec.

(** ** Folder tree: folder names that are properties of every object *)

Module FolderErrorSpec.
Import JS JSFacts JSLists FolderTree FolderTreeSpec.

Lemma buildFolderTree_total_witness :
  is_Some (FolderTree.buildFolderTree codeUnitCompare ["proj"; "proj/docs"]
             [mkNote "proj/docs/n.md" "n" "proj/docs" "note" None;
              mkNote "top.md" "top" "" "note" None]).
Proof.
  apply buildFolderTree_total; unfold plainPath; by repeat constructor.
Defined.

Lemma addNoteAt_inherited (qs walked : list string) (note : Note) (cur : Dict) :
  Exists (fun part => inheritedKey part = true) qs ->
  addNoteAt walked qs note cur = None.
Proof.
  revert walked cur. induction qs as [|q qs IH]; intros walked cur Hex.
  - by inversion Hex.
  - cbn [addNoteAt]. destruct (inheritedKey q) eqn:Eq; [done|].
    apply Exists_cons in Hex as [Hq|Hqs]; [congruence|].
    destruct qs as [|q2 qs]; [by inversion Hqs|].
    by rewrite IH.
Qed.

Lemma addNotes_inherited (es : list Note) (tree : Dict) (e : Note) :
  e ∈ es ->
  folder e <> "" ->
  Exists (fun part => inheritedKey part = true) (split "/" (folder e)) ->
  addNotes es tree = None.
Proof.
  intros Hin Hfolder Hex. revert tree.
  induction es as [|e' es IH]; intros tree; [by inversion Hin|].
  cbn [addNotes]. apply elem_of_cons in Hin as [<-|Hin].
  - unfold addNote.
    assert (String.eqb (folder e) "" = false) as -> by by apply String.eqb_neq.
    by rewrite addNoteAt_inherited.
  - destruct (addNote e' tree); [by apply IH|done].
Qed.

(** An entry whose folder has a segment named like a property of
    [Object.prototype] ([constructor], [toString], ...) makes
    [buildFolderTree] throw: no tree is built at all. *)
Theorem buildFolderTree_inherited_folder (localeCompare : string -> string -> Z)
    (allFolders : list string) (entries : list Note) (e : Note) :
  e ∈ entries ->
  folder e <> "" ->
  Exists (fun part => inheritedKey part = true) (split "/" (folder e)) ->
  buildFolderTree localeCompare allFolders entries = None.
Proof.
  intros Hin Hfolder Hex. unfold buildFolderTree.
  destruct (addFolders allFolders []) as [tree1|]; [|done].
  by rewrite (addNotes_inherited entries tree1 e).
Qed.

Lemma buildFolderTree_inherited_folder_witness :
  FolderTree.buildFolderTree codeUnitCompare ["js"]
    [mkNote "ok.md" "ok" "" "note" None;
     mkNote "js/constructor/notes.md" "notes" "js/constructor" "note" None]
  = None.
Proof.
  apply (buildFolderTree_inherited_folder _ _ _
           (mkNote "js/constructor/notes.md" "notes" "js/constructor" "note" None)).
  - right. by left.
  - discriminate.
  - apply Exists_cons. right. apply Exists_cons. by left.
Defined.

End FolderErrorSpec.
